(** * HD wallet engine: a shallow embedding of [hdwallet.go],
      [internal/wallet/simple_wallet.go] and the commands of the [skms]
      tool, and the properties of its key derivation, account registry,
      signer, key export and cleanup. *)

From Stdlib Require Import ZArith List String Ascii Lia.
From stdpp Require Import base option list gmap fin_maps strings pretty numbers.

Local Open Scope Z_scope.

(** ** Go values shared by both packages *)

(** A Go function returning [(T, error)]. *)
Inductive result (E A : Type) : Type :=
  | Ok (a : A)
  | Err (e : E).
Arguments Ok {E A} a.
Arguments Err {E A} e.

Global Instance result_ret {E} : MRet (result E) := fun _ a => Ok a.

Global Instance result_bind {E} : MBind (result E) := fun _ _ k r =>
  match r with
  | Ok a => k a
  | Err e => Err e
  end.

(** Heap addresses of Go objects reached through pointers and slices. *)
Abbreviation loc := positive (only parsing).

(** A byte is a [Z] in [0, 256); [byte(x)] truncates. *)
Definition to_byte (x : Z) : Z := x mod 256.

Definition is_byte (b : Z) : Prop := 0 ≤ b < 256.

(** [[]byte(s)] for a Go string [s]. *)
Definition bytes_of_string (s : string) : list Z :=
  map (fun c => Z.of_N (N_of_ascii c)) (list_ascii_of_string s).

(** The builtin [copy(dst, src)]: overwrites the first
    [min(len(dst), len(src))] elements of [dst]; the result is the new
    contents of [dst]. *)
Definition copy (dst src : list Z) : list Z :=
  take (length dst) src ++ drop (length src) dst.

(** [copy(dst[off:], src)]. *)
Definition copy_at (off : nat) (dst src : list Z) : list Z :=
  take off dst ++ copy (drop off dst) src.

(** [make([]byte, n)]. *)
Definition make_bytes (n : nat) : list Z := replicate n 0.

(** [new(big.Int).SetBytes(b)]: big-endian unsigned integer. *)
Definition SetBytes (b : list Z) : Z :=
  fold_left (fun acc x => acc * 256 + x) b 0.

(** Big-endian encoding of [x] on [n] bytes ([big.Int.FillBytes] for
    [0 ≤ x < 256^n]). *)
Fixpoint be_bytes (n : nat) (x : Z) : list Z :=
  match n with
  | O => []
  | S n' => be_bytes n' (x / 256) ++ [x mod 256]
  end.

(** [big.Int.BitLen] and [big.Int.Bytes] of a non-negative integer: the
    big-endian bytes without leading zero bytes. *)
Definition big_BitLen (x : Z) : Z := if x <=? 0 then 0 else Z.log2 x + 1.

Definition big_Bytes (x : Z) : list Z :=
  be_bytes (Z.to_nat ((big_BitLen x + 7) / 8)) x.

(** ** encoding/hex *)

Definition hex_digit (n : Z) : ascii :=
  match n with
  | 0 => "0" | 1 => "1" | 2 => "2" | 3 => "3" | 4 => "4"
  | 5 => "5" | 6 => "6" | 7 => "7" | 8 => "8" | 9 => "9"
  | 10 => "a" | 11 => "b" | 12 => "c" | 13 => "d" | 14 => "e"
  | _ => "f"
  end%char.

(** [hex.EncodeToString]. *)
Fixpoint EncodeToString (b : list Z) : string :=
  match b with
  | [] => EmptyString
  | x :: rest =>
      String (hex_digit (x / 16)) (String (hex_digit (x mod 16)) (EncodeToString rest))
  end.

Definition from_hex_char (c : ascii) : option Z :=
  let n := Z.of_N (N_of_ascii c) in
  if (48 <=? n) && (n <=? 57) then Some (n - 48)
  else if (97 <=? n) && (n <=? 102) then Some (n - 97 + 10)
  else if (65 <=? n) && (n <=? 70) then Some (n - 65 + 10)
  else None.

(** [hex.DecodeString]: [None] on an odd length or a non-hex character. *)
Fixpoint DecodeString (s : string) : option (list Z) :=
  match s with
  | EmptyString => Some []
  | String _ EmptyString => None
  | String c1 (String c2 rest) =>
      match from_hex_char c1, from_hex_char c2, DecodeString rest with
      | Some h, Some l, Some bs => Some ((h * 16 + l) :: bs)
      | _, _, _ => None
      end
  end.

(** The string slice [s[n:]]. *)
Fixpoint drop_string (n : nat) (s : string) : string :=
  match n, s with
  | O, _ => s
  | S n', String _ rest => drop_string n' rest
  | S _, EmptyString => EmptyString
  end.

(** ** strings.Fields and strings.Join *)

Definition byte_at (s : string) (i : nat) : option Z :=
  (fun c => Z.of_N (N_of_ascii c)) <$> String.get i s.

(** Width in bytes of the white-space rune ([unicode.IsSpace]) whose UTF-8
    encoding starts the string, and [0] when the string does not start with
    one: the six ASCII spaces, U+0085, U+00A0, U+1680, U+2000..U+200A,
    U+2028, U+2029, U+202F, U+205F and U+3000. *)
Definition space_width (s : string) : nat :=
  match byte_at s 0 with
  | None => 0%nat
  | Some b0 =>
      if ((9 <=? b0) && (b0 <=? 13)) || (b0 =? 32) then 1%nat
      else if b0 =? 194 then
        match byte_at s 1 with
        | Some b1 => if (b1 =? 133) || (b1 =? 160) then 2%nat else 0%nat
        | None => 0%nat
        end
      else if (b0 =? 225) || (b0 =? 226) || (b0 =? 227) then
        match byte_at s 1, byte_at s 2 with
        | Some b1, Some b2 =>
            if (b0 =? 225) && (b1 =? 154) && (b2 =? 128) then 3%nat
            else if (b0 =? 226) && (b1 =? 128)
                    && (((128 <=? b2) && (b2 <=? 138)) || (b2 =? 168)
                        || (b2 =? 169) || (b2 =? 175)) then 3%nat
            else if (b0 =? 226) && (b1 =? 129) && (b2 =? 159) then 3%nat
            else if (b0 =? 227) && (b1 =? 128) && (b2 =? 128) then 3%nat
            else 0%nat
        | _, _ => 0%nat
        end
      else 0%nat
  end.

Definition emit (cur : string) : list string :=
  match cur with
  | EmptyString => []
  | _ => [cur]
  end.

(** The scanning loop of [strings.Fields]: [skip] counts the bytes of the
    current white-space rune still to be passed over, [cur] is the field
    being collected. *)
Fixpoint fields_go (skip : nat) (cur : string) (s : string) : list string :=
  match s with
  | EmptyString => emit cur
  | String c rest =>
      match skip with
      | S k => fields_go k cur rest
      | O =>
          match space_width s with
          | O => fields_go 0 (cur +:+ String c EmptyString) rest
          | S k => emit cur ++ fields_go k EmptyString rest
          end
      end
  end.

Definition Fields (s : string) : list string := fields_go 0 EmptyString s.

Fixpoint Join (elems : list string) (sep : string) : string :=
  match elems with
  | [] => EmptyString
  | [w] => w
  | w :: rest => w +:+ sep +:+ Join rest sep
  end.

(** * Package [wallet]: [internal/wallet/simple_wallet.go] *)

Module wallet.

Definition SeedLength : nat := 64.
Definition MinEntropyBits : Z := 128.
Definition MaxEntropyBits : Z := 256.
Definition AddressLength : nat := 20.

Inductive error : Type :=
  | ErrInvalidMnemonic
  | ErrInvalidPath
  | ErrAccountNotFound
  | ErrInvalidEntropy
  | ErrWalletLocked
  | ErrInvalidPassphrase
  | ErrInvalidSeed
  | ErrKeyDerivationFailed
  (** [fmt.Errorf("...: %w", err)] around an error of the runtime *)
  | ErrWrapped (msg : string)
  (** a run-time panic (index out of range) *)
  | Panic.

(** The library functions the package calls, and the word table of the
    repository's [bip39_wordlist] file. *)
Class Env := {
  (** [crypto/sha256.Sum256], also reached through [sha256.New], [Write]
      and [Sum(nil)] *)
  Sum256 : list Z → list Z;
  (** [elliptic.P256().ScalarBaseMult] *)
  ScalarBaseMult : list Z → Z * Z;
  (** the package variable [BIP39WordList] *)
  BIP39WordList : list string;
}.

(** [Address] is [[AddressLength]byte], [DerivationPath] is [[]uint32]. *)
Abbreviation Address := (list Z) (only parsing).
Abbreviation DerivationPath := (list Z) (only parsing).

(** An [ecdsa.PrivateKey] object on P-256: the embedded [PublicKey] [(X, Y)]
    and the secret scalar [D]. *)
Record PrivateKeyObj := {
  key_X : Z;
  key_Y : Z;
  key_D : Z;
}.

(** [Account]; [PrivateKey] and [PublicKey] are pointers ([None] is [nil]),
    the second into the object of the first. *)
Record Account := {
  Address_ : Address;
  Path : string;
  Index : Z;
  PrivateKey : option loc;
  PublicKey : option loc;
  CreatedAt : Z;
}.

(** The objects a wallet reaches through pointers: backing arrays of byte
    slices, [ecdsa.PrivateKey] objects and [Account] objects. *)
Record Heap := {
  slices : gmap loc (list Z);
  keys : gmap loc PrivateKeyObj;
  accts : gmap loc Account;
}.

Definition empty_heap : Heap := {| slices := ∅; keys := ∅; accts := ∅ |}.

Record SimpleWallet := {
  mnemonic : string;
  seed : option loc;
  masterKey : PrivateKeyObj;
  accounts : gmap Address loc;
  paths : gmap Address DerivationPath;
  isLocked : bool;
}.

Record WalletConfig := { Passphrase : string }.

Definition DefaultConfig : WalletConfig := {| Passphrase := EmptyString |}.

(** Contents of a slice value; a [nil] slice has no element. *)
Definition read_slice (h : Heap) (s : option loc) : list Z :=
  match s with
  | Some l => default [] (slices h !! l)
  | None => []
  end.

Section Code.
Context `{!Env}.

(** [bip39WordMap], as filled by [init]. *)
Definition bip39WordMap : gmap string nat :=
  fold_left (fun m iw => <[iw.2 := iw.1]> m) (imap pair BIP39WordList) ∅.

Definition validateMnemonic (mnemonic : string) : bool :=
  let words := Fields mnemonic in
  let wordCount := length words in
  if (negb (wordCount =? 12) && negb (wordCount =? 15) && negb (wordCount =? 18)
      && negb (wordCount =? 21) && negb (wordCount =? 24))%nat
  then false
  else forallb (fun word => bool_decide (is_Some (bip39WordMap !! word))) words.

Definition generateSeedFromMnemonic (mnemonic passphrase : string) : list Z :=
  let combined := mnemonic +:+ passphrase in
  let hash := Sum256 (bytes_of_string combined) in
  let seed := make_bytes SeedLength in
  let seed := copy seed hash in
  let hash2 := Sum256 hash in
  copy_at 32 seed hash2.

(** [newWallet]; [mk] is the outcome of
    [ecdsa.GenerateKey(elliptic.P256(), rand.Reader)]. The wallet keeps its
    own copy of the seed in a fresh backing array. *)
Definition newWallet (h : Heap) (mnemonic : string) (seed : list Z)
    (config : WalletConfig) (mk : option PrivateKeyObj)
    : Heap * result error SimpleWallet :=
  match mk with
  | None => (h, Err (ErrWrapped "failed to create master key"))
  | Some masterKey =>
      let l := fresh (dom (slices h)) in
      let buf := copy (make_bytes (length seed)) seed in
      ({| slices := <[l := buf]> (slices h); keys := keys h; accts := accts h |},
       Ok {| mnemonic := mnemonic; seed := Some l; masterKey := masterKey;
             accounts := ∅; paths := ∅; isLocked := false |})
  end.

(** [NewFromMnemonic]; a [nil] config is [None]. *)
Definition NewFromMnemonic (h : Heap) (mnemonic : string)
    (config : option WalletConfig) (mk : option PrivateKeyObj)
    : Heap * result error SimpleWallet :=
  let config := default DefaultConfig config in
  if negb (validateMnemonic mnemonic) then (h, Err ErrInvalidMnemonic)
  else
    let seed := generateSeedFromMnemonic mnemonic (Passphrase config) in
    if negb (length seed =? SeedLength)%nat then (h, Err ErrInvalidSeed)
    else newWallet h mnemonic seed config mk.

Definition NewFromSeed (h : Heap) (seed : list Z)
    (config : option WalletConfig) (mk : option PrivateKeyObj)
    : Heap * result error SimpleWallet :=
  let config := default DefaultConfig config in
  if negb (length seed =? SeedLength)%nat then (h, Err ErrInvalidSeed)
  else newWallet h EmptyString seed config mk.

(** The word count of the [switch] in [GenerateMnemonic]. *)
Definition wordCount_of (entropyBits : Z) : option nat :=
  match entropyBits with
  | 128 => Some 12%nat
  | 160 => Some 15%nat
  | 192 => Some 18%nat
  | 224 => Some 21%nat
  | 256 => Some 24%nat
  | _ => None
  end.

(** One turn of the word loop: [rd] is the outcome of [rand.Read] on the two
    byte buffer. *)
Definition pick_word (rd : option (Z * Z)) : result error string :=
  match rd with
  | None => Err (ErrWrapped "failed to generate random bytes")
  | Some (b0, b1) =>
      let randomValue := Z.lor (Z.shiftl b0 8 mod 65536) b1 in
      let wordIndex := randomValue mod 2048 in
      match BIP39WordList !! Z.to_nat wordIndex with
      | Some w => Ok w
      | None => Err Panic
      end
  end.

(** The loop [for i := 0; i < wordCount; i++]: [rnd i] is the outcome of the
    [i]-th call of [rand.Read]. *)
Fixpoint gen_words (rnd : nat → option (Z * Z)) (i : nat) (n : nat)
    : result error (list string) :=
  match n with
  | O => Ok []
  | S n' =>
      w ← pick_word (rnd i);
      ws ← gen_words rnd (S i) n';
      Ok (w :: ws)
  end.

Definition GenerateMnemonic (entropyBits : Z) (rnd : nat → option (Z * Z))
    : result error string :=
  if (entropyBits <? MinEntropyBits) || (entropyBits >? MaxEntropyBits)
     || negb (Z.rem entropyBits 32 =? 0)
  then Err ErrInvalidEntropy
  else
    match wordCount_of entropyBits with
    | None => Err ErrInvalidEntropy
    | Some wordCount =>
        words ← gen_words rnd 0 wordCount;
        Ok (Join words " ")
    end.

Definition NewMnemonic (entropyBits : Z) (rnd : nat → option (Z * Z))
    : result error string :=
  GenerateMnemonic entropyBits rnd.

(** [elliptic.Marshal(elliptic.P256(), X, Y)]: the uncompressed point
    format, [0x04] then both coordinates on 32 bytes. *)
Definition Marshal (X Y : Z) : list Z := 4 :: be_bytes 32 X ++ be_bytes 32 Y.

(** The four bytes [derivePrivateKey] writes for one path component. *)
Definition pathBytes (component : Z) : list Z :=
  [to_byte (Z.shiftr component 24); to_byte (Z.shiftr component 16);
   to_byte (Z.shiftr component 8); to_byte component].

(** The object [derivePrivateKey] fills in, from the bytes of the seed
    slice and the path. *)
Definition derived_key (seedBytes : list Z) (path : DerivationPath) : PrivateKeyObj :=
  let keyBytes := Sum256 (seedBytes ++ flat_map pathBytes path) in
  let XY := ScalarBaseMult keyBytes in
  {| key_X := XY.1; key_Y := XY.2; key_D := SetBytes keyBytes |}.

(** [derivePrivateKey]: hashes the seed and the path components and returns
    a pointer to a new [ecdsa.PrivateKey]; its error is always [nil]. *)
Definition derivePrivateKey (h : Heap) (w : SimpleWallet) (path : DerivationPath)
    : Heap * result error loc :=
  let privateKey := fresh (dom (keys h)) in
  ({| slices := slices h;
      keys := <[privateKey := derived_key (read_slice h (seed w)) path]> (keys h);
      accts := accts h |},
   Ok privateKey).

(** [pubkeyToAddress]: the last 20 bytes of the hash of the marshalled
    point without its prefix byte. *)
Definition pubkeyToAddress (X Y : Z) : Address :=
  let pubkeyBytes := Marshal X Y in
  let hash := Sum256 (drop 1 pubkeyBytes) in
  copy (make_bytes AddressLength) (drop 12 hash).

Definition formatDerivationPath (path : DerivationPath) : string :=
  if (length path =? 0)%nat then "m"
  else
    fold_left
      (fun result component =>
         if 0x80000000 <=? component
         then result +:+ "/" +:+ pretty (component - 0x80000000) +:+ "'"
         else result +:+ "/" +:+ pretty component)
      path "m".

(** [Derive(index)]; [now] is the value of [time.Now()]. The result is the
    pointer to the new [Account], which the wallet also stores. *)
Definition Derive (h : Heap) (w : SimpleWallet) (index : Z) (now : Z)
    : Heap * SimpleWallet * result error loc :=
  if isLocked w then (h, w, Err ErrWalletLocked)
  else
    let path := [0x8000002C; 0x8000003C; 0x80000000; 0; index] in
    match derivePrivateKey h w path with
    | (h1, Err _) => (h1, w, Err (ErrWrapped "key derivation failed"))
    | (h1, Ok privateKey) =>
        let publicKey := privateKey in
        let pk := default {| key_X := 0; key_Y := 0; key_D := 0 |} (keys h1 !! privateKey) in
        let address := pubkeyToAddress (key_X pk) (key_Y pk) in
        let account := fresh (dom (accts h1)) in
        ({| slices := slices h1;
            keys := keys h1;
            accts := <[account := {| Address_ := address;
                                     Path := formatDerivationPath path;
                                     Index := index;
                                     PrivateKey := Some privateKey;
                                     PublicKey := Some publicKey;
                                     CreatedAt := now |}]> (accts h1) |},
         {| mnemonic := mnemonic w; seed := seed w; masterKey := masterKey w;
            accounts := <[address := account]> (accounts w);
            paths := <[address := path]> (paths w);
            isLocked := isLocked w |},
         Ok account)
    end.

(** [Accounts]: the stored pointers, in the order of the map iteration. *)
Definition Accounts (w : SimpleWallet) : list loc := (map_to_list (accounts w)).*2.

Definition Status (w : SimpleWallet) : string :=
  if isLocked w then "Locked" else "Unlocked".

Definition GetMnemonic (w : SimpleWallet) : result error string :=
  if isLocked w then Err ErrWalletLocked else Ok (mnemonic w).

(** [secureClear]: every byte of the slice is overwritten by zero. *)
Definition secureClear (data : list Z) : list Z := map (fun _ => 0) data.

(** [secureClearPrivateKey] on a non-nil key: [key.D.SetInt64(0)]. *)
Definition secureClearPrivateKey (key : PrivateKeyObj) : PrivateKeyObj :=
  {| key_X := key_X key; key_Y := key_Y key; key_D := 0 |}.

(** The body of the loop of [cleanup] for one stored account pointer. *)
Definition clear_account (h : Heap) (a : loc) : Heap :=
  match accts h !! a with
  | None => h
  | Some account =>
      match PrivateKey account with
      | None => h
      | Some k =>
          {| slices := slices h;
             keys := alter secureClearPrivateKey k (keys h);
             accts := <[a := {| Address_ := Address_ account; Path := Path account;
                                Index := Index account; PrivateKey := None;
                                PublicKey := PublicKey account;
                                CreatedAt := CreatedAt account |}]> (accts h) |}
      end
  end.

(** [cleanup]: clears and drops the seed slice, then visits the stored
    accounts (in the order of the map iteration). *)
Definition cleanup (h : Heap) (w : SimpleWallet) : Heap * SimpleWallet :=
  let hw :=
    match seed w with
    | Some l =>
        ({| slices := alter secureClear l (slices h); keys := keys h; accts := accts h |},
         {| mnemonic := mnemonic w; seed := None; masterKey := masterKey w;
            accounts := accounts w; paths := paths w; isLocked := isLocked w |})
    | None => (h, w)
    end in
  (foldl clear_account hw.1 (Accounts hw.2), hw.2).

(** [Close]: runs [cleanup] and returns a [nil] error. *)
Definition Close (h : Heap) (w : SimpleWallet) : Heap * SimpleWallet * option error :=
  (cleanup h w, None).

(** [ParseDerivationPath]: every string but the root gives the base path. *)
Definition ParseDerivationPath (path : string) : result error DerivationPath :=
  if bool_decide (path = "m"%string) || bool_decide (path = EmptyString) then Ok []
  else Ok [0x8000002C; 0x8000003C; 0x80000000; 0; 0].

(** [StrictParseDerivationPath]: panics on an error of
    [ParseDerivationPath]. *)
Definition StrictParseDerivationPath (path : string) : result error DerivationPath :=
  match ParseDerivationPath path with
  | Ok parsed => Ok parsed
  | Err _ => Err Panic
  end.

Definition DefaultRootDerivationPath : DerivationPath :=
  [0x8000002C; 0x8000003C; 0x80000000; 0].

Definition DefaultBaseDerivationPath : DerivationPath :=
  [0x8000002C; 0x8000003C; 0x80000000; 0; 0].

(** [Address.Hex]; [Address.String] returns the same string. *)
Definition Hex (a : Address) : string := "0x" +:+ EncodeToString a.

(** [GetPrivateKeyHex]: the account is looked up before the lock flag is
    read; [account.PrivateKey.D] through a [nil] pointer is a run-time
    panic. *)
Definition GetPrivateKeyHex (h : Heap) (w : SimpleWallet) (address : Address)
    : result error string :=
  match accounts w !! address with
  | None => Err ErrAccountNotFound
  | Some a =>
      if isLocked w then Err ErrWalletLocked
      else
        match accts h !! a with
        | None => Err Panic
        | Some account =>
            match PrivateKey account with
            | None => Err Panic
            | Some k =>
                match keys h !! k with
                | None => Err Panic
                | Some key =>
                    let privateKeyBytes := big_Bytes (key_D key) in
                    Ok (EncodeToString privateKeyBytes)
                end
            end
        end
  end.

(** [GetPublicKeyHex]: the marshalled point without its first byte; the
    lock flag is not read. *)
Definition GetPublicKeyHex (h : Heap) (w : SimpleWallet) (address : Address)
    : result error string :=
  match accounts w !! address with
  | None => Err ErrAccountNotFound
  | Some a =>
      match accts h !! a with
      | None => Err Panic
      | Some account =>
          match PublicKey account with
          | None => Err Panic
          | Some k =>
              match keys h !! k with
              | None => Err Panic
              | Some key =>
                  let publicKeyBytes := Marshal (key_X key) (key_Y key) in
                  Ok (EncodeToString (drop 1 publicKeyBytes))
              end
          end
      end
  end.

End Code.
End wallet.

(** * Package [hdwallet]: [hdwallet.go] *)

Module hdwallet.

Inductive error : Type :=
  (** ["Mnemonic string is empty, require one."] and
      ["Mnemonic is empty, require one."] *)
  | ErrMnemonicEmpty
  (** ["Mnemonic string is invalid."] *)
  | ErrMnemonicInvalid
  (** ["Seed is empty, require one."] *)
  | ErrSeedEmpty
  (** ["Account not found."] *)
  | ErrAccountNotFound
  (** [accounts.ErrUnknownAccount] *)
  | ErrUnknownAccount
  (** [fmt.Errorf("Wrong sender: want %s, got %s", ...)] *)
  | ErrWrongSender (want got : string)
  (** ["Failed to obtain an ECDSA public key."] *)
  | ErrNotECDSA
  (** an error returned by a library and passed on unchanged *)
  | ErrLib (msg : string)
  (** a run-time panic (index out of range) *)
  | Panic.

(** The types and functions of btcsuite, go-ethereum and go-bip39 that the
    package calls. *)
Class Env := {
  (** [common.Address] and its [String] method *)
  Address : Type;
  Address_eq_dec :: EqDecision Address;
  Address_countable :: Countable Address;
  Address_String : Address → string;
  (** [*hdkeychain.ExtendedKey], [hdkeychain.NewMaster] on the main net
      parameters, [Child], and [ECPrivKey] followed by [ToECDSA] (the
      scalar [D] of the key) *)
  ExtendedKey : Type;
  NewMaster : list Z → result error ExtendedKey;
  Child : ExtendedKey → Z → result error ExtendedKey;
  ECPrivKey : ExtendedKey → result error Z;
  (** [privateKey.Public()] and [crypto.PubkeyToAddress] *)
  Public : Z → Z * Z;
  PubkeyToAddress : Z * Z → Address;
  (** [crypto.Sign] *)
  Sign : list Z → Z → result error (list Z);
  (** [*types.Transaction], [types.SignTx] with the Homestead signer, and
      [AsMessage] with the Homestead signer followed by [From] *)
  Transaction : Type;
  types_SignTx : Transaction → Z → result error Transaction;
  AsMessage_From : Transaction → result error Address;
  (** [accounts.ParseDerivationPath] and [DerivationPath.String] *)
  accounts_ParseDerivationPath : string → result error (list Z);
  DerivationPath_String : list Z → string;
  (** [bip39.IsMnemonicValid] and [bip39.NewSeedWithErrorChecking] *)
  IsMnemonicValid : string → bool;
  NewSeedWithErrorChecking : string → string → result error (list Z);
}.

Abbreviation DerivationPath := (list Z) (only parsing).

Section Code.
Context `{!Env}.

(** [accounts.URL] and [accounts.Account]. *)
Record URL := { Scheme : string; Path_ : string }.

Record Account := { Address_ : Address; URL_ : URL }.

Record Wallet := {
  mnemonic : string;
  masterKey : ExtendedKey;
  seed : list Z;
  url : URL;
  paths : gmap Address DerivationPath;
  accounts : list Account;
}.

Definition set_registry (w : Wallet) (accts : list Account)
    (ps : gmap Address DerivationPath) : Wallet :=
  {| mnemonic := mnemonic w; masterKey := masterKey w; seed := seed w;
     url := url w; paths := ps; accounts := accts |}.

Definition newWallet (seed : list Z) : result error Wallet :=
  masterKey ← NewMaster seed;
  Ok {| mnemonic := EmptyString; masterKey := masterKey; seed := seed;
        url := {| Scheme := EmptyString; Path_ := EmptyString |};
        paths := ∅; accounts := [] |}.

Definition NewSeedFromMnemonic (mnemonic : string) : result error (list Z) :=
  if bool_decide (mnemonic = EmptyString) then Err ErrMnemonicEmpty
  else NewSeedWithErrorChecking mnemonic EmptyString.

Definition NewFromMnemonic (mnemonic : string) : result error Wallet :=
  if bool_decide (mnemonic = EmptyString) then Err ErrMnemonicEmpty
  else if negb (IsMnemonicValid mnemonic) then Err ErrMnemonicInvalid
  else
    sd ← NewSeedFromMnemonic mnemonic;
    wallet ← newWallet sd;
    Ok {| mnemonic := mnemonic; masterKey := masterKey wallet; seed := seed wallet;
          url := url wallet; paths := paths wallet; accounts := accounts wallet |}.

Definition NewFromSeed (seed : list Z) : result error Wallet :=
  if (length seed =? 0)%nat then Err ErrSeedEmpty else newWallet seed.

Definition Status (w : Wallet) : result error string := Ok "ok"%string.

Definition Open (w : Wallet) (passphrase : string) : Wallet * option error := (w, None).

(** [Close]: returns [nil]; no field of the wallet is touched. *)
Definition Close (w : Wallet) : Wallet * option error := (w, None).

Definition Accounts (w : Wallet) : list Account := accounts w.

Definition Contains (w : Wallet) (account : Account) : bool :=
  bool_decide (is_Some (paths w !! Address_ account)).

(** The index at which the loop of [Unpin] stops: the first account whose
    address prints like the one of [account]. *)
Fixpoint unpin_index (accts : list Account) (account : Account) : option nat :=
  match accts with
  | [] => None
  | acct :: rest =>
      if bool_decide (Address_String (Address_ acct) = Address_String (Address_ account))
      then Some O
      else S <$> unpin_index rest account
  end.

Definition Unpin (w : Wallet) (account : Account) : Wallet * option error :=
  match unpin_index (accounts w) account with
  | Some i =>
      (set_registry w (take i (accounts w) ++ drop (S i) (accounts w))
                      (delete (Address_ account) (paths w)),
       None)
  | None => (w, Some ErrAccountNotFound)
  end.

(** [derivePrivateKey]: walks the path from the master key. *)
Definition derivePrivateKey (w : Wallet) (path : DerivationPath) : result error Z :=
  key ← fold_left (fun key n => k ← key; Child k n) path (Ok (masterKey w));
  ECPrivKey key.

Definition derivePublicKey (w : Wallet) (path : DerivationPath) : result error (Z * Z) :=
  privateKeyECDSA ← derivePrivateKey w path;
  Ok (Public privateKeyECDSA).

Definition deriveAddress (w : Wallet) (path : DerivationPath) : result error Address :=
  publicKeyECDSA ← derivePublicKey w path;
  Ok (PubkeyToAddress publicKeyECDSA).

Definition Derive (w : Wallet) (path : DerivationPath) (pin : bool)
    : Wallet * result error Account :=
  match deriveAddress w path with
  | Err err => (w, Err err)
  | Ok address =>
      let account := {| Address_ := address;
                        URL_ := {| Scheme := EmptyString;
                                   Path_ := DerivationPath_String path |} |} in
      if negb pin then (w, Ok account)
      else
        match paths w !! address with
        | Some _ => (w, Ok account)
        | None =>
            (set_registry w (accounts w ++ [account]) (<[address := path]> (paths w)),
             Ok account)
        end
  end.

Definition SignHash (w : Wallet) (account : Account) (hash : list Z)
    : result error (list Z) :=
  match paths w !! Address_ account with
  | None => Err ErrUnknownAccount
  | Some path =>
      privateKey ← derivePrivateKey w path;
      Sign hash privateKey
  end.

(** [SignTx]; the chain id is not used. *)
Definition SignTx (w : Wallet) (account : Account) (tx : Transaction) (chainID : option Z)
    : result error Transaction :=
  match paths w !! Address_ account with
  | None => Err ErrUnknownAccount
  | Some path =>
      privateKey ← derivePrivateKey w path;
      signedTx ← types_SignTx tx privateKey;
      sender ← AsMessage_From signedTx;
      if bool_decide (sender ≠ Address_ account)
      then Err (ErrWrongSender (Address_String (Address_ account)) (Address_String sender))
      else Ok signedTx
  end.

Definition SignHashWithPassphrase (w : Wallet) (account : Account)
    (passphrase : string) (hash : list Z) : result error (list Z) :=
  SignHash w account hash.

Definition SignTxWithPassphrase (w : Wallet) (account : Account)
    (passphrase : string) (tx : Transaction) (chainID : option Z)
    : result error Transaction :=
  SignTx w account tx chainID.

Definition PrivateKey (w : Wallet) (account : Account) : result error Z :=
  path ← accounts_ParseDerivationPath (Path_ (URL_ account));
  derivePrivateKey w path.

(** [big.Int.BitLen] and [big.Int.Bytes] of a non-negative integer. *)
Definition BitLen (x : Z) : Z := if x <=? 0 then 0 else Z.log2 x + 1.

Definition Bytes (x : Z) : list Z := be_bytes (Z.to_nat ((BitLen x + 7) / 8)) x.

(** [math.PaddedBigBytes]. *)
Definition PaddedBigBytes (bigint : Z) (n : Z) : list Z :=
  if n <=? BitLen bigint / 8 then Bytes bigint
  else be_bytes (Z.to_nat n) bigint.

(** [crypto.FromECDSA] for a secp256k1 key. *)
Definition FromECDSA (D : Z) : list Z := PaddedBigBytes D 32.

Definition PrivateKeyBytes (w : Wallet) (account : Account) : result error (list Z) :=
  privateKey ← PrivateKey w account;
  Ok (FromECDSA privateKey).

(** [hexutil.Encode]. *)
Definition hexutil_Encode (b : list Z) : string := "0x" +:+ EncodeToString b.

Definition PrivateKeyHex (w : Wallet) (account : Account) : result error string :=
  privateKeyBytes ← PrivateKeyBytes w account;
  let privateKeyHex := hexutil_Encode privateKeyBytes in
  let privateKeyHex := drop_string 2 privateKeyHex in
  match String.get 2 privateKeyHex with
  | None => Err Panic
  | Some c2 =>
      if bool_decide (c2 = "0"%char) then
        match String.get 3 privateKeyHex with
        | None => Err Panic
        | Some c3 =>
            if bool_decide (c3 = "0"%char) then Ok (drop_string 2 privateKeyHex)
            else Ok privateKeyHex
        end
      else Ok privateKeyHex
  end.

Definition PublicKey (w : Wallet) (account : Account) : result error (Z * Z) :=
  path ← accounts_ParseDerivationPath (Path_ (URL_ account));
  derivePublicKey w path.

Definition Address_of (w : Wallet) (account : Account) : result error Address :=
  publicKey ← PublicKey w account;
  Ok (PubkeyToAddress publicKey).

Definition Path (w : Wallet) (account : Account) : result error string :=
  Ok (Path_ (URL_ account)).

Definition removeAtIndex (accts : list Account) (index : nat) : list Account :=
  take index accts ++ drop (S index) accts.

(** [crypto.FromECDSAPub] for a point of secp256k1:
    [elliptic.Marshal(S256(), pub.X, pub.Y)], the byte [0x04] and both
    coordinates on 32 bytes. *)
Definition FromECDSAPub (pub : Z * Z) : list Z :=
  4 :: be_bytes 32 pub.1 ++ be_bytes 32 pub.2.

Definition PublicKeyBytes (w : Wallet) (account : Account) : result error (list Z) :=
  publicKey ← PublicKey w account;
  Ok (FromECDSAPub publicKey).

(** [PublicKeyHex]: [hexutil.Encode(publicKeyBytes)[4:]]. *)
Definition PublicKeyHex (w : Wallet) (account : Account) : result error string :=
  publicKeyBytes ← PublicKeyBytes w account;
  Ok (drop_string 4 (hexutil_Encode publicKeyBytes)).

Definition ParseDerivationPath (path : string) : result error DerivationPath :=
  accounts_ParseDerivationPath path.

(** [StrictParseDerivationPath]: panics on an error of the parser. *)
Definition StrictParseDerivationPath (path : string) : result error DerivationPath :=
  match accounts_ParseDerivationPath path with
  | Ok parsed => Ok parsed
  | Err _ => Err Panic
  end.

End Code.
End hdwallet.

(** * The command line tool [skms]

    The two commands of the tool's [main] package, which call the package
    [wallet]. What a command prints is modelled by the values it prints,
    without the fixed text around them. *)

Module skms.

(** The parsers of [strconv] the commands call; [None] is a parse error. *)
Class Env := {
  (** [strconv.Atoi] *)
  Atoi : string → option Z;
  (** [strconv.ParseUint(s, 10, 32)] *)
  ParseUint : string → option Z;
}.

(** The values [deriveAccount] prints: account index, derivation path,
    Ethereum address, private key and public key. *)
Record Report := {
  AccountIndex : Z;
  DerivationPath_ : string;
  EthereumAddress : string;
  PrivateKey_ : string;
  PublicKey_ : string;
}.

Section Code.
Context `{!wallet.Env} `{!Env}.
Import wallet.

(** [generateMnemonic]: the phrase it prints; [rnd] is the random source
    of [wallet.GenerateMnemonic]. *)
Definition generateMnemonic (args : list string) (rnd : nat → option (Z * Z))
    : result error string :=
  let generate entropyBits :=
    match GenerateMnemonic entropyBits rnd with
    | Ok mnemonic => Ok mnemonic
    | Err Panic => Err Panic
    | Err _ => Err (ErrWrapped "failed to generate mnemonic")
    end in
  match args with
  | [] => generate 128
  | arg :: _ =>
      match Atoi arg with
      | None => Err (ErrWrapped "invalid entropy bits")
      | Some bits =>
          if negb (bits =? 128) && negb (bits =? 160) && negb (bits =? 192)
             && negb (bits =? 224) && negb (bits =? 256)
          then Err (ErrWrapped "entropy bits must be 128, 160, 192, 224, or 256")
          else generate bits
      end
  end.

(** [uint32(index)]. *)
Definition to_uint32 (index : Z) : Z := index mod 2 ^ 32.

(** [deriveAccount]; [mk] and [now] are as in [wallet.NewFromMnemonic] and
    [wallet.Derive]. Once the wallet exists, the deferred [w.Close()] runs
    on every way out. *)
Definition deriveAccount (h : Heap) (args : list string) (mk : option PrivateKeyObj)
    (now : Z) : Heap * result error Report :=
  match args with
  | mnemonic :: indexStr :: _ =>
      match ParseUint indexStr with
      | None => (h, Err (ErrWrapped "invalid account index"))
      | Some index =>
          let config := DefaultConfig in
          match NewFromMnemonic h mnemonic (Some config) mk with
          | (h, Err _) => (h, Err (ErrWrapped "failed to create wallet"))
          | (h, Ok w) =>
              match Derive h w (to_uint32 index) now with
              | (h, w, Err _) =>
                  ((Close h w).1.1, Err (ErrWrapped "failed to derive account"))
              | (h, w, Ok a) =>
                  match accts h !! a with
                  | None => ((Close h w).1.1, Err Panic)
                  | Some account =>
                      match GetPrivateKeyHex h w (Address_ account) with
                      | Err Panic => ((Close h w).1.1, Err Panic)
                      | Err _ =>
                          ((Close h w).1.1, Err (ErrWrapped "failed to get private key"))
                      | Ok privateKeyHex =>
                          match GetPublicKeyHex h w (Address_ account) with
                          | Err Panic => ((Close h w).1.1, Err Panic)
                          | Err _ =>
                              ((Close h w).1.1,
                               Err (ErrWrapped "failed to get public key"))
                          | Ok publicKeyHex =>
                              ((Close h w).1.1,
                               Ok {| AccountIndex := Index account;
                                     DerivationPath_ := Path account;
                                     EthereumAddress := Hex (Address_ account);
                                     PrivateKey_ := "0x" +:+ privateKeyHex;
                                     PublicKey_ := "0x" +:+ publicKeyHex |})
                          end
                      end
                  end
              end
          end
      end
  | _ => (h, Err (ErrWrapped "derive command requires mnemonic phrase and account index"))
  end.

End Code.
End skms.

(** * Goroutines on one [hdwallet.Wallet]

    [Unpin] and [Derive] with [pin = true], one step per statement, under
    the wallet's [stateLock]. *)

Module interleave.
Section Model.
Context `{!hdwallet.Env}.
Import hdwallet.

(** [sync.RWMutex]: how many goroutines hold the read lock, and whether one
    holds the write lock. *)
Record RWMutex := { readers : nat; writer : bool }.

(** [RLock] and [Lock] give [None] while the caller has to wait. *)
Definition RLock (m : RWMutex) : option RWMutex :=
  if writer m then None
  else Some {| readers := S (readers m); writer := false |}.

Definition RUnlock (m : RWMutex) : RWMutex :=
  {| readers := pred (readers m); writer := writer m |}.

Definition Lock (m : RWMutex) : option RWMutex :=
  if writer m || negb (readers m =? 0)%nat then None
  else Some {| readers := 0%nat; writer := true |}.

Definition Unlock (m : RWMutex) : RWMutex :=
  {| readers := readers m; writer := false |}.

(** Where a goroutine stands: before which statement of [Unpin] or of
    [Derive], with its local variables. *)
Inductive Goroutine : Type :=
  (** before [w.stateLock.RLock()] of [Unpin] *)
  | Unpin_enter (account : Account)
  (** before the [range] loop *)
  | Unpin_scan (account : Account)
  (** inside the loop at the matching index [i], before
      [w.accounts = append(w.accounts[:i], w.accounts[i+1:]...)] *)
  | Unpin_remove (account : Account) (i : nat)
  (** before [delete(w.paths, account.Address)] *)
  | Unpin_delete (account : Account)
  (** before the deferred [RUnlock] *)
  | Unpin_exit (err : option error)
  (** before [w.stateLock.RLock()] of [Derive] *)
  | Derive_enter (path : DerivationPath)
  (** before [w.deriveAddress(path)] *)
  | Derive_address (path : DerivationPath)
  (** before [w.stateLock.RUnlock()] *)
  | Derive_runlock (path : DerivationPath) (r : result error Address)
  (** before [w.stateLock.Lock()] *)
  | Derive_lock (path : DerivationPath) (address : Address)
  (** before [_, ok := w.paths[address]] *)
  | Derive_lookup (path : DerivationPath) (address : Address)
  (** before [w.accounts = append(w.accounts, account)] *)
  | Derive_append (path : DerivationPath) (address : Address)
  (** before [w.paths[address] = path] *)
  | Derive_index (path : DerivationPath) (address : Address)
  (** before the deferred [Unlock] *)
  | Derive_exit (account : Account)
  (** returned, with the error and the account if any *)
  | Returned (err : option error) (account : option Account)
  (** stopped by a run-time panic *)
  | Crashed.

Record Shared := { wallet : Wallet; mutex : RWMutex }.

Definition account_of (path : DerivationPath) (address : Address) : Account :=
  {| Address_ := address;
     URL_ := {| Scheme := EmptyString; Path_ := DerivationPath_String path |} |}.

(** One statement of one goroutine; [None] when it waits for the lock or
    has finished. *)
Definition step (g : Goroutine) (s : Shared) : option (Goroutine * Shared) :=
  let w := wallet s in
  match g with
  | Unpin_enter account =>
      m ← RLock (mutex s); Some (Unpin_scan account, {| wallet := w; mutex := m |})
  | Unpin_scan account =>
      match unpin_index (accounts w) account with
      | Some i => Some (Unpin_remove account i, s)
      | None => Some (Unpin_exit (Some ErrAccountNotFound), s)
      end
  | Unpin_remove account i =>
      if (S i <=? length (accounts w))%nat then
        Some (Unpin_delete account,
              {| wallet := set_registry w (take i (accounts w) ++ drop (S i) (accounts w))
                                          (paths w);
                 mutex := mutex s |})
      else Some (Crashed, {| wallet := w; mutex := RUnlock (mutex s) |})
  | Unpin_delete account =>
      Some (Unpin_exit None,
            {| wallet := set_registry w (accounts w) (delete (Address_ account) (paths w));
               mutex := mutex s |})
  | Unpin_exit err =>
      Some (Returned err None, {| wallet := w; mutex := RUnlock (mutex s) |})
  | Derive_enter path =>
      m ← RLock (mutex s); Some (Derive_address path, {| wallet := w; mutex := m |})
  | Derive_address path => Some (Derive_runlock path (deriveAddress w path), s)
  | Derive_runlock path r =>
      let s' := {| wallet := w; mutex := RUnlock (mutex s) |} in
      match r with
      | Err err => Some (Returned (Some err) None, s')
      | Ok address => Some (Derive_lock path address, s')
      end
  | Derive_lock path address =>
      m ← Lock (mutex s); Some (Derive_lookup path address, {| wallet := w; mutex := m |})
  | Derive_lookup path address =>
      match paths w !! address with
      | Some _ => Some (Derive_exit (account_of path address), s)
      | None => Some (Derive_append path address, s)
      end
  | Derive_append path address =>
      Some (Derive_index path address,
            {| wallet := set_registry w (accounts w ++ [account_of path address]) (paths w);
               mutex := mutex s |})
  | Derive_index path address =>
      Some (Derive_exit (account_of path address),
            {| wallet := set_registry w (accounts w) (<[address := path]> (paths w));
               mutex := mutex s |})
  | Derive_exit account =>
      Some (Returned None (Some account), {| wallet := w; mutex := Unlock (mutex s) |})
  | Returned _ _ => None
  | Crashed => None
  end.

Record Config := { goroutines : list Goroutine; shared : Shared }.

(** The goroutine [tid] runs its next statement. *)
Definition run1 (c : Config) (tid : nat) : option Config :=
  g ← goroutines c !! tid;
  gs ← step g (shared c);
  Some {| goroutines := <[tid := gs.1]> (goroutines c); shared := gs.2 |}.

(** A schedule: which goroutine runs at each turn. *)
Fixpoint run (schedule : list nat) (c : Config) : option Config :=
  match schedule with
  | [] => Some c
  | tid :: rest => c' ← run1 c tid; run rest c'
  end.

Definition start (w : Wallet) (gs : list Goroutine) : Config :=
  {| goroutines := gs;
     shared := {| wallet := w; mutex := {| readers := 0%nat; writer := false |} |} |}.

(** The goroutine has returned, with no error. *)
Definition returned_nil (g : Goroutine) : bool :=
  match g with
  | Returned None _ => true
  | _ => false
  end.

(** The goroutine is between taking and releasing the read lock in [Unpin]. *)
Definition in_Unpin (g : Goroutine) : bool :=
  match g with
  | Unpin_scan _ | Unpin_remove _ _ | Unpin_delete _ | Unpin_exit _ => true
  | _ => false
  end.

(** The wallet a schedule ends in. *)
Definition wallet_after (schedule : list nat) (c : Config)
    : option Wallet :=
  (fun c' => wallet (shared c')) <$> run schedule c.

End Model.
End interleave.

(** * A small instance of the library functions

    Stand-ins with the signatures of the library calls, on which the model
    can be run: a folding digest in place of SHA-256, an affine map in place
    of the curve, a three-letter dictionary of 2048 words, integers in place
    of extended keys, addresses and transactions. *)

Module example.

Definition digest (m : list Z) : list Z :=
  be_bytes 32 (fold_left (fun acc x => (acc * 257 + x + 1) mod 2 ^ 256) m 7).

Definition letter (i : nat) : ascii := ascii_of_nat (97 + i mod 26).

Definition word (i : nat) : string :=
  String (letter (i / 676)) (String (letter (i / 26)) (String (letter i) EmptyString)).

Definition words : list string := word <$> seq 0 2048.

Definition wallet_env : wallet.Env :=
  {| wallet.Sum256 := digest;
     wallet.ScalarBaseMult := fun k => (2 * SetBytes k + 1, 3 * SetBytes k + 2);
     wallet.BIP39WordList := words |}.

(** A source of random bytes that never fails. *)
Definition rnd (i : nat) : option (Z * Z) :=
  Some ((37 * Z.of_nat i + 11) mod 256, (101 * Z.of_nat i + 7) mod 256).

(** A path string of decimal digits, one component per digit; ["m"] is the
    empty path. *)
Definition parse_path (s : string) : result hdwallet.error (list Z) :=
  if bool_decide (s = EmptyString) then Err (hdwallet.ErrLib "empty derivation path")
  else if bool_decide (s = "m") then Ok []
  else Ok ((fun c => Z.of_N (N_of_ascii c) - 48) <$> list_ascii_of_string s).

Definition print_path (p : list Z) : string :=
  match p with
  | [] => "m"
  | _ => string_of_list_ascii ((fun n => ascii_of_N (Z.to_N (n + 48))) <$> p)
  end.

Definition address_of_key (D : Z) : Z := (5 * D + 3) mod 2 ^ 160.

Definition hd_env : hdwallet.Env :=
  {| hdwallet.Address := Z;
     hdwallet.Address_String := pretty;
     hdwallet.ExtendedKey := Z;
     hdwallet.NewMaster := fun sd =>
       if (16 <=? length sd)%nat && (length sd <=? 64)%nat
       then Ok (SetBytes sd mod 2 ^ 256)
       else Err (hdwallet.ErrLib "seed length must be between 128 and 512 bits");
     hdwallet.Child := fun k n =>
       if (k + n) mod 251 =? 0
       then Err (hdwallet.ErrLib "the extended key at this index is invalid")
       else Ok ((31 * k + n + 1) mod 2 ^ 256);
     hdwallet.ECPrivKey := fun k => Ok k;
     hdwallet.Public := fun D => (D, 0);
     hdwallet.PubkeyToAddress := fun XY => address_of_key XY.1;
     hdwallet.Sign := fun hash D =>
       if (length hash =? 32)%nat then Ok (be_bytes 32 D ++ hash ++ [0])
       else Err (hdwallet.ErrLib "hash is required to be exactly 32 bytes");
     hdwallet.Transaction := Z * option Z;
     hdwallet.types_SignTx := fun tx D => Ok (tx.1, Some D);
     hdwallet.AsMessage_From := fun tx =>
       match tx.2 with
       | Some D => Ok (address_of_key D)
       | None => Err (hdwallet.ErrLib "invalid transaction v, r, s values")
       end;
     hdwallet.accounts_ParseDerivationPath := parse_path;
     hdwallet.DerivationPath_String := print_path;
     hdwallet.IsMnemonicValid := fun m => (String.length m <=? 1000)%nat;
     hdwallet.NewSeedWithErrorChecking := fun m p =>
       Ok (digest (bytes_of_string m) ++ digest (bytes_of_string p)) |}.

(** A wallet of the example instance with master key [mk] and the given
    registry. *)
Definition hd_wallet (mk : Z) (accts : list (@hdwallet.Account hd_env))
    (ps : gmap Z (list Z)) : @hdwallet.Wallet hd_env :=
  {| hdwallet.mnemonic := EmptyString; hdwallet.masterKey := mk : @hdwallet.ExtendedKey hd_env;
     hdwallet.seed := [1; 2; 3; 4; 5; 6; 7; 8; 9; 10; 11; 12; 13; 14; 15; 16];
     hdwallet.url := {| hdwallet.Scheme := EmptyString; hdwallet.Path_ := EmptyString |};
     hdwallet.paths := ps : gmap (@hdwallet.Address hd_env) (list Z);
     hdwallet.accounts := accts |}.

Definition hd_account (a : Z) (p : string) : @hdwallet.Account hd_env :=
  {| hdwallet.Address_ := a : @hdwallet.Address hd_env;
     hdwallet.URL_ := {| hdwallet.Scheme := EmptyString; hdwallet.Path_ := p |} |}.

(** Three paths pinned one after the other on the wallet of master key 5. *)
Definition pinned3 : @hdwallet.Wallet hd_env :=
  foldl (fun w p => (@hdwallet.Derive hd_env w p true).1) (hd_wallet 5 [] ∅) [[1]; [2]; [3]].

(** A valid phrase of twelve words of the example dictionary. *)
Definition phrase : string := "aaa aab aac aad aae aaf aag aah aai aaj aak aal".

Definition keyA : wallet.PrivateKeyObj :=
  {| wallet.key_X := 11; wallet.key_Y := 12; wallet.key_D := 13 |}.

Definition keyB : wallet.PrivateKeyObj :=
  {| wallet.key_X := 21; wallet.key_Y := 22; wallet.key_D := 23 |}.

(** The heap and the wallet [NewFromMnemonic] builds from [phrase] on the
    empty heap, with the master key [k]. *)
Definition heap0 : wallet.Heap :=
  {| wallet.slices :=
       {[ 1%positive := @wallet.generateSeedFromMnemonic wallet_env phrase EmptyString ]};
     wallet.keys := ∅;
     wallet.accts := ∅ |}.

Definition simple_wallet (k : wallet.PrivateKeyObj) : wallet.SimpleWallet :=
  {| wallet.mnemonic := phrase; wallet.seed := Some 1%positive; wallet.masterKey := k;
     wallet.accounts := ∅; wallet.paths := ∅; wallet.isLocked := false |}.

(** A wallet with a five-byte seed slice and one stored account. *)
Definition account1 : wallet.Account :=
  {| wallet.Address_ := [9; 9]; wallet.Path := "m/44'/60'/0'/0/0"; wallet.Index := 0;
     wallet.PrivateKey := Some 1%positive; wallet.PublicKey := Some 1%positive;
     wallet.CreatedAt := 1000 |}.

Definition heap1 : wallet.Heap :=
  {| wallet.slices := {[ 1%positive := [3; 1; 4; 1; 5] ]};
     wallet.keys := {[ 1%positive := {| wallet.key_X := 5; wallet.key_Y := 6;
                                        wallet.key_D := 77 |} ]};
     wallet.accts := {[ 1%positive := account1 ]} |}.

Definition wallet1 : wallet.SimpleWallet :=
  {| wallet.mnemonic := EmptyString; wallet.seed := Some 1%positive; wallet.masterKey := keyA;
     wallet.accounts := {[ [9; 9] := 1%positive ]};
     wallet.paths := {[ [9; 9] := [0x8000002C; 0x8000003C; 0x80000000; 0; 0] ]};
     wallet.isLocked := false |}.

(** Decimal numerals, for the parsers of [strconv]. *)
Fixpoint decimal (acc : Z) (s : string) : option Z :=
  match s with
  | EmptyString => Some acc
  | String c rest =>
      let d := Z.of_N (N_of_ascii c) - 48 in
      if (0 <=? d) && (d <=? 9) then decimal (acc * 10 + d) rest else None
  end.

Definition parse_decimal (s : string) : option Z :=
  match s with
  | EmptyString => None
  | _ => decimal 0 s
  end.

Definition skms_env : skms.Env :=
  {| skms.Atoi := parse_decimal;
     skms.ParseUint := fun s =>
       match parse_decimal s with
       | Some n => if n <? 2 ^ 32 then Some n else None
       | None => None
       end |}.

End example.

(** * Vocabulary of the statements *)

Section SimpleWalletVocabulary.
Context `{!wallet.Env}.
Import wallet.

(** What a caller sees of the account [Derive] returns: its address and the
    key object behind its [PrivateKey] pointer (the public key is the
    [(X, Y)] part of that object). *)
Definition derive_view (h : Heap) (w : SimpleWallet) (index now : Z)
    : option (Address * PrivateKeyObj) :=
  match Derive h w index now with
  | (h', _, Ok a) =>
      account ← accts h' !! a;
      k ← PrivateKey account;
      key ← keys h' !! k;
      Some (Address_ account, key)
  | (_, _, Err _) => None
  end.

Definition base_path (index : Z) : DerivationPath :=
  [0x8000002C; 0x8000003C; 0x80000000; 0; index].

(** The account object at [a], if any, has a [nil] private key pointer. *)
Definition niled (h : Heap) (a : loc) : Prop :=
  ∀ account, accts h !! a = Some account → PrivateKey account = None.

(** The key object at [k], if any, has [D = 0]. *)
Definition zeroed (h : Heap) (k : loc) : Prop :=
  ∀ obj, keys h !! k = Some obj → key_D obj = 0.

(** A value of type [uint32]. *)
Definition uint32 (x : Z) : Prop := 0 ≤ x < 2 ^ 32.

(** A call on a wallet by its owner: [Derive(index)] at the time [now], or
    [Close()]. *)
Inductive call : Type :=
  | Call_Derive (index now : Z)
  | Call_Close.

Definition run_call (hw : Heap * SimpleWallet) (c : call) : Heap * SimpleWallet :=
  match c with
  | Call_Derive index now => (Derive hw.1 hw.2 index now).1
  | Call_Close => (Close hw.1 hw.2).1
  end.

End SimpleWalletVocabulary.

Section RegistryVocabulary.
Context `{!hdwallet.Env}.
Import hdwallet.

Definition addresses (w : Wallet) : list Address := Address_ <$> accounts w.

(** The accounts list and the path index agree: the list holds each pinned
    address once, and exactly the addresses of the index. *)
Definition registry_ok (w : Wallet) : Prop :=
  NoDup (addresses w) ∧ ∀ a, a ∈ addresses w ↔ is_Some (paths w !! a).

(** Number of entries of the accounts list for an address. *)
Definition entries (w : Wallet) (a : Address) : nat :=
  length (filter (fun acct => Address_ acct = a) (accounts w)).

(** Every pinned address is the one its recorded path derives. *)
Definition paths_ok (w : Wallet) : Prop :=
  ∀ a p, paths w !! a = Some p → deriveAddress w p = Ok a.

(** A call on a wallet that can change it. *)
Inductive op : Type :=
  | Op_Derive (path : DerivationPath) (pin : bool)
  | Op_Unpin (account : Account)
  | Op_Open (passphrase : string)
  | Op_Close.

Definition run_op (w : Wallet) (o : op) : Wallet :=
  match o with
  | Op_Derive path pin => (Derive w path pin).1
  | Op_Unpin account => (Unpin w account).1
  | Op_Open passphrase => (Open w passphrase).1
  | Op_Close => (Close w).1
  end.

End RegistryVocabulary.

Section InterleavingVocabulary.
Context `{!hdwallet.Env}.
Import hdwallet interleave.

(** Number of goroutines in a state of the given kind. *)
Fixpoint count (P : Goroutine → bool) (gs : list Goroutine) : nat :=
  match gs with
  | [] => 0%nat
  | g :: rest => ((if P g then 1 else 0) + count P rest)%nat
  end.

(** The goroutine holds the read lock. *)
Definition reading (g : Goroutine) : bool :=
  match g with
  | Unpin_scan _ | Unpin_remove _ _ | Unpin_delete _ | Unpin_exit _
  | Derive_address _ | Derive_runlock _ _ => true
  | _ => false
  end.

(** The goroutine holds the write lock. *)
Definition writing (g : Goroutine) : bool :=
  match g with
  | Derive_lookup _ _ | Derive_append _ _ | Derive_index _ _ | Derive_exit _ => true
  | _ => false
  end.

(** The goroutine has appended its account and not yet indexed its path. *)
Definition mid_update (g : Goroutine) : bool :=
  match g with
  | Derive_index _ _ => true
  | _ => false
  end.

(** The goroutine runs [Derive], or has returned. *)
Definition in_Derive (g : Goroutine) : bool :=
  match g with
  | Unpin_enter _ | Unpin_scan _ | Unpin_remove _ _ | Unpin_delete _ | Unpin_exit _
  | Crashed => false
  | _ => true
  end.

(** What the wallet owes to a goroutine in its state: the address is free
    while it is being pinned, and stays pinned once it is. *)
Definition local_ok (w : Wallet) (g : Goroutine) : Prop :=
  match g with
  | Derive_append path address => paths w !! address = None
  | Derive_index path address =>
      paths w !! address = None
      ∧ ∃ l, accounts w = l ++ [account_of path address]
             ∧ registry_ok (set_registry w l (paths w))
  | Derive_exit account => is_Some (paths w !! Address_ account)
  | Returned _ (Some account) => is_Some (paths w !! Address_ account)
  | _ => True
  end.

(** The invariant of goroutines that all run [Derive]: the mutex counts
    its holders, a writer excludes everyone else, and the list and the index
    agree except between the two updates of the one writer. *)
Record inv (c : Config) : Prop := {
  inv_only : ∀ i g, goroutines c !! i = Some g → in_Derive g = true;
  inv_readers : readers (mutex (shared c)) = count reading (goroutines c);
  inv_writers :
    count writing (goroutines c) = if writer (mutex (shared c)) then 1%nat else 0%nat;
  inv_excl : writer (mutex (shared c)) = true → count reading (goroutines c) = 0%nat;
  inv_registry :
    count mid_update (goroutines c) = 0%nat → registry_ok (wallet (shared c));
  inv_local : ∀ i g, goroutines c !! i = Some g → local_ok (wallet (shared c)) g;
}.

(** What a goroutine that was started on [path] may hold. *)
Definition on_path (w0 : Wallet) (path : DerivationPath) (g : Goroutine) : Prop :=
  match g with
  | Derive_enter p | Derive_address p => p = path
  | Derive_runlock p r => p = path ∧ r = deriveAddress w0 path
  | Derive_lock p a | Derive_lookup p a | Derive_append p a | Derive_index p a =>
      p = path ∧ deriveAddress w0 path = Ok a
  | Derive_exit account | Returned None (Some account) =>
      ∃ a, deriveAddress w0 path = Ok a ∧ account = account_of path a
  | Returned (Some err) None => deriveAddress w0 path = Err err
  | _ => False
  end.

(** Goroutine [i] works on the path [ps !! i] with the master key of the
    start, and every listed address was there at the start or is the address
    of one of the paths. *)
Record tracked (w0 : Wallet) (ps : list DerivationPath) (c : Config) : Prop := {
  tr_masterKey : masterKey (wallet (shared c)) = masterKey w0;
  tr_path : ∀ i g, goroutines c !! i = Some g → ∃ p, ps !! i = Some p ∧ on_path w0 p g;
  tr_from : ∀ x, x ∈ addresses (wallet (shared c)) →
                 x ∈ addresses w0 ∨ ∃ p, p ∈ ps ∧ deriveAddress w0 p = Ok x;
}.

(** The goroutine has returned. *)
Definition returned (g : Goroutine) : bool :=
  match g with
  | Returned _ _ => true
  | _ => false
  end.

End InterleavingVocabulary.

Definition code (c : ascii) : Z := Z.of_N (N_of_ascii c).

(** A lower-case ASCII letter. *)
Definition lower (c : ascii) : Prop := 97 ≤ code c ≤ 122.

Fixpoint all_lower (s : string) : Prop :=
  match s with
  | EmptyString => True
  | String c rest => lower c ∧ all_lower rest
  end.

(** A dictionary word: a non-empty string of lower-case letters. *)
Definition is_word (s : string) : Prop := s ≠ EmptyString ∧ all_lower s.

(** The same, as tests that compute. *)
Definition lowerb (c : ascii) : bool := (97 <=? code c) && (code c <=? 122).

Fixpoint all_lowerb (s : string) : bool :=
  match s with
  | EmptyString => true
  | String c rest => lowerb c && all_lowerb rest
  end.

Definition is_wordb (s : string) : bool :=
  match s with
  | EmptyString => false
  | _ => all_lowerb s
  end.

(** The number of bytes of [big.Int.Bytes]. *)
Definition byte_len (x : Z) : nat := Z.to_nat ((big_BitLen x + 7) / 8).

(** * Properties *)

(** ** Slices and byte strings *)

Lemma copy_length (dst src : list Z) : length (copy dst src) = length dst.
Proof.
  unfold copy. rewrite length_app, length_take, length_drop. lia.
Qed.

Lemma copy_at_length (off : nat) (dst src : list Z) :
  length (copy_at off dst src) = length dst.
Proof.
  unfold copy_at. rewrite length_app, length_take, copy_length, length_drop. lia.
Qed.

Lemma copy_same_length (dst src : list Z) :
  length src = length dst → copy dst src = src.
Proof.
  intros Hl. unfold copy.
  rewrite take_ge by lia. rewrite drop_ge by lia. apply app_nil_r.
Qed.

Lemma copy_make_bytes (src : list Z) : copy (make_bytes (length src)) src = src.
Proof. apply copy_same_length. unfold make_bytes. by rewrite length_replicate. Qed.

(** ** Seed derivation of the simple wallet *)

Section SeedDerivation.
Context `{!wallet.Env}.
Import wallet.

Lemma generateSeedFromMnemonic_length (m p : string) :
  length (generateSeedFromMnemonic m p) = 64%nat.
Proof.
  unfold generateSeedFromMnemonic. rewrite copy_at_length, copy_length.
  unfold make_bytes. by rewrite length_replicate.
Qed.

Lemma generateSeedFromMnemonic_sha256 (m p : string) :
  (∀ x, length (Sum256 x) = 32%nat) →
  generateSeedFromMnemonic m p =
    Sum256 (bytes_of_string (m +:+ p)) ++ Sum256 (Sum256 (bytes_of_string (m +:+ p))).
Proof.
  intros Hlen. unfold generateSeedFromMnemonic, copy_at.
  set (hash := Sum256 (bytes_of_string (m +:+ p))).
  assert (Hc : copy (make_bytes SeedLength) hash = hash ++ replicate 32 0).
  { unfold copy, make_bytes, SeedLength. rewrite length_replicate.
    rewrite take_ge by (unfold hash; rewrite Hlen; lia).
    unfold hash at 2. rewrite Hlen. reflexivity. }
  rewrite Hc.
  rewrite take_app_length' by (unfold hash; symmetry; apply Hlen).
  rewrite drop_app_length' by (unfold hash; symmetry; apply Hlen).
  f_equal. apply copy_same_length. rewrite Hlen. reflexivity.
Qed.

(** A wallet built by [NewFromMnemonic] holds, in its own slice, exactly the
    seed computed from the mnemonic and the passphrase. *)
Lemma NewFromMnemonic_seed h m cfg mk h' w :
  NewFromMnemonic h m cfg mk = (h', Ok w) →
  read_slice h' (seed w) = generateSeedFromMnemonic m (Passphrase (default DefaultConfig cfg))
  ∧ accounts w = ∅ ∧ paths w = ∅ ∧ isLocked w = false ∧ mnemonic w = m.
Proof.
  unfold NewFromMnemonic. intros Hnew.
  destruct (validateMnemonic m); simpl in Hnew; [|discriminate].
  rewrite generateSeedFromMnemonic_length in Hnew. simpl in Hnew.
  unfold newWallet in Hnew. destruct mk as [k|]; [|discriminate].
  injection Hnew as <- <-. simpl.
  rewrite lookup_insert_eq. simpl. rewrite copy_make_bytes. done.
Qed.

End SeedDerivation.

(** ** Determinism of key derivation *)

Section Determinism.
Context `{!wallet.Env}.
Import wallet.

Lemma derivePrivateKey_spec h w path :
  ∃ h' k,
    derivePrivateKey h w path = (h', Ok k)
    ∧ keys h' !! k = Some (derived_key (read_slice h (seed w)) path)
    ∧ slices h' = slices h ∧ accts h' = accts h.
Proof.
  eexists _, _. split; [reflexivity|]. simpl. by rewrite lookup_insert_eq.
Qed.

Lemma derive_view_eq h w index now :
  isLocked w = false →
  let key := derived_key (read_slice h (seed w)) (base_path index) in
  derive_view h w index now = Some (pubkeyToAddress (key_X key) (key_Y key), key).
Proof.
  intros Hl. unfold derive_view, Derive. rewrite Hl. simpl.
  rewrite !lookup_insert_eq. simpl. rewrite lookup_insert_eq. reflexivity.
Qed.

(** [Derive] leaves the seed slice and its bytes alone. *)
Lemma Derive_seed h w index now h' w' r :
  Derive h w index now = (h', w', r) →
  read_slice h' (seed w') = read_slice h (seed w) ∧ isLocked w' = isLocked w.
Proof.
  unfold Derive. destruct (isLocked w) eqn:Hl.
  - intros [= <- <- <-]. done.
  - simpl. intros [= <- <- <-]. simpl. done.
Qed.

End Determinism.

(** ** Cleanup of the simple wallet *)

Section Cleanup.
Context `{!wallet.Env}.
Import wallet.

Lemma clear_account_niled_self h a : niled (clear_account h a) a.
Proof.
  unfold clear_account, niled. intros account.
  destruct (accts h !! a) as [acc|] eqn:Ha; [|by rewrite Ha].
  destruct (PrivateKey acc) as [k|] eqn:Hk.
  - simpl. rewrite lookup_insert_eq. by intros [= <-].
  - rewrite Ha. by intros [= <-].
Qed.

Lemma clear_account_accts_ne h a b :
  a ≠ b → accts (clear_account h b) !! a = accts h !! a.
Proof.
  intros Hne. unfold clear_account.
  destruct (accts h !! b) as [acc|]; [|done].
  destruct (PrivateKey acc); [|done]. simpl. by rewrite lookup_insert_ne.
Qed.

Lemma clear_account_niled h a b : niled h a → niled (clear_account h b) a.
Proof.
  intros Hn. destruct (decide (a = b)) as [->|Hne].
  - apply clear_account_niled_self.
  - unfold niled. by rewrite clear_account_accts_ne.
Qed.

Lemma clear_account_slices h a : slices (clear_account h a) = slices h.
Proof.
  unfold clear_account. destruct (accts h !! a) as [acc|]; [|done].
  by destruct (PrivateKey acc).
Qed.

(** A visit changes a key object at most by zeroing its [D]. *)
Lemma clear_account_keys h a k :
  keys (clear_account h a) !! k = keys h !! k
  ∨ keys (clear_account h a) !! k = secureClearPrivateKey <$> keys h !! k.
Proof.
  unfold clear_account. destruct (accts h !! a) as [acc|]; [|by left].
  destruct (PrivateKey acc) as [k'|]; [|by left]. simpl.
  destruct (decide (k' = k)) as [->|Hne].
  - right. by rewrite lookup_alter_eq.
  - left. by rewrite lookup_alter_ne.
Qed.

Lemma clear_account_zeroed h k b : zeroed h k → zeroed (clear_account h b) k.
Proof.
  intros Hz obj. destruct (clear_account_keys h b k) as [-> | ->]; [apply Hz|].
  destruct (keys h !! k); simpl; [|done]. by intros [= <-].
Qed.

Lemma clear_account_zeroed_self h a account k :
  accts h !! a = Some account → PrivateKey account = Some k →
  zeroed (clear_account h a) k.
Proof.
  intros Ha Hk obj. unfold clear_account. rewrite Ha, Hk. simpl.
  rewrite lookup_alter_eq. destruct (keys h !! k); simpl; [|done]. by intros [= <-].
Qed.

Lemma foldl_clear_niled h l a : niled h a → niled (foldl clear_account h l) a.
Proof.
  revert h. induction l as [|b l IH]; intros h Hn; [done|].
  simpl. apply IH. by apply clear_account_niled.
Qed.

Lemma foldl_clear_zeroed h l k : zeroed h k → zeroed (foldl clear_account h l) k.
Proof.
  revert h. induction l as [|b l IH]; intros h Hz; [done|].
  simpl. apply IH. by apply clear_account_zeroed.
Qed.

Lemma foldl_clear_slices h l : slices (foldl clear_account h l) = slices h.
Proof.
  revert h. induction l as [|b l IH]; intros h; [done|].
  simpl. rewrite IH. apply clear_account_slices.
Qed.

(** After the loop every visited account pointer is [nil]ed ... *)
Lemma foldl_clear_all_niled h l a : a ∈ l → niled (foldl clear_account h l) a.
Proof.
  revert h. induction l as [|b l IH]; intros h Hin; [by apply elem_of_nil in Hin|].
  simpl. destruct (decide (a = b)) as [->|Hne].
  - apply foldl_clear_niled, clear_account_niled_self.
  - apply IH. apply elem_of_cons in Hin as [?|?]; [done|assumption].
Qed.

(** ... and the key object each of them pointed to reads zero. *)
Lemma foldl_clear_all_zeroed h l a account k :
  a ∈ l → accts h !! a = Some account → PrivateKey account = Some k →
  zeroed (foldl clear_account h l) k.
Proof.
  revert h. induction l as [|b l IH]; intros h Hin Ha Hk; [by apply elem_of_nil in Hin|].
  simpl. destruct (decide (a = b)) as [->|Hne].
  - apply foldl_clear_zeroed. by eapply clear_account_zeroed_self.
  - apply elem_of_cons in Hin as [?|Hin]; [done|].
    apply (IH _ Hin); [|done]. by rewrite clear_account_accts_ne.
Qed.

(** The loop keeps every key object, and changes nothing of it but [D]. *)
Lemma foldl_clear_keys_frame h l k :
  (fun obj => (key_X obj, key_Y obj)) <$> keys (foldl clear_account h l) !! k
  = (fun obj => (key_X obj, key_Y obj)) <$> keys h !! k.
Proof.
  revert h. induction l as [|b l IH]; intros h; [done|].
  simpl. rewrite IH.
  destruct (clear_account_keys h b k) as [-> | ->]; [done|].
  by destruct (keys h !! k).
Qed.

(** A visit of a [nil]ed account changes nothing. *)
Lemma clear_account_noop h a : niled h a → clear_account h a = h.
Proof.
  intros Hn. unfold clear_account.
  destruct (accts h !! a) as [acc|] eqn:Ha; [|done].
  by rewrite (Hn acc Ha).
Qed.

Lemma foldl_clear_noop h l : (∀ a, a ∈ l → niled h a) → foldl clear_account h l = h.
Proof.
  induction l as [|b l IH]; intros Hn; [done|].
  simpl. rewrite clear_account_noop by (apply Hn; left).
  apply IH. intros a Ha. apply Hn. by right.
Qed.

Lemma cleanup_wallet h w :
  (cleanup h w).2 =
    {| mnemonic := mnemonic w; seed := None; masterKey := masterKey w;
       accounts := accounts w; paths := paths w; isLocked := isLocked w |}.
Proof. unfold cleanup. destruct w as [? [l|] ? ? ? ?]; reflexivity. Qed.

Lemma cleanup_idempotent h w :
  cleanup (cleanup h w).1 (cleanup h w).2 = cleanup h w.
Proof.
  unfold cleanup. destruct (seed w) as [l|] eqn:Hs; simpl.
  - f_equal. apply foldl_clear_noop. intros a Ha. by apply foldl_clear_all_niled.
  - rewrite Hs. simpl. f_equal. apply foldl_clear_noop.
    intros a Ha. by apply foldl_clear_all_niled.
Qed.

End Cleanup.

(** ** The account registry of [hdwallet] *)

Section Registry.
Context `{!hdwallet.Env}.
Import hdwallet.

Lemma newWallet_ok sd w : newWallet sd = Ok w → registry_ok w.
Proof.
  unfold newWallet. destruct (NewMaster sd) as [mk|e]; simpl; [|discriminate].
  intros [= <-]. split; [constructor|].
  intros a. unfold addresses. simpl. rewrite lookup_empty. split.
  - intros Hin. by apply elem_of_nil in Hin.
  - intros [x Hx]. discriminate.
Qed.

Lemma count_not_in (l : list Account) (a : Address) :
  a ∉ Address_ <$> l → length (filter (fun acct => Address_ acct = a) l) = 0%nat.
Proof.
  induction l as [|x l IH]; intros Hn; [done|].
  rewrite fmap_cons in Hn. apply not_elem_of_cons in Hn as [Hne Hn].
  rewrite filter_cons. destruct (decide (Address_ x = a)); [congruence|]. by apply IH.
Qed.

Lemma count_NoDup (l : list Account) (a : Address) :
  NoDup (Address_ <$> l) → a ∈ Address_ <$> l →
  length (filter (fun acct => Address_ acct = a) l) = 1%nat.
Proof.
  induction l as [|x l IH]; intros Hnd Hin; [by apply elem_of_nil in Hin|].
  rewrite fmap_cons in Hnd, Hin. apply list.NoDup_cons in Hnd as [Hx Hnd].
  rewrite filter_cons. destruct (decide (Address_ x = a)) as [<-|Hne].
  - simpl. by rewrite count_not_in.
  - apply elem_of_cons in Hin as [?|Hin]; [congruence|]. by apply IH.
Qed.

Lemma entries_pinned w a :
  registry_ok w → is_Some (paths w !! a) → entries w a = 1%nat.
Proof. intros [Hnd Hdom] Hs. apply count_NoDup; [done|]. by apply Hdom. Qed.

Lemma entries_unpinned w a :
  registry_ok w → paths w !! a = None → entries w a = 0%nat.
Proof.
  intros [Hnd Hdom] Hn. apply count_not_in. intros Hin%Hdom.
  rewrite Hn in Hin. by destruct Hin.
Qed.

Lemma newWallet_masterKey sd w : newWallet sd = Ok w → NewMaster sd = Ok (masterKey w).
Proof.
  unfold newWallet. destruct (NewMaster sd) as [mk|e]; simpl; [|discriminate].
  by intros [= <-].
Qed.

Lemma NewFromSeed_new sd w : NewFromSeed sd = Ok w → newWallet sd = Ok w.
Proof. unfold NewFromSeed. by destruct (length sd =? 0)%nat. Qed.

(** [NewFromMnemonic] is [newWallet] on the seed of the mnemonic, with the
    mnemonic recorded. *)
Lemma NewFromMnemonic_new m w :
  NewFromMnemonic m = Ok w →
  ∃ sd w0, NewSeedWithErrorChecking m EmptyString = Ok sd ∧ newWallet sd = Ok w0
           ∧ masterKey w = masterKey w0 ∧ accounts w = accounts w0
           ∧ paths w = paths w0.
Proof.
  unfold NewFromMnemonic, NewSeedFromMnemonic.
  case_bool_decide; [discriminate|].
  destruct (IsMnemonicValid m); simpl; [|discriminate].
  destruct (NewSeedWithErrorChecking m EmptyString) as [sd|e] eqn:Hsd; simpl;
    [|discriminate].
  destruct (newWallet sd) as [w0|e] eqn:Hw0; simpl; [|discriminate].
  intros [= <-]. exists sd, w0. split_and!; done.
Qed.

Lemma NewFromSeed_ok sd w : NewFromSeed sd = Ok w → registry_ok w.
Proof. intros Hw%NewFromSeed_new. by eapply newWallet_ok. Qed.

Lemma NewFromMnemonic_ok m w : NewFromMnemonic m = Ok w → registry_ok w.
Proof.
  intros (sd & w0 & _ & Hw0 & _ & Ha & Hp)%NewFromMnemonic_new.
  apply newWallet_ok in Hw0. unfold registry_ok, addresses in *. by rewrite Ha, Hp.
Qed.

(** The derivation reads the master key only. *)
Lemma derivePrivateKey_masterKey (w1 w2 : Wallet) (path : DerivationPath) :
  masterKey w1 = masterKey w2 → derivePrivateKey w1 path = derivePrivateKey w2 path.
Proof. intros Hmk. unfold derivePrivateKey. by rewrite Hmk. Qed.

Lemma Unpin_masterKey w account : masterKey (Unpin w account).1 = masterKey w.
Proof. unfold Unpin. by destruct (unpin_index (accounts w) account). Qed.

Lemma deriveAddress_masterKey w1 w2 path :
  masterKey w1 = masterKey w2 → deriveAddress w1 path = deriveAddress w2 path.
Proof.
  intros Hmk. unfold deriveAddress, derivePublicKey, derivePrivateKey. by rewrite Hmk.
Qed.

Lemma Derive_masterKey w path pin : masterKey (Derive w path pin).1 = masterKey w.
Proof.
  unfold Derive. destruct (deriveAddress w path); [|done].
  destruct pin; simpl; [|done]. by destruct (paths w !! a).
Qed.

Lemma Derive_ok w path pin : registry_ok w → registry_ok (Derive w path pin).1.
Proof.
  intros [Hnd Hdom]. unfold Derive. destruct (deriveAddress w path) as [a|]; [|done].
  destruct pin; simpl; [|done].
  destruct (paths w !! a) as [p|] eqn:Hp; [done|].
  unfold registry_ok, addresses in *. simpl. rewrite fmap_app. simpl. split.
  - apply list.NoDup_app. split_and!; [done| |apply NoDup_singleton].
    intros x Hx Hx'. apply list_elem_of_singleton in Hx' as ->.
    apply Hdom in Hx. rewrite Hp in Hx. by destruct Hx.
  - intros x. rewrite elem_of_app, list_elem_of_singleton, Hdom.
    destruct (decide (a = x)) as [->|Hne].
    + rewrite lookup_insert_eq. split; [by eauto|by right].
    + rewrite lookup_insert_ne by done. split; [|tauto].
      intros [?|?]; [done|congruence].
Qed.

Section Unpin.
Hypothesis String_inj : ∀ a b : Address, Address_String a = Address_String b → a = b.

Lemma unpin_index_spec (accts : list Account) (account : Account) :
  match unpin_index accts account with
  | Some i =>
      ∃ l1 acct l2, accts = l1 ++ acct :: l2 ∧ length l1 = i
        ∧ Address_ acct = Address_ account
        ∧ Address_ account ∉ Address_ <$> l1
  | None => Address_ account ∉ Address_ <$> accts
  end.
Proof.
  induction accts as [|x l IH]; simpl.
  - apply not_elem_of_nil.
  - case_bool_decide as Hx.
    + exists [], x, l. split_and!; [done|done|by apply String_inj|apply not_elem_of_nil].
    + destruct (unpin_index l account) as [i|]; simpl.
      * destruct IH as (l1 & acct & l2 & -> & <- & Ha & Hn).
        exists (x :: l1), acct, l2. split_and!; [done|done|done|].
        rewrite fmap_cons. apply not_elem_of_cons. split; [|done].
        intros Heq. apply Hx. by rewrite Heq.
      * apply not_elem_of_cons. split; [|done].
        intros Heq. apply Hx. by rewrite Heq.
Qed.

Lemma Unpin_result w account :
  registry_ok w →
  match paths w !! Address_ account with
  | None => Unpin w account = (w, Some ErrAccountNotFound)
  | Some _ =>
      ∃ l1 acct l2,
        accounts w = l1 ++ acct :: l2 ∧ Address_ acct = Address_ account
        ∧ Unpin w account =
            (set_registry w (l1 ++ l2) (delete (Address_ account) (paths w)), None)
  end.
Proof.
  intros [Hnd Hdom]. unfold Unpin.
  pose proof (unpin_index_spec (accounts w) account) as Hspec.
  destruct (paths w !! Address_ account) as [p|] eqn:Hp.
  - destruct (unpin_index (accounts w) account) as [i|].
    + destruct Hspec as (l1 & acct & l2 & Hacc & <- & Ha & Hn).
      exists l1, acct, l2. split_and!; [done|done|].
      rewrite Hacc. rewrite take_app_length.
      rewrite (cons_middle acct l1 l2), app_assoc.
      replace (S (length l1)) with (length (l1 ++ [acct]))
        by (rewrite length_app; simpl; lia).
      by rewrite drop_app_length.
    + exfalso. apply Hspec. apply Hdom. by rewrite Hp.
  - destruct (unpin_index (accounts w) account) as [i|]; [|done].
    destruct Hspec as (l1 & acct & l2 & Hacc & _ & Ha & _).
    assert (Hin : Address_ account ∈ addresses w).
    { unfold addresses. rewrite Hacc, fmap_app, fmap_cons, Ha.
      apply elem_of_app. right. left. }
    apply Hdom in Hin. rewrite Hp in Hin. by destruct Hin.
Qed.

Lemma Unpin_ok w account : registry_ok w → registry_ok (Unpin w account).1.
Proof.
  intros Hok. pose proof (Unpin_result w account Hok) as Hr.
  destruct (paths w !! Address_ account) as [p|] eqn:Hp.
  - destruct Hr as (l1 & acct & l2 & Hacc & Ha & ->). simpl.
    destruct Hok as [Hnd Hdom]. unfold registry_ok, addresses in *. simpl.
    rewrite Hacc, fmap_app, fmap_cons in Hnd.
    apply list.NoDup_app in Hnd as (Hnd1 & Hdisj & Hnd2).
    apply list.NoDup_cons in Hnd2 as [Hnot2 Hnd2]. split.
    + rewrite fmap_app. apply list.NoDup_app. split_and!; [done| |done].
      intros x Hx Hx'. apply (Hdisj x Hx). by right.
    + intros x. rewrite fmap_app, elem_of_app.
      destruct (decide (x = Address_ account)) as [->|Hne].
      * rewrite lookup_delete_eq. split; [|by intros [? ?]].
        intros [H1|H2].
        -- exfalso. apply (Hdisj _ H1). rewrite Ha. left.
        -- exfalso. apply Hnot2. by rewrite Ha.
      * rewrite lookup_delete_ne by done. rewrite <- Hdom, Hacc, fmap_app, fmap_cons.
        rewrite elem_of_app, elem_of_cons, Ha. tauto.
  - by rewrite Hr.
Qed.

End Unpin.
End Registry.

(** ** Hexadecimal encoding *)

Lemma nibble_cases (n : Z) :
  0 ≤ n < 16 →
  n = 0 ∨ n = 1 ∨ n = 2 ∨ n = 3 ∨ n = 4 ∨ n = 5 ∨ n = 6 ∨ n = 7 ∨ n = 8
  ∨ n = 9 ∨ n = 10 ∨ n = 11 ∨ n = 12 ∨ n = 13 ∨ n = 14 ∨ n = 15.
Proof. lia. Qed.

Ltac nibble n H :=
  let C := fresh "C" in
  pose proof (nibble_cases n H) as C;
  repeat (destruct C as [C | C]); subst n.

Lemma from_hex_digit (n : Z) : 0 ≤ n < 16 → from_hex_char (hex_digit n) = Some n.
Proof. intros H. nibble n H; reflexivity. Qed.

Lemma hex_digit_zero (n : Z) : 0 ≤ n < 16 → hex_digit n = "0"%char ↔ n = 0.
Proof. intros H. nibble n H; split; intros E; (reflexivity || discriminate). Qed.

Lemma byte_nibbles (b : Z) : is_byte b → 0 ≤ b / 16 < 16 ∧ 0 ≤ b mod 16 < 16.
Proof.
  unfold is_byte. intros Hb. split; [|apply Z.mod_pos_bound; lia].
  split; [apply Z.div_pos; lia|apply Z.div_lt_upper_bound; lia].
Qed.

Lemma DecodeString_EncodeToString (b : list Z) :
  Forall is_byte b → DecodeString (EncodeToString b) = Some b.
Proof.
  induction 1 as [|x l Hx Hl IH]; [done|].
  simpl. destruct (byte_nibbles x Hx) as [Hh Hlo].
  rewrite !from_hex_digit, IH by done. do 2 f_equal.
  rewrite (Z.div_mod x 16) at 3 by lia. lia.
Qed.

Lemma EncodeToString_length (b : list Z) :
  String.length (EncodeToString b) = (2 * length b)%nat.
Proof. induction b as [|x l IH]; simpl; [done|]. rewrite IH. lia. Qed.

Lemma be_bytes_length (n : nat) (x : Z) : length (be_bytes n x) = n.
Proof.
  revert x. induction n as [|n IH]; intros x; simpl; [done|].
  rewrite length_app, IH. simpl. lia.
Qed.

Lemma be_bytes_is_byte (n : nat) (x : Z) : Forall is_byte (be_bytes n x).
Proof.
  revert x. induction n as [|n IH]; intros x; simpl; [constructor|].
  apply Forall_app. split; [apply IH|].
  constructor; [|constructor]. unfold is_byte. apply Z.mod_pos_bound. lia.
Qed.

(** ** Hexadecimal private key of [hdwallet] *)

Section PrivateKeyHex.
Context `{!hdwallet.Env}.
Import hdwallet.

Lemma FromECDSA_is_byte (D : Z) : Forall is_byte (FromECDSA D).
Proof.
  unfold FromECDSA, PaddedBigBytes, Bytes.
  destruct (32 <=? BitLen D / 8); apply be_bytes_is_byte.
Qed.

Lemma PrivateKeyBytes_is_byte w account kb :
  PrivateKeyBytes w account = Ok kb → Forall is_byte kb.
Proof.
  unfold PrivateKeyBytes. destruct (PrivateKey w account) as [D|e]; simpl; [|discriminate].
  intros [= <-]. apply FromECDSA_is_byte.
Qed.

(** The value [PrivateKeyHex] computes from the key bytes [b0 :: b1 :: rest]:
    the test reads the two digits of the second byte. *)
Lemma PrivateKeyHex_bytes w account b0 b1 rest :
  PrivateKeyBytes w account = Ok (b0 :: b1 :: rest) → is_byte b1 →
  PrivateKeyHex w account =
    Ok (if bool_decide (b1 = 0) then EncodeToString (b1 :: rest)
        else EncodeToString (b0 :: b1 :: rest)).
Proof.
  intros Hkb Hb1. unfold PrivateKeyHex. rewrite Hkb. simpl.
  destruct (byte_nibbles b1 Hb1) as [Hh Hl].
  pose proof (hex_digit_zero _ Hh) as Zh. pose proof (hex_digit_zero _ Hl) as Zl.
  pose proof (Z.div_mod b1 16 ltac:(lia)) as Hdm.
  destruct (decide (b1 = 0)) as [->|Hne].
  - reflexivity.
  - rewrite (bool_decide_eq_false_2 (b1 = 0)) by done.
    case_bool_decide as Hc2; [|reflexivity].
    case_bool_decide as Hc3; [|reflexivity].
    exfalso. apply Zh in Hc2. apply Zl in Hc3. lia.
Qed.

End PrivateKeyHex.

(** ** Mnemonic generation and validation of the simple wallet *)

Lemma string_app_cons (x : ascii) (a b : string) :
  String x a +:+ b = String x (a +:+ b).
Proof. reflexivity. Qed.

Lemma string_app_nil_l (a : string) : EmptyString +:+ a = a.
Proof. reflexivity. Qed.

Lemma string_app_assoc (a b c : string) : (a +:+ b) +:+ c = a +:+ (b +:+ c).
Proof.
  induction a as [|x a IH]; [done|].
  rewrite !string_app_cons. f_equal. exact IH.
Qed.

Lemma string_app_nil_r (a : string) : a +:+ EmptyString = a.
Proof.
  induction a as [|x a IH]; [done|].
  rewrite string_app_cons. f_equal. exact IH.
Qed.

Lemma space_width_lower (c : ascii) (s : string) :
  lower c → space_width (String c s) = 0%nat.
Proof.
  unfold lower, code, space_width, byte_at. simpl.
  set (b := Z.of_N (N_of_ascii c)). intros Hb.
  repeat match goal with
  | |- context [Z.leb ?x ?y] => destruct (Z.leb_spec x y); try lia
  | |- context [Z.eqb ?x ?y] => destruct (Z.eqb_spec x y); try lia
  end.
  reflexivity.
Qed.

Lemma fields_go_word (w cur rest : string) :
  all_lower w → fields_go 0 cur (w +:+ rest) = fields_go 0 (cur +:+ w) rest.
Proof.
  revert cur. induction w as [|c w IH]; intros cur Hw.
  - by rewrite string_app_nil_l, string_app_nil_r.
  - destruct Hw as [Hc Hw]. rewrite string_app_cons.
    cbn [fields_go]. rewrite space_width_lower by done.
    rewrite IH by done. by rewrite string_app_assoc.
Qed.

Lemma fields_go_space (cur rest : string) :
  fields_go 0 cur (" " +:+ rest) = emit cur ++ fields_go 0 EmptyString rest.
Proof. reflexivity. Qed.

Lemma emit_word (w : string) : w ≠ EmptyString → emit w = [w].
Proof. by destruct w. Qed.

Lemma Fields_Join (ws : list string) :
  Forall is_word ws → Fields (Join ws " ") = ws.
Proof.
  unfold Fields. induction 1 as [|w ws [Hne Hw] Hws IH]; [done|].
  destruct ws as [|w' ws].
  - cbn [Join]. rewrite <- (string_app_nil_r w) at 1. rewrite fields_go_word by done.
    rewrite string_app_nil_l. cbn [fields_go]. by apply emit_word.
  - change (Join (w :: w' :: ws) " ") with (w +:+ " " +:+ Join (w' :: ws) " ").
    rewrite fields_go_word by done. rewrite fields_go_space, IH.
    rewrite string_app_nil_l, emit_word by done. reflexivity.
Qed.

Section Mnemonic.
Context `{!wallet.Env}.
Import wallet.

Lemma snd_imap_pair (l : list string) : (imap pair l).*2 = l.
Proof.
  rewrite fmap_imap. rewrite (imap_ext _ (const id)) by done.
  rewrite imap_const. apply list_fmap_id.
Qed.

Lemma word_map_fold (l : list (nat * string)) (m : gmap string nat) (w : string) :
  is_Some (fold_left (fun m iw => <[iw.2 := iw.1]> m) l m !! w)
  ↔ is_Some (m !! w) ∨ w ∈ l.*2.
Proof.
  revert m. induction l as [|[i x] l IH]; intros m; simpl.
  - split; [by left|]. intros [?|Hin]; [done|]. by apply elem_of_nil in Hin.
  - rewrite IH. simpl. rewrite elem_of_cons.
    destruct (decide (x = w)) as [->|Hne].
    + rewrite lookup_insert_eq. split; [intros _; right; by left|intros _; left; eauto].
    + rewrite lookup_insert_ne by done. split.
      * intros [?|?]; [by left|right; by right].
      * intros [?|[?|?]]; [by left|congruence|by right].
Qed.

(** [bip39WordMap] has exactly the words of the list as keys. *)
Lemma bip39WordMap_dom (w : string) :
  is_Some (bip39WordMap !! w) ↔ w ∈ BIP39WordList.
Proof.
  unfold bip39WordMap. rewrite word_map_fold, snd_imap_pair, lookup_empty.
  split; [|by right]. intros [[x Hx]|?]; [discriminate|done].
Qed.

Lemma validateMnemonic_Join (ws : list string) :
  Forall is_word ws → Forall (fun w => w ∈ BIP39WordList) ws →
  length ws ∈ [12; 15; 18; 21; 24]%nat →
  validateMnemonic (Join ws " ") = true.
Proof.
  intros Hw Hd Hlen. unfold validateMnemonic. rewrite Fields_Join by done.
  assert (Hc : (negb (length ws =? 12) && negb (length ws =? 15)
                && negb (length ws =? 18) && negb (length ws =? 21)
                && negb (length ws =? 24))%nat = false).
  { repeat (apply elem_of_cons in Hlen as [->|Hlen]; [reflexivity|]).
    by apply elem_of_nil in Hlen. }
  rewrite Hc. apply forallb_forall. intros w Hin.
  apply bool_decide_eq_true_2, bip39WordMap_dom.
  rewrite List.Forall_forall in Hd. apply Hd. exact Hin.
Qed.

Lemma pick_word_ok (b0 b1 : Z) :
  length BIP39WordList = 2048%nat →
  ∃ w, pick_word (Some (b0, b1)) = Ok w ∧ w ∈ BIP39WordList.
Proof.
  intros Hlen. unfold pick_word.
  set (i := Z.to_nat (Z.lor (Z.shiftl b0 8 mod 65536) b1 mod 2048)).
  assert (Hi : (i < length BIP39WordList)%nat).
  { rewrite Hlen. unfold i.
    pose proof (Z.mod_pos_bound (Z.lor (Z.shiftl b0 8 mod 65536) b1) 2048). lia. }
  apply lookup_lt_is_Some_2 in Hi as [w Hw]. rewrite Hw.
  exists w. split; [done|]. by eapply list_elem_of_lookup_2.
Qed.

Lemma gen_words_ok (rnd : nat → option (Z * Z)) (n i : nat) :
  length BIP39WordList = 2048%nat →
  (∀ j, (i ≤ j < i + n)%nat → is_Some (rnd j)) →
  ∃ ws, gen_words rnd i n = Ok ws ∧ length ws = n
        ∧ Forall (fun w => w ∈ BIP39WordList) ws.
Proof.
  intros Hlen. revert i. induction n as [|n IH]; intros i Hr; simpl.
  - exists []. done.
  - destruct (Hr i ltac:(lia)) as [[b0 b1] Hi]. rewrite Hi.
    destruct (pick_word_ok b0 b1 Hlen) as (w & -> & Hw). simpl.
    destruct (IH (S i)) as (ws & -> & Hl & Hws); [intros j Hj; apply Hr; lia|].
    simpl. exists (w :: ws). split_and!; [done|simpl; lia|by constructor].
Qed.

Lemma wordCount_of_valid (bits : Z) :
  bits ∈ [128; 160; 192; 224; 256] →
  wordCount_of bits = Some (Z.to_nat (bits / 32 * 3))
  ∧ ((bits <? MinEntropyBits) || (bits >? MaxEntropyBits)
     || negb (Z.rem bits 32 =? 0)) = false.
Proof.
  intros Hin. repeat (apply elem_of_cons in Hin as [->|Hin]; [by vm_compute|]).
  by apply elem_of_nil in Hin.
Qed.

Lemma entropy_guard (bits : Z) :
  ((bits <? MinEntropyBits) || (bits >? MaxEntropyBits)
   || negb (Z.rem bits 32 =? 0)) = false →
  bits ∈ [128; 160; 192; 224; 256].
Proof.
  unfold MinEntropyBits, MaxEntropyBits. intros Hg.
  apply orb_false_iff in Hg as [Hg Hrem]. apply orb_false_iff in Hg as [Hlo Hhi].
  apply Z.ltb_ge in Hlo. rewrite Z.gtb_ltb in Hhi. apply Z.ltb_ge in Hhi.
  apply negb_false_iff, Z.eqb_eq in Hrem.
  rewrite Z.rem_mod_nonneg in Hrem by lia.
  pose proof (Z.div_mod bits 32 ltac:(lia)) as Hdm. rewrite Hrem in Hdm.
  assert (Hq : bits / 32 = 4 ∨ bits / 32 = 5 ∨ bits / 32 = 6 ∨ bits / 32 = 7
               ∨ bits / 32 = 8) by lia.
  rewrite !elem_of_cons. lia.
Qed.

End Mnemonic.

(** * The claims *)

Section SimpleWalletClaims.
Context `{!wallet.Env} `{!hdwallet.Env}.
Import wallet.

(** C1. Key derivation is deterministic. [derivePrivateKey] of the simple
    wallet reads the bytes of the seed slice and the path and nothing else of
    the wallet or the heap, so two wallets whose seed slices hold the same
    bytes derive the same key object for every path; two wallets built
    independently by [NewFromMnemonic] from one mnemonic and passphrase, with
    whatever random [masterKey] each drew, return for every index an account
    with the same address and the same private and public key; and on one
    wallet an earlier [Derive] does not change what a later one returns. In
    [hdwallet], [derivePrivateKey] reads the master key only, which is
    [NewMaster] of the seed and which [Derive] and [Unpin] leave alone. *)
Theorem derivation_deterministic :
  (∀ h1 w1 h2 w2 path,
      read_slice h1 (seed w1) = read_slice h2 (seed w2) →
      ∃ h1' k1 h2' k2 key,
        derivePrivateKey h1 w1 path = (h1', Ok k1)
        ∧ derivePrivateKey h2 w2 path = (h2', Ok k2)
        ∧ keys h1' !! k1 = Some key ∧ keys h2' !! k2 = Some key)
  ∧ (∀ m cfg hA mkA hA' wA hB mkB hB' wB,
      NewFromMnemonic hA m cfg mkA = (hA', Ok wA) →
      NewFromMnemonic hB m cfg mkB = (hB', Ok wB) →
      ∀ index nowA nowB,
        is_Some (derive_view hA' wA index nowA)
        ∧ derive_view hA' wA index nowA = derive_view hB' wB index nowB)
  ∧ (∀ h w index now h' w' r,
      Derive h w index now = (h', w', r) →
      ∀ index' now' now'',
        derive_view h' w' index' now' = derive_view h w index' now'')
  ∧ (∀ (w1 w2 : hdwallet.Wallet) path,
      hdwallet.masterKey w1 = hdwallet.masterKey w2 →
      hdwallet.derivePrivateKey w1 path = hdwallet.derivePrivateKey w2 path
      ∧ hdwallet.deriveAddress w1 path = hdwallet.deriveAddress w2 path)
  ∧ (∀ sd w, hdwallet.NewFromSeed sd = Ok w →
      hdwallet.NewMaster sd = Ok (hdwallet.masterKey w))
  ∧ (∀ m w, hdwallet.NewFromMnemonic m = Ok w →
      ∃ sd, hdwallet.NewSeedWithErrorChecking m EmptyString = Ok sd
            ∧ hdwallet.NewMaster sd = Ok (hdwallet.masterKey w))
  ∧ (∀ (w : hdwallet.Wallet) path pin account,
      hdwallet.masterKey (hdwallet.Derive w path pin).1 = hdwallet.masterKey w
      ∧ hdwallet.masterKey (hdwallet.Unpin w account).1 = hdwallet.masterKey w).
Proof.
  split_and!.
  4: { intros w1 w2 path Hmk. split;
         [by apply derivePrivateKey_masterKey|by apply deriveAddress_masterKey]. }
  4: { intros sd w Hw. by apply newWallet_masterKey, NewFromSeed_new. }
  4: { intros m w (sd & w0 & Hsd & Hw0 & Hmk & _)%NewFromMnemonic_new.
       exists sd. split; [done|]. rewrite Hmk. by apply newWallet_masterKey. }
  4: { intros w path pin account. split; [apply Derive_masterKey|apply Unpin_masterKey]. }
  - intros h1 w1 h2 w2 path Hseed.
    destruct (derivePrivateKey_spec h1 w1 path) as (h1' & k1 & E1 & K1 & _).
    destruct (derivePrivateKey_spec h2 w2 path) as (h2' & k2 & E2 & K2 & _).
    exists h1', k1, h2', k2, (derived_key (read_slice h1 (seed w1)) path).
    split_and!; [done|done|done|]. by rewrite Hseed.
  - intros m cfg hA mkA hA' wA hB mkB hB' wB HA HB index nowA nowB.
    apply NewFromMnemonic_seed in HA as (SA & _ & _ & LA & _).
    apply NewFromMnemonic_seed in HB as (SB & _ & _ & LB & _).
    rewrite !derive_view_eq by done. rewrite SA, SB. split; [by eexists|done].
  - intros h w index now h' w' r HD index' now' now''.
    destruct (Derive_seed _ _ _ _ _ _ _ HD) as [Hs Hl].
    destruct (isLocked w) eqn:Hw.
    + unfold derive_view, Derive. by rewrite Hl, Hw.
    + rewrite !derive_view_eq by congruence. by rewrite Hs.
Qed.

(** C2, as amended. [Close] of the simple wallet returns no error, overwrites
    the bytes of the seed slice by zero and drops the slice, sets [D] of the
    key of every stored account to zero and the account's private key pointer
    to [nil], keeps every key object otherwise, and a second [Close] changes
    neither the wallet nor the heap. [Close] of the [hdwallet] wallet returns
    no error and leaves the wallet as it is. *)
Theorem Close_zeroes_once h w :
  (∀ lw : hdwallet.Wallet, hdwallet.Close lw = (lw, None))
  ∧ (Close h w).2 = None
  ∧ seed (Close h w).1.2 = None
  ∧ (∀ l buf, seed w = Some l → slices h !! l = Some buf →
       slices (Close h w).1.1 !! l = Some (replicate (length buf) 0))
  ∧ (∀ addr a account k,
       accounts w !! addr = Some a → accts h !! a = Some account →
       PrivateKey account = Some k →
       niled (Close h w).1.1 a ∧ zeroed (Close h w).1.1 k
       ∧ (is_Some (keys h !! k) → is_Some (keys (Close h w).1.1 !! k)))
  ∧ Close (Close h w).1.1 (Close h w).1.2 = Close h w.
Proof.
  unfold Close. cbn [fst snd]. split_and!.
  - done.
  - done.
  - by rewrite cleanup_wallet.
  - intros l buf Hs Hb. unfold cleanup. rewrite Hs. simpl.
    rewrite foldl_clear_slices. simpl. rewrite lookup_alter_eq, Hb. simpl.
    f_equal. unfold secureClear. clear. induction buf as [|x buf IH]; [done|].
    simpl. by rewrite IH.
  - intros addr a account k Hw Ha Hk.
    assert (Hin : a ∈ Accounts w).
    { unfold Accounts. apply list_elem_of_fmap. exists (addr, a).
      split; [done|]. by apply elem_of_map_to_list. }
    unfold cleanup.
    destruct (seed w) as [l|]; simpl.
    + split_and!.
      * by apply foldl_clear_all_niled.
      * by eapply foldl_clear_all_zeroed.
      * intros Hsome. apply fmap_is_Some with (f := fun obj => (key_X obj, key_Y obj)).
        rewrite foldl_clear_keys_frame. simpl. by apply fmap_is_Some.
    + split_and!.
      * by apply foldl_clear_all_niled.
      * by eapply foldl_clear_all_zeroed.
      * intros Hsome. apply fmap_is_Some with (f := fun obj => (key_X obj, key_Y obj)).
        rewrite foldl_clear_keys_frame. by apply fmap_is_Some.
  - f_equal. apply cleanup_idempotent.
Qed.

(** C7. For the five entropy sizes, when the random source delivers its
    bytes and the word list has its 2048 words (non-empty, of lower-case
    letters), [GenerateMnemonic] returns a phrase of [entropyBits/32*3] words
    of the list that [validateMnemonic] accepts; for every other integer it
    returns [ErrInvalidEntropy], whatever the random source and the list. *)
Theorem GenerateMnemonic_spec (entropyBits : Z) (rnd : nat → option (Z * Z)) :
  (entropyBits ∈ [128; 160; 192; 224; 256] →
   length BIP39WordList = 2048%nat → Forall is_word BIP39WordList →
   (∀ i, is_Some (rnd i)) →
   ∃ phrase,
     GenerateMnemonic entropyBits rnd = Ok phrase
     ∧ length (Fields phrase) = Z.to_nat (entropyBits / 32 * 3)
     ∧ length (Fields phrase) ∈ [12; 15; 18; 21; 24]%nat
     ∧ Forall (fun w => w ∈ BIP39WordList) (Fields phrase)
     ∧ validateMnemonic phrase = true)
  ∧ (entropyBits ∉ [128; 160; 192; 224; 256] →
     GenerateMnemonic entropyBits rnd = Err ErrInvalidEntropy).
Proof.
  split.
  - intros Hbits Hlen Hdict Hrnd. unfold GenerateMnemonic.
    destruct (wordCount_of_valid _ Hbits) as [Hwc Hguard]. rewrite Hguard, Hwc.
    destruct (gen_words_ok rnd (Z.to_nat (entropyBits / 32 * 3)) 0 Hlen)
      as (ws & -> & Hl & Hws); [intros j _; apply Hrnd|].
    simpl. exists (Join ws " ").
    assert (Hwords : Forall is_word ws).
    { rewrite List.Forall_forall in *. intros w Hw. apply Hdict.
      apply list_elem_of_In. apply Hws. exact Hw. }
    assert (Hcount : length ws ∈ [12; 15; 18; 21; 24]%nat).
    { rewrite Hl. clear -Hbits.
      repeat (apply elem_of_cons in Hbits as [->|Hbits];
              [vm_compute; repeat ((by left) || right)|]).
      by apply elem_of_nil in Hbits. }
    rewrite Fields_Join by done. split_and!; try done.
    by apply validateMnemonic_Join.
  - intros Hbits. unfold GenerateMnemonic.
    destruct ((entropyBits <? MinEntropyBits) || (entropyBits >? MaxEntropyBits)
              || negb (Z.rem entropyBits 32 =? 0)) eqn:Hguard; [done|].
    exfalso. apply Hbits. by apply entropy_guard.
Qed.

(** C9. The seed depends on the mnemonic and the passphrase through their
    concatenation only: pairs with equal concatenations get identical seeds,
    and so do ["ab"], ["c"] and ["a"], ["bc"]. The seed always has 64 bytes;
    with a 32-byte digest it is the digest of the concatenation followed by
    the digest of that digest. Wallets built from such pairs derive the same
    keys and addresses. *)
Theorem generateSeedFromMnemonic_concat (m1 p1 m2 p2 : string) :
  m1 +:+ p1 = m2 +:+ p2 →
  generateSeedFromMnemonic m1 p1 = generateSeedFromMnemonic m2 p2
  ∧ length (generateSeedFromMnemonic m1 p1) = 64%nat
  ∧ generateSeedFromMnemonic "ab" "c" = generateSeedFromMnemonic "a" "bc"
  ∧ ((∀ x, length (Sum256 x) = 32%nat) →
     generateSeedFromMnemonic m1 p1 =
       Sum256 (bytes_of_string (m1 +:+ p1))
       ++ Sum256 (Sum256 (bytes_of_string (m1 +:+ p1))))
  ∧ (∀ h1 mk1 h1' w1 h2 mk2 h2' w2,
       NewFromMnemonic h1 m1 (Some {| Passphrase := p1 |}) mk1 = (h1', Ok w1) →
       NewFromMnemonic h2 m2 (Some {| Passphrase := p2 |}) mk2 = (h2', Ok w2) →
       ∀ index now1 now2,
         is_Some (derive_view h1' w1 index now1)
         ∧ derive_view h1' w1 index now1 = derive_view h2' w2 index now2).
Proof.
  intros Hcat.
  assert (Heq : generateSeedFromMnemonic m1 p1 = generateSeedFromMnemonic m2 p2).
  { unfold generateSeedFromMnemonic. by rewrite Hcat. }
  split_and!.
  - exact Heq.
  - apply generateSeedFromMnemonic_length.
  - reflexivity.
  - apply generateSeedFromMnemonic_sha256.
  - intros h1 mk1 h1' w1 h2 mk2 h2' w2 H1 H2 index now1 now2.
    apply NewFromMnemonic_seed in H1 as (S1 & _ & _ & L1 & _).
    apply NewFromMnemonic_seed in H2 as (S2 & _ & _ & L2 & _).
    simpl in S1, S2. rewrite !derive_view_eq by done.
    rewrite S1, S2, Heq. split; [by eexists|done].
Qed.

End SimpleWalletClaims.

Section HDWalletClaims.
Context `{!hdwallet.Env}.
Import hdwallet.

(** C3 fails on the code. Both passphrase variants hand their arguments to
    [SignHash] and [SignTx] and drop the passphrase: any two passphrases
    give the same result, which is the result without a passphrase. *)
Theorem passphrase_is_ignored (w : Wallet) (account : Account)
    (p1 p2 : string) (hash : list Z) (tx : Transaction) (chainID : option Z) :
  SignHashWithPassphrase w account p1 hash = SignHashWithPassphrase w account p2 hash
  ∧ SignHashWithPassphrase w account p1 hash = SignHash w account hash
  ∧ SignTxWithPassphrase w account p1 tx chainID
    = SignTxWithPassphrase w account p2 tx chainID
  ∧ SignTxWithPassphrase w account p1 tx chainID = SignTx w account tx chainID.
Proof. done. Qed.

(** The ways [SignTx] fails on a registered address: the wrong-sender
    error, or the error of the key derivation, of the signer or of the
    recovery, passed on unchanged. *)
Lemma SignTx_errors (w : Wallet) (account : Account) (tx : Transaction)
    (chainID : option Z) (path : DerivationPath) (e : error) :
  paths w !! Address_ account = Some path →
  SignTx w account tx chainID = Err e →
  (∃ sender, e = ErrWrongSender (Address_String (Address_ account))
                                (Address_String sender)
             ∧ sender ≠ Address_ account)
  ∨ derivePrivateKey w path = Err e
  ∨ (∃ privateKey, derivePrivateKey w path = Ok privateKey
                   ∧ types_SignTx tx privateKey = Err e)
  ∨ (∃ privateKey signedTx, derivePrivateKey w path = Ok privateKey
                            ∧ types_SignTx tx privateKey = Ok signedTx
                            ∧ AsMessage_From signedTx = Err e).
Proof.
  unfold SignTx. intros -> He.
  destruct (derivePrivateKey w path) as [k|e1]; simpl in He;
    [|injection He as <-; right; by left].
  destruct (types_SignTx tx k) as [stx|e2] eqn:Hsign; simpl in He;
    [|injection He as <-; right; right; left; by exists k].
  destruct (AsMessage_From stx) as [sender|e3] eqn:Hs; simpl in He;
    [|injection He as <-; right; right; right; by exists k, stx].
  case_bool_decide as Hne; [|done].
  injection He as <-. left. by exists sender.
Qed.

(** C4. [SignTx] on an address that is not in the path index fails with
    [ErrUnknownAccount]. On a registered address of a wallet whose recorded
    paths derive their addresses (every wallet the constructors, [Derive]
    and [Unpin] produce), and with a signer and a sender recovery that
    return for the derived key, it either returns a signed transaction that
    recovers to the account's address or fails with the wrong-sender error
    for another recovered sender. Whatever the wallet and the library do, a
    transaction it returns recovers to the account's address, and a
    recovered sender other than that address gives the wrong-sender
    error. *)
Theorem SignTx_outcomes (w : Wallet) (account : Account) (tx : Transaction)
    (chainID : option Z) :
  (paths w !! Address_ account = None →
   SignTx w account tx chainID = Err ErrUnknownAccount)
  ∧ (paths_ok w →
     (∀ path privateKey,
        paths w !! Address_ account = Some path →
        derivePrivateKey w path = Ok privateKey →
        ∃ signedTx sender,
          types_SignTx tx privateKey = Ok signedTx
          ∧ AsMessage_From signedTx = Ok sender) →
     is_Some (paths w !! Address_ account) →
     (∃ signedTx,
        SignTx w account tx chainID = Ok signedTx
        ∧ AsMessage_From signedTx = Ok (Address_ account))
     ∨ (∃ sender,
          sender ≠ Address_ account
          ∧ SignTx w account tx chainID =
              Err (ErrWrongSender (Address_String (Address_ account))
                                  (Address_String sender))))
  ∧ (∀ signedTx,
       SignTx w account tx chainID = Ok signedTx →
       is_Some (paths w !! Address_ account)
       ∧ AsMessage_From signedTx = Ok (Address_ account))
  ∧ (∀ path privateKey signedTx sender,
       paths w !! Address_ account = Some path →
       derivePrivateKey w path = Ok privateKey →
       types_SignTx tx privateKey = Ok signedTx →
       AsMessage_From signedTx = Ok sender →
       sender ≠ Address_ account →
       SignTx w account tx chainID =
         Err (ErrWrongSender (Address_String (Address_ account)) (Address_String sender))).
Proof.
  unfold SignTx. split_and!.
  - by intros ->.
  - intros Hok Hlib [path Hp]. rewrite Hp.
    pose proof (Hok _ _ Hp) as Ha. unfold deriveAddress, derivePublicKey in Ha.
    destruct (derivePrivateKey w path) as [k|e1] eqn:Hk; simpl in Ha; [|discriminate Ha].
    destruct (Hlib path k Hp Hk) as (stx & sender & Hsign & Hs).
    simpl. rewrite Hsign. simpl. rewrite Hs. simpl.
    destruct (decide (sender = Address_ account)) as [->|Hne].
    + left. exists stx. rewrite bool_decide_eq_false_2 by (by intros ?). by split.
    + right. exists sender. by rewrite bool_decide_eq_true_2.
  - intros signedTx. destruct (paths w !! Address_ account) as [path|]; [|done].
    destruct (derivePrivateKey w path) as [k|]; simpl; [|done].
    destruct (types_SignTx tx k) as [stx|]; simpl; [|done].
    destruct (AsMessage_From stx) as [sender|] eqn:Hs; simpl; [|done].
    case_bool_decide as Hne; [done|]. intros [= <-].
    split; [by eexists|]. rewrite Hs. f_equal.
    by destruct (decide (sender = Address_ account)).
  - intros path k stx sender Hp Hk Hsign Hs Hne.
    rewrite Hp, Hk. simpl. rewrite Hsign. simpl. rewrite Hs. simpl.
    by rewrite bool_decide_eq_true_2.
Qed.

(** C5. On a wallet whose list and index agree, pinning a path that derives
    to [address] returns the account at every call, the second call changes
    nothing, and so does any number of further calls: the accounts list
    holds one entry for the address, without duplicates, and the path index
    has it. *)
Theorem Derive_pin_idempotent (w : Wallet) (path : DerivationPath) (address : Address) :
  registry_ok w →
  deriveAddress w path = Ok address →
  let account := {| Address_ := address;
                    URL_ := {| Scheme := EmptyString;
                               Path_ := DerivationPath_String path |} |} in
  let w1 := (Derive w path true).1 in
  (Derive w path true).2 = Ok account
  ∧ Derive w1 path true = (w1, Ok account)
  ∧ (∀ n, Nat.iter n (fun w' => (Derive w' path true).1) w1 = w1)
  ∧ entries w1 address = 1%nat
  ∧ NoDup (addresses w1)
  ∧ is_Some (paths w1 !! address).
Proof.
  intros Hok Hd account w1.
  assert (Hok1 : registry_ok w1) by apply Derive_ok, Hok.
  assert (Hd1 : deriveAddress w1 path = Ok address).
  { rewrite <- Hd. apply deriveAddress_masterKey, Derive_masterKey. }
  assert (Hp1 : is_Some (paths w1 !! address)).
  { unfold w1, Derive. rewrite Hd. simpl.
    destruct (paths w !! address) as [p|] eqn:Hp; simpl.
    - rewrite Hp. by eexists.
    - rewrite lookup_insert_eq. by eexists. }
  assert (Hstep : Derive w1 path true = (w1, Ok account)).
  { unfold Derive at 1. rewrite Hd1. simpl. by destruct Hp1 as [p ->]. }
  split_and!.
  - unfold Derive. rewrite Hd. simpl. by destruct (paths w !! address).
  - exact Hstep.
  - induction n as [|n IH]; [done|]. simpl. rewrite IH. by rewrite Hstep.
  - by apply entries_pinned.
  - apply Hok1.
  - exact Hp1.
Qed.

(** C6. On a wallet whose list and index agree (and with addresses printed
    injectively), [Unpin] fails with [ErrAccountNotFound] exactly when the
    address is not pinned, and then leaves the wallet as it is; when the
    address is pinned it succeeds, no entry of the accounts list has the
    address any more, the path index has lost it, the other addresses keep
    their entries, and [Contains] returns false. *)
Theorem Unpin_spec (w : Wallet) (account : Account) :
  (∀ a b : Address, Address_String a = Address_String b → a = b) →
  registry_ok w →
  let w' := (Unpin w account).1 in
  ((Unpin w account).2 = Some ErrAccountNotFound ↔ Contains w account = false)
  ∧ (Contains w account = false → w' = w)
  ∧ (Contains w account = true →
       (Unpin w account).2 = None
       ∧ (Address_ account ∉ addresses w')
       ∧ (paths w' !! Address_ account) = None
       ∧ (∀ a, a ≠ Address_ account →
            (paths w' !! a) = (paths w !! a) ∧ entries w' a = entries w a)
       ∧ Contains w' account = false).
Proof.
  intros Hinj Hok w'. pose proof (Unpin_result Hinj w account Hok) as Hr.
  pose proof (Unpin_ok Hinj w account Hok) as Hok'. fold w' in Hok'.
  unfold Contains.
  destruct (paths w !! Address_ account) as [p|] eqn:Hp.
  - destruct Hr as (l1 & acct & l2 & Hacc & Ha & Hr). subst w'.
    rewrite Hr in *. cbn [fst snd] in *.
    rewrite (bool_decide_eq_true_2 (is_Some (Some p))) by (by eexists).
    split_and!; [done|done|]. intros _.
    assert (Hgone : delete (Address_ account) (paths w) !! Address_ account = None)
      by apply lookup_delete_eq.
    split_and!.
    + done.
    + intros Hin. apply Hok' in Hin. simpl in Hin. rewrite Hgone in Hin.
      by destruct Hin.
    + exact Hgone.
    + intros a Hne. split; [by apply lookup_delete_ne|].
      unfold entries. simpl. rewrite Hacc, !list.filter_app, filter_cons.
      destruct (decide (Address_ acct = a)); [congruence|done].
    + apply bool_decide_eq_false_2. simpl. rewrite Hgone. by intros [? ?].
  - subst w'. rewrite Hr. cbn [fst snd].
    rewrite bool_decide_eq_false_2 by (by intros [? ?]).
    split_and!; [done|done|done].
Qed.

(** C8. When the 32 key bytes of an account have a zero second byte,
    [PrivateKeyHex] returns the 62 digits of the last 31 bytes: decoding
    them gives the key without its first byte, not the key. For every other
    32-byte key it returns the 64 digits of the key. *)
Theorem PrivateKeyHex_drops_first_byte (w : Wallet) (account : Account) (kb : list Z) :
  PrivateKeyBytes w account = Ok kb →
  length kb = 32%nat →
  (kb !! 1%nat = Some 0 →
     ∃ hex, PrivateKeyHex w account = Ok hex
       ∧ hex = EncodeToString (drop 1 kb)
       ∧ String.length hex = 62%nat
       ∧ DecodeString hex = Some (drop 1 kb)
       ∧ DecodeString hex ≠ Some kb)
  ∧ (kb !! 1%nat ≠ Some 0 →
     ∃ hex, PrivateKeyHex w account = Ok hex
       ∧ hex = EncodeToString kb
       ∧ String.length hex = 64%nat
       ∧ DecodeString hex = Some kb).
Proof.
  intros Hkb Hlen.
  pose proof (PrivateKeyBytes_is_byte _ _ _ Hkb) as Hbytes.
  destruct kb as [|b0 [|b1 rest]]; [done|done|].
  assert (Hrest : Forall is_byte (b1 :: rest)) by (by inversion Hbytes).
  assert (Hb1 : is_byte b1) by (by inversion Hrest).
  rewrite (PrivateKeyHex_bytes _ _ _ _ _ Hkb Hb1).
  change (drop 1 (b0 :: b1 :: rest)) with (b1 :: rest).
  change ((b0 :: b1 :: rest) !! 1%nat) with (Some b1).
  simpl in Hlen. split.
  - intros [= ->]. rewrite bool_decide_eq_true_2 by done.
    eexists. split_and!; [done|done| | |].
    + rewrite EncodeToString_length. simpl. lia.
    + by apply DecodeString_EncodeToString.
    + rewrite DecodeString_EncodeToString by done.
      intros Heq. apply (inj Some), (f_equal length) in Heq. simpl in Heq. lia.
  - intros Hne. rewrite bool_decide_eq_false_2 by congruence.
    eexists. split_and!; [done|done| |].
    + rewrite EncodeToString_length. simpl. lia.
    + by apply DecodeString_EncodeToString.
Qed.

End HDWalletClaims.

(** ** One goroutine alone runs the sequential function *)

Section Sequential.
Context `{!hdwallet.Env}.
Import hdwallet interleave.

Lemma unpin_index_lt (accts : list Account) (account : Account) (i : nat) :
  unpin_index accts account = Some i → (i < length accts)%nat.
Proof.
  revert i. induction accts as [|x l IH]; intros i; simpl; [done|].
  case_bool_decide.
  - intros [= <-]. lia.
  - destruct (unpin_index l account) as [j|]; simpl; [|done].
    intros [= <-]. specialize (IH j eq_refl). lia.
Qed.

Lemma set_registry_same (w : Wallet) : set_registry w (accounts w) (paths w) = w.
Proof. by destruct w. Qed.

(** Alone, a goroutine in [Unpin] ends in the wallet [Unpin] computes. *)
Lemma Unpin_alone (w : Wallet) (account : Account) :
  ∃ n, run (replicate n 0%nat) (start w [Unpin_enter account])
       = Some (start (Unpin w account).1 [Returned (Unpin w account).2 None]).
Proof.
  unfold Unpin. destruct (unpin_index (accounts w) account) as [i|] eqn:Hi.
  - exists 5%nat. pose proof (unpin_index_lt _ _ _ Hi) as Hlt.
    unfold start. simpl. unfold run1. simpl. rewrite Hi. simpl.
    unfold run1. simpl.
    destruct (length (accounts w)) as [|n] eqn:Hlen; [lia|].
    rewrite (leb_correct i n) by lia. simpl. reflexivity.
  - exists 3%nat. unfold start. simpl. unfold run1. simpl. rewrite Hi. simpl.
    by destruct w.
Qed.

(** Alone, a goroutine in [Derive] with [pin = true] ends in the wallet
    [Derive] computes. *)
Lemma Derive_alone (w : Wallet) (path : DerivationPath) :
  ∃ n, run (replicate n 0%nat) (start w [Derive_enter path])
       = Some (start (Derive w path true).1
                 [match (Derive w path true).2 with
                  | Ok account => Returned None (Some account)
                  | Err err => Returned (Some err) None
                  end]).
Proof.
  unfold Derive. destruct (deriveAddress w path) as [address|err] eqn:Hd.
  - simpl. destruct (paths w !! address) as [p|] eqn:Hp.
    + exists 6%nat. unfold start. simpl. unfold run1. simpl.
      rewrite Hd. simpl. unfold run1. simpl. rewrite Hp. simpl. by destruct w.
    + exists 8%nat. unfold start. simpl. unfold run1. simpl.
      rewrite Hd. simpl. unfold run1. simpl. rewrite Hp. simpl. reflexivity.
  - exists 3%nat. unfold start. simpl. unfold run1. simpl. rewrite Hd. simpl.
    by destruct w.
Qed.

(** While one goroutine holds the write lock, as [Derive] does around its
    update of the registry, no other can take either lock. *)
Lemma write_lock_excludes (m : RWMutex) :
  writer m = true → RLock m = None ∧ Lock m = None.
Proof. intros Hw. unfold RLock, Lock. by rewrite Hw. Qed.

(** The read lock, which is all that [Unpin] takes, admits a second holder. *)
Lemma read_lock_shared (m : RWMutex) :
  writer m = false → ∃ m1 m2, RLock m = Some m1 ∧ RLock m1 = Some m2.
Proof. intros Hw. unfold RLock. rewrite Hw. simpl. eauto. Qed.

End Sequential.

(** ** Goroutines in [Derive] exclude each other *)

Section Exclusion.
Context `{!hdwallet.Env}.
Import hdwallet interleave.

Lemma count_insert P gs i g g' :
  gs !! i = Some g →
  (count P (<[i := g']> gs) + (if P g then 1 else 0)
   = count P gs + (if P g' then 1 else 0))%nat.
Proof.
  revert i. induction gs as [|x gs IH]; intros [|i] Hi; simpl in *; try discriminate.
  - injection Hi as ->. lia.
  - specialize (IH i Hi). lia.
Qed.

Lemma count_zero P gs i g : count P gs = 0%nat → gs !! i = Some g → P g = false.
Proof.
  revert i. induction gs as [|x gs IH]; intros [|i] Hc Hi; simpl in *; try discriminate.
  - injection Hi as ->. destruct (P g); [lia|done].
  - apply (IH i); [|done]. destruct (P x); lia.
Qed.

Lemma count_le P Q gs : (∀ g, P g = true → Q g = true) → (count P gs ≤ count Q gs)%nat.
Proof.
  intros Himp. induction gs as [|x gs IH]; simpl; [lia|].
  destruct (P x) eqn:Hp; [rewrite (Himp x Hp)|]; destruct (Q x); lia.
Qed.

Lemma registry_ok_pin w l account path :
  registry_ok (set_registry w l (paths w)) →
  paths w !! Address_ account = None →
  registry_ok (set_registry w (l ++ [account]) (<[Address_ account := path]> (paths w))).
Proof.
  intros [Hnd Hdom] Hp. unfold registry_ok, addresses in *. simpl in *.
  rewrite fmap_app. simpl. split.
  - apply list.NoDup_app. split_and!; [done| |apply NoDup_singleton].
    intros x Hx Hx'. apply list_elem_of_singleton in Hx' as ->.
    apply Hdom in Hx. rewrite Hp in Hx. by destruct Hx.
  - intros x. rewrite elem_of_app, list_elem_of_singleton, Hdom.
    destruct (decide (Address_ account = x)) as [<-|Hne].
    + rewrite lookup_insert_eq. split; [by eauto|by right].
    + rewrite lookup_insert_ne by done. split; [|tauto].
      intros [?|?]; [done|congruence].
Qed.

Lemma local_ok_paths w w' g :
  writing g = false → paths w' = paths w → local_ok w g → local_ok w' g.
Proof. intros Hw Hp. destruct g; try done; simpl; by rewrite Hp. Qed.

Lemma local_ok_insert w accts a p g :
  writing g = false → local_ok w g →
  local_ok (set_registry w accts (<[a := p]> (paths w))) g.
Proof.
  intros Hw. destruct g as [| | | | | | | | | | | | |err [acc|]|]; try done; simpl.
  intros Hs. destruct (decide (a = Address_ acc)) as [->|Hne].
  - rewrite lookup_insert_eq. by eexists.
  - by rewrite lookup_insert_ne.
Qed.

Ltac other_goroutine Hi :=
  apply list_lookup_insert_Some in Hi as [(-> & <- & _)|[? Hi]].

Lemma inv_step c tid c' : inv c → run1 c tid = Some c' → inv c'.
Proof.
  intros [Honly Hr Hw Hx Hreg Hloc]. unfold run1.
  destruct (goroutines c !! tid) as [g|] eqn:Hg; simpl; [|discriminate].
  destruct (step g (shared c)) as [[g' s']|] eqn:Hs; simpl; [|discriminate].
  intros [= <-].
  pose proof (Honly _ _ Hg) as Hd. pose proof (Hloc _ _ Hg) as Hl.
  pose proof (count_insert reading _ _ _ g' Hg) as Cr.
  pose proof (count_insert writing _ _ _ g' Hg) as Cw.
  pose proof (count_insert mid_update _ _ _ g' Hg) as Cm.
  pose proof (count_insert reading _ _ _ Crashed Hg) as Cr0.
  pose proof (count_insert writing _ _ _ Crashed Hg) as Cw0.
  pose proof (count_insert mid_update _ _ _ Crashed Hg) as Cm0.
  pose proof (count_le mid_update writing (<[tid := Crashed]> (goroutines c))
                ltac:(by intros [])) as Hle0.
  assert (Hothers : writing g = true → ∀ i g0, i ≠ tid →
                    goroutines c !! i = Some g0 → writing g0 = false).
  { intros Hwg i g0 Hne Hi.
    rewrite Hwg in Cw0. simpl in Cw0.
    assert (Hz : count writing (<[tid := Crashed]> (goroutines c)) = 0%nat)
      by (destruct (writer (mutex (shared c))); lia).
    apply (count_zero _ _ i _ Hz). by rewrite list_lookup_insert_ne. }
  destruct c as [gs [w [r b]]]. simpl in *.
  destruct g; try discriminate Hd; simpl in Hs, Cr0, Cw0, Cm0.
  - (* Derive_enter *)
    unfold RLock in Hs. simpl in Hs. destruct b; [discriminate|].
    injection Hs as <- <-. constructor; simpl in *.
    + intros i g0 Hi. other_goroutine Hi; [done|eauto].
    + lia.
    + lia.
    + done.
    + intros Hz. apply Hreg. lia.
    + intros i g0 Hi. other_goroutine Hi; [done|eauto].
  - (* Derive_address *)
    injection Hs as <- <-. constructor; simpl in *.
    + intros i g0 Hi. other_goroutine Hi; [done|eauto].
    + lia.
    + lia.
    + intros Hb. specialize (Hx Hb). lia.
    + intros Hz. apply Hreg. lia.
    + intros i g0 Hi. other_goroutine Hi; [done|eauto].
  - (* Derive_runlock *)
    assert (Hb : b = false) by (destruct b; [specialize (Hx eq_refl); lia|done]).
    subst b.
    destruct r0 as [address|err]; injection Hs as <- <-; constructor; simpl in *.
    all: try lia.
    all: try done.
    all: try (intros Hz; apply Hreg; lia).
    all: intros i g0 Hi; other_goroutine Hi; [try done|eauto].
  - (* Derive_lock *)
    unfold Lock in Hs. simpl in Hs. destruct b; [discriminate|]. simpl in Hs.
    destruct r as [|r]; [|discriminate]. simpl in Hs.
    injection Hs as <- <-. constructor; simpl in *.
    + intros i g0 Hi. other_goroutine Hi; [done|eauto].
    + lia.
    + lia.
    + intros _. lia.
    + intros Hz. apply Hreg. lia.
    + intros i g0 Hi. other_goroutine Hi; [done|eauto].
  - (* Derive_lookup *)
    destruct (paths w !! address) as [p|] eqn:Hp; injection Hs as <- <-;
      constructor; simpl in *.
    all: try lia.
    all: try (intros Hb; specialize (Hx Hb); lia).
    all: try (intros Hz; apply Hreg; lia).
    all: intros i g0 Hi; other_goroutine Hi; [try done|eauto].
    simpl. rewrite Hp. by eexists.
  - (* Derive_append *)
    injection Hs as <- <-.
    assert (Hb : b = true) by (destruct b; [done|lia]). subst b.
    assert (Hok : registry_ok w).
    { apply Hreg. lia. }
    constructor; simpl in *.
    + intros i g0 Hi. other_goroutine Hi; [done|eauto].
    + lia.
    + lia.
    + intros Hb. specialize (Hx Hb). lia.
    + intros Hz. lia.
    + intros i g0 Hi. other_goroutine Hi.
      * simpl. split; [done|]. exists (accounts w). split; [done|].
        by destruct w.
      * apply (local_ok_paths w); [|done|eauto]. by eapply Hothers.
  - (* Derive_index *)
    injection Hs as <- <-.
    assert (Hb : b = true) by (destruct b; [done|lia]). subst b.
    destruct Hl as (Hnone & l & Hacc & Hok).
    assert (Hok' : registry_ok
              (set_registry w (accounts w) (<[address := path]> (paths w)))).
    { rewrite Hacc.
      apply (registry_ok_pin w l (account_of path address) path); [done|done]. }
    constructor; simpl in *.
    + intros i g0 Hi. other_goroutine Hi; [done|eauto].
    + lia.
    + lia.
    + intros Hb. specialize (Hx Hb). lia.
    + intros _. exact Hok'.
    + intros i g0 Hi. other_goroutine Hi.
      * simpl. rewrite lookup_insert_eq. by eexists.
      * apply local_ok_insert; [|eauto]. by eapply Hothers.
  - (* Derive_exit *)
    injection Hs as <- <-.
    assert (Hb : b = true) by (destruct b; [done|lia]). subst b.
    constructor; simpl in *.
    + intros i g0 Hi. other_goroutine Hi; [done|eauto].
    + specialize (Hx eq_refl). lia.
    + lia.
    + done.
    + intros Hz. apply Hreg. lia.
    + intros i g0 Hi. other_goroutine Hi; [done|eauto].
  - (* Returned *) discriminate.
Qed.

Lemma inv_run schedule c c' : inv c → run schedule c = Some c' → inv c'.
Proof.
  revert c. induction schedule as [|tid rest IH]; intros c Hinv; simpl.
  - by intros [= <-].
  - destruct (run1 c tid) as [c1|] eqn:H1; simpl; [|discriminate].
    apply IH. by eapply inv_step.
Qed.

Lemma count_enter P (ps : list DerivationPath) :
  P Crashed = false → (∀ p, P (Derive_enter p) = false) →
  count P (Derive_enter <$> ps) = 0%nat.
Proof.
  intros _ Hp. induction ps as [|p ps IH]; [done|].
  rewrite fmap_cons. cbn [count]. rewrite Hp. exact IH.
Qed.

Lemma inv_start w ps : registry_ok w → inv (start w (Derive_enter <$> ps)).
Proof.
  intros Hok. constructor; simpl.
  - intros i g Hi. apply list_lookup_fmap_Some in Hi as (p & -> & _). done.
  - by rewrite count_enter.
  - by rewrite count_enter.
  - done.
  - done.
  - intros i g Hi. apply list_lookup_fmap_Some in Hi as (p & -> & _). done.
Qed.

Lemma tracked_step w0 ps c tid c' :
  tracked w0 ps c → run1 c tid = Some c' → tracked w0 ps c'.
Proof.
  intros [Hmk Hpath Hfrom]. unfold run1.
  destruct (goroutines c !! tid) as [g|] eqn:Hg; simpl; [|discriminate].
  destruct (step g (shared c)) as [[g' s']|] eqn:Hs; simpl; [|discriminate].
  intros [= <-].
  destruct (Hpath _ _ Hg) as (p & Hp & Hon).
  destruct c as [gs [w m]]. simpl in *.
  assert (Hkeep : ∀ g1, on_path w0 p g1 →
            ∀ i g0, <[tid := g1]> gs !! i = Some g0 → ∃ p0, ps !! i = Some p0 ∧ on_path w0 p0 g0).
  { intros g1 H1 i g0 Hi. other_goroutine Hi; [by exists p|eauto]. }
  destruct g; try done; simpl in Hs, Hon.
  - destruct (RLock m) as [m'|]; simpl in Hs; [|discriminate].
    injection Hs as <- <-. constructor; simpl; [done| |done]. by apply Hkeep.
  - injection Hs as <- <-. constructor; simpl; [done| |done]. apply Hkeep.
    subst path. split; [done|]. by apply deriveAddress_masterKey.
  - destruct Hon as [-> ->].
    destruct (deriveAddress w0 p) as [a|err] eqn:Hd; injection Hs as <- <-;
      constructor; simpl; try done; by apply Hkeep.
  - destruct (Lock m) as [m'|]; simpl in Hs; [|discriminate].
    injection Hs as <- <-. constructor; simpl; [done| |done]. by apply Hkeep.
  - destruct Hon as [-> Hd].
    destruct (paths w !! address); injection Hs as <- <-; constructor; simpl;
      try done; apply Hkeep; simpl; eauto.
  - destruct Hon as [-> Hd]. injection Hs as <- <-. constructor; simpl; [done| |].
    + by apply Hkeep.
    + intros x. unfold addresses. simpl. rewrite fmap_app, elem_of_app. simpl.
      rewrite list_elem_of_singleton. intros [Hx| ->]; [by apply Hfrom|].
      right. exists p. split; [|done]. by eapply list_elem_of_lookup_2.
  - destruct Hon as [-> Hd]. injection Hs as <- <-. constructor; simpl; [done| |done].
    apply Hkeep. simpl. eauto.
  - injection Hs as <- <-. constructor; simpl; [done| |done]. by apply Hkeep.
Qed.

Lemma tracked_run w0 ps schedule c c' :
  tracked w0 ps c → run schedule c = Some c' → tracked w0 ps c'.
Proof.
  revert c. induction schedule as [|tid rest IH]; intros c Hinv; simpl.
  - by intros [= <-].
  - destruct (run1 c tid) as [c1|] eqn:H1; simpl; [|discriminate].
    apply IH. by eapply tracked_step.
Qed.

Lemma tracked_start w ps : tracked w ps (start w (Derive_enter <$> ps)).
Proof.
  constructor; simpl; [done| |by left].
  intros i g Hi. apply list_lookup_fmap_Some in Hi as (p & -> & Hp). by exists p.
Qed.

Lemma run1_length c tid c' :
  run1 c tid = Some c' → length (goroutines c') = length (goroutines c).
Proof.
  unfold run1. destruct (goroutines c !! tid) as [g|]; simpl; [|discriminate].
  destruct (step g (shared c)) as [gs|]; simpl; [|discriminate].
  intros [= <-]. simpl. apply length_insert.
Qed.

Lemma run_length schedule c c' :
  run schedule c = Some c' → length (goroutines c') = length (goroutines c).
Proof.
  revert c. induction schedule as [|tid rest IH]; intros c; simpl.
  - by intros [= <-].
  - destruct (run1 c tid) as [c1|] eqn:H1; simpl; [|discriminate].
    intros Hr. rewrite (IH _ Hr). by eapply run1_length.
Qed.

(** Any number of goroutines pinning paths on one wallet, in any order of
    their statements: once all have returned, the list and the index agree,
    every goroutine has returned the account of its own path (or the error of
    its derivation), and that account has its one entry. *)
Lemma Derive_goroutines (w : Wallet) (ps : list DerivationPath)
    (schedule : list nat) (c : Config) :
  registry_ok w →
  run schedule (start w (Derive_enter <$> ps)) = Some c →
  Forall (fun g => returned g = true) (goroutines c) →
  registry_ok (wallet (shared c))
  ∧ length (goroutines c) = length ps
  ∧ (∀ i p, ps !! i = Some p →
       match deriveAddress w p with
       | Ok a => goroutines c !! i = Some (Returned None (Some (account_of p a)))
                 ∧ entries (wallet (shared c)) a = 1%nat
       | Err err => goroutines c !! i = Some (Returned (Some err) None)
       end)
  ∧ (∀ x, x ∈ addresses (wallet (shared c)) →
       x ∈ addresses w ∨ ∃ p, p ∈ ps ∧ deriveAddress w p = Ok x).
Proof.
  intros Hok Hrun Hret.
  pose proof (inv_run _ _ _ (inv_start w ps Hok) Hrun) as [_ _ _ _ Hreg Hloc].
  pose proof (tracked_run _ _ _ _ _ (tracked_start w ps) Hrun) as [_ Hpath Hfrom].
  pose proof (run_length _ _ _ Hrun) as Hlen. simpl in Hlen.
  rewrite length_fmap in Hlen.
  assert (Hok' : registry_ok (wallet (shared c))).
  { apply Hreg. clear -Hret. induction Hret as [|g gs Hg _ IH]; simpl; [done|].
    rewrite IH. by destruct g. }
  split_and!; [done|done| |done].
  intros i p Hp.
  destruct (lookup_lt_is_Some_2 (goroutines c) i) as [g Hg].
  { rewrite Hlen. by eapply lookup_lt_Some. }
  destruct (Hpath _ _ Hg) as (p' & Hp' & Hon).
  assert (p' = p) by congruence. subst p'.
  pose proof (Hloc _ _ Hg) as Hl.
  rewrite List.Forall_forall in Hret.
  assert (Hr : returned g = true).
  { apply Hret. apply list_elem_of_In. by eapply list_elem_of_lookup_2. }
  destruct g as [| | | | | | | | | | | | |err acc|]; try discriminate Hr.
  simpl in Hon, Hl. destruct err as [err|], acc as [acc|]; try done.
  - by rewrite Hon.
  - destruct Hon as (a & -> & ->). split; [done|].
    by apply entries_pinned.
Qed.

(** On a wallet with no account yet, goroutines pinning paths of pairwise
    different addresses leave exactly these addresses pinned, one account
    each. *)
Lemma Derive_goroutines_distinct (w : Wallet) (ps : list DerivationPath)
    (addrs : list Address) (schedule : list nat) (c : Config) :
  accounts w = [] → paths w = ∅ →
  Forall2 (fun p a => deriveAddress w p = Ok a) ps addrs →
  NoDup addrs →
  run schedule (start w (Derive_enter <$> ps)) = Some c →
  Forall (fun g => returned g = true) (goroutines c) →
  addresses (wallet (shared c)) ≡ₚ addrs
  ∧ length (accounts (wallet (shared c))) = length ps.
Proof.
  intros Ha Hp Hder Hnd Hrun Hret.
  assert (Hok : registry_ok w).
  { unfold registry_ok, addresses. rewrite Ha, Hp. split; [constructor|].
    intros a. rewrite lookup_empty. split.
    - intros Hin. by apply elem_of_nil in Hin.
    - by intros [? ?]. }
  destruct (Derive_goroutines w ps schedule c Hok Hrun Hret)
    as ([Hnd' Hdom] & _ & Hall & Hfrom).
  assert (Hperm : addresses (wallet (shared c)) ≡ₚ addrs).
  { apply NoDup_Permutation; [done|done|]. intros x. split.
    - intros [Hx|(p & Hin & Hd)]%Hfrom.
      + unfold addresses in Hx. rewrite Ha in Hx. by apply elem_of_nil in Hx.
      + apply list_elem_of_lookup in Hin as [i Hi].
        destruct (Forall2_lookup_l _ _ _ _ _ Hder Hi) as (a & Hai & Hda).
        rewrite Hd in Hda. injection Hda as ->. by eapply list_elem_of_lookup_2.
    - intros Hin. apply list_elem_of_lookup in Hin as [i Hi].
      destruct (Forall2_lookup_r _ _ _ _ _ Hder Hi) as (p & Hpi & Hd).
      specialize (Hall i p Hpi). rewrite Hd in Hall. destruct Hall as [_ Hone].
      destruct (decide (x ∈ addresses (wallet (shared c)))) as [?|Hn]; [done|].
      unfold entries in Hone. rewrite count_not_in in Hone by done. discriminate. }
  split; [done|].
  rewrite <- (length_fmap Address_). fold (addresses (wallet (shared c))).
  rewrite Hperm. symmetry. by eapply Forall2_length.
Qed.

End Exclusion.

(** * The claims on the example instance *)

Lemma all_lowerb_true (s : string) : all_lowerb s = true → all_lower s.
Proof.
  induction s as [|c s IH]; simpl; [done|].
  intros [Hc Hs]%andb_true_iff. split; [|by apply IH].
  unfold lowerb in Hc. apply andb_true_iff in Hc as [H1 H2].
  unfold lower. split; [by apply Z.leb_le|by apply Z.leb_le].
Qed.

Lemma is_wordb_true (s : string) : is_wordb s = true → is_word s.
Proof.
  destruct s as [|c s]; [done|]. intros Hs. split; [done|].
  by apply all_lowerb_true.
Qed.

Lemma example_words : Forall is_word example.words.
Proof.
  apply List.Forall_forall. intros w Hw. apply is_wordb_true.
  revert w Hw. apply forallb_forall. by vm_compute.
Qed.

Lemma example_digest_length (m : list Z) : length (example.digest m) = 32%nat.
Proof. apply be_bytes_length. Qed.

Lemma registry_ok_empty `{!hdwallet.Env} (w : hdwallet.Wallet) :
  hdwallet.accounts w = [] → hdwallet.paths w = ∅ → registry_ok w.
Proof.
  intros Ha Hp. unfold registry_ok, addresses. rewrite Ha, Hp. split; [constructor|].
  intros a. rewrite lookup_empty. split.
  - intros Hin. by apply elem_of_nil in Hin.
  - by intros [? ?].
Qed.

Lemma registry_ok_pinned3 : @registry_ok example.hd_env example.pinned3.
Proof.
  unfold example.pinned3. cbn [foldl].
  do 3 apply (@Derive_ok example.hd_env). by apply registry_ok_empty.
Qed.

(** C1 on two wallets built from one phrase with different master keys. *)
Lemma derivation_deterministic_witness :
  @wallet.NewFromMnemonic example.wallet_env wallet.empty_heap example.phrase None
    (Some example.keyA) = (example.heap0, Ok (example.simple_wallet example.keyA))
  ∧ @wallet.NewFromMnemonic example.wallet_env wallet.empty_heap example.phrase None
      (Some example.keyB) = (example.heap0, Ok (example.simple_wallet example.keyB))
  ∧ example.keyA ≠ example.keyB
  ∧ is_Some (@derive_view example.wallet_env example.heap0
               (example.simple_wallet example.keyA) 7 1000)
  ∧ @derive_view example.wallet_env example.heap0 (example.simple_wallet example.keyA) 7 1000
    = @derive_view example.wallet_env example.heap0 (example.simple_wallet example.keyB) 7 2000.
Proof.
  assert (EA : @wallet.NewFromMnemonic example.wallet_env wallet.empty_heap example.phrase
                 None (Some example.keyA)
               = (example.heap0, Ok (example.simple_wallet example.keyA)))
    by (vm_compute; reflexivity).
  assert (EB : @wallet.NewFromMnemonic example.wallet_env wallet.empty_heap example.phrase
                 None (Some example.keyB)
               = (example.heap0, Ok (example.simple_wallet example.keyB)))
    by (vm_compute; reflexivity).
  split; [exact EA|]. split; [exact EB|]. split; [discriminate|].
  destruct (@derivation_deterministic example.wallet_env example.hd_env) as (_ & H2 & _).
  exact (H2 _ _ _ _ _ _ _ _ _ _ EA EB 7 1000 2000).
Defined.

(** C2 on a wallet with one stored account: the seed slice and the key
    object read zero after [Close]. *)
Lemma Close_zeroes_once_witness :
  wallet.seed example.wallet1 = Some 1%positive
  ∧ wallet.slices example.heap1 !! 1%positive = Some [3; 1; 4; 1; 5]
  ∧ wallet.accounts example.wallet1 !! [9; 9] = Some 1%positive
  ∧ wallet.accts example.heap1 !! 1%positive = Some example.account1
  ∧ wallet.PrivateKey example.account1 = Some 1%positive
  ∧ wallet.slices (wallet.Close example.heap1 example.wallet1).1.1
      !! 1%positive = Some [0; 0; 0; 0; 0]
  ∧ zeroed (wallet.Close example.heap1 example.wallet1).1.1 1%positive
  ∧ is_Some (wallet.keys
               (wallet.Close example.heap1 example.wallet1).1.1
             !! 1%positive).
Proof.
  assert (H1 : wallet.seed example.wallet1 = Some 1%positive) by reflexivity.
  assert (H2 : wallet.slices example.heap1 !! 1%positive = Some [3; 1; 4; 1; 5])
    by (vm_compute; reflexivity).
  assert (H3 : wallet.accounts example.wallet1 !! [9; 9] = Some 1%positive)
    by (vm_compute; reflexivity).
  assert (H4 : wallet.accts example.heap1 !! 1%positive = Some example.account1)
    by (vm_compute; reflexivity).
  assert (H5 : wallet.PrivateKey example.account1 = Some 1%positive) by reflexivity.
  assert (H6 : is_Some (wallet.keys example.heap1 !! 1%positive))
    by (vm_compute; by eexists).
  destruct (@Close_zeroes_once example.hd_env example.heap1 example.wallet1)
    as (_ & _ & _ & Hseed & Hkeys & _).
  destruct (Hkeys _ _ _ _ H3 H4 H5) as (_ & Hz & Hs).
  split_and!; [exact H1|exact H2|exact H3|exact H4|exact H5| |exact Hz|exact (Hs H6)].
  exact (Hseed _ _ H1 H2).
Defined.

(** C2 as stated fails on the [hdwallet] wallet: after [Close] its seed
    still holds the bytes it held before. *)
Lemma hdwallet_Close_keeps_seed :
  let w := example.hd_wallet 5 [] ∅ in
  hdwallet.seed (@hdwallet.Close example.hd_env w).1
    = [1; 2; 3; 4; 5; 6; 7; 8; 9; 10; 11; 12; 13; 14; 15; 16]
  ∧ ¬ Forall (fun b => b = 0) (hdwallet.seed (@hdwallet.Close example.hd_env w).1).
Proof.
  split; [reflexivity|]. simpl. intros Hz. by inversion Hz.
Qed.

(** C5 on the path [[1; 2]] of the wallet of master key 5. *)
Lemma Derive_pin_idempotent_witness :
  let w := example.hd_wallet 5 [] ∅ in
  let w1 := (@hdwallet.Derive example.hd_env w [1; 2] true).1 in
  @registry_ok example.hd_env w
  ∧ @hdwallet.deriveAddress example.hd_env w [1; 2] = Ok 24353
  ∧ (@hdwallet.Derive example.hd_env w [1; 2] true).2 = Ok (example.hd_account 24353 "12")
  ∧ @hdwallet.Derive example.hd_env w1 [1; 2] true = (w1, Ok (example.hd_account 24353 "12"))
  ∧ @entries example.hd_env w1 24353 = 1%nat.
Proof.
  intros w w1.
  assert (Hok : @registry_ok example.hd_env w) by (by apply registry_ok_empty).
  assert (Hd : @hdwallet.deriveAddress example.hd_env w [1; 2] = Ok 24353)
    by (vm_compute; reflexivity).
  destruct (@Derive_pin_idempotent example.hd_env w [1; 2] 24353 Hok Hd)
    as (R1 & R2 & _ & R4 & _).
  split_and!; [exact Hok|exact Hd|exact R1|exact R2|exact R4].
Defined.

(** C6 on the second of three pinned accounts, and on an address that was
    never pinned. *)
Lemma Unpin_spec_witness :
  let w := example.pinned3 in
  (∀ a b : Z, pretty a = pretty b → a = b)
  ∧ @registry_ok example.hd_env w
  ∧ @hdwallet.Contains example.hd_env w (example.hd_account 793 "2") = true
  ∧ (@hdwallet.Unpin example.hd_env w (example.hd_account 793 "2")).2 = None
  ∧ @hdwallet.Contains example.hd_env
      (@hdwallet.Unpin example.hd_env w (example.hd_account 793 "2")).1
      (example.hd_account 793 "2") = false
  ∧ @hdwallet.Contains example.hd_env w (example.hd_account 1 "9") = false
  ∧ (@hdwallet.Unpin example.hd_env w (example.hd_account 1 "9")).2
    = Some hdwallet.ErrAccountNotFound.
Proof.
  intros w.
  assert (Hinj : ∀ a b : Z, pretty a = pretty b → a = b)
    by (intros a b; apply (inj pretty)).
  assert (Hc : @hdwallet.Contains example.hd_env w (example.hd_account 793 "2") = true)
    by (vm_compute; reflexivity).
  assert (Hn : @hdwallet.Contains example.hd_env w (example.hd_account 1 "9") = false)
    by (vm_compute; reflexivity).
  destruct (@Unpin_spec example.hd_env w (example.hd_account 793 "2") Hinj
              registry_ok_pinned3) as (_ & _ & Hpinned).
  destruct (Hpinned Hc) as (R1 & _ & _ & _ & R5).
  destruct (@Unpin_spec example.hd_env w (example.hd_account 1 "9") Hinj
              registry_ok_pinned3) as (Hiff & _ & _).
  split_and!; [exact Hinj|exact registry_ok_pinned3|exact Hc|exact R1|exact R5|exact Hn|].
  apply Hiff. exact Hn.
Defined.

(** C7 on 128 bits of entropy, and on 100. *)
Lemma GenerateMnemonic_spec_witness :
  (128 ∈ [128; 160; 192; 224; 256]
   ∧ length example.words = 2048%nat
   ∧ Forall is_word example.words
   ∧ (∀ i, is_Some (example.rnd i))
   ∧ ∃ phrase,
       @wallet.GenerateMnemonic example.wallet_env 128 example.rnd = Ok phrase
       ∧ length (Fields phrase) = 12%nat
       ∧ @wallet.validateMnemonic example.wallet_env phrase = true)
  ∧ ((100 ∉ [128; 160; 192; 224; 256])
     ∧ @wallet.GenerateMnemonic example.wallet_env 100 example.rnd
       = Err wallet.ErrInvalidEntropy).
Proof.
  assert (H1 : 128 ∈ [128; 160; 192; 224; 256]) by left.
  assert (H2 : length example.words = 2048%nat) by (vm_compute; reflexivity).
  assert (H4 : ∀ i, is_Some (example.rnd i)) by (intros i; by eexists).
  assert (H5 : 100 ∉ [128; 160; 192; 224; 256]).
  { intros H. repeat (apply elem_of_cons in H as [H|H]; [discriminate|]).
    by apply elem_of_nil in H. }
  split.
  - destruct (@GenerateMnemonic_spec example.wallet_env 128 example.rnd) as [Hv _].
    destruct (Hv H1 H2 example_words H4) as (phrase & R1 & R2 & _ & _ & R5).
    split_and!; [exact H1|exact H2|exact example_words|exact H4|].
    exists phrase. split_and!; [exact R1|exact R2|exact R5].
  - destruct (@GenerateMnemonic_spec example.wallet_env 100 example.rnd) as [_ Hi].
    split; [exact H5|exact (Hi H5)].
Defined.

(** C8 on a key whose second byte is zero, and on one whose second byte is
    not. *)
Lemma PrivateKeyHex_drops_first_byte_witness :
  let account := example.hd_account 0 "m" in
  let w0 := example.hd_wallet (2 ^ 248 + 5) [] ∅ in
  let w1 := example.hd_wallet (2 ^ 248 + 2 ^ 240 + 5) [] ∅ in
  (@hdwallet.PrivateKeyBytes example.hd_env w0 account = Ok (be_bytes 32 (2 ^ 248 + 5))
   ∧ length (be_bytes 32 (2 ^ 248 + 5)) = 32%nat
   ∧ be_bytes 32 (2 ^ 248 + 5) !! 1%nat = Some 0
   ∧ ∃ hex, @hdwallet.PrivateKeyHex example.hd_env w0 account = Ok hex
       ∧ String.length hex = 62%nat
       ∧ DecodeString hex ≠ Some (be_bytes 32 (2 ^ 248 + 5)))
  ∧ (@hdwallet.PrivateKeyBytes example.hd_env w1 account
       = Ok (be_bytes 32 (2 ^ 248 + 2 ^ 240 + 5))
     ∧ be_bytes 32 (2 ^ 248 + 2 ^ 240 + 5) !! 1%nat ≠ Some 0
     ∧ ∃ hex, @hdwallet.PrivateKeyHex example.hd_env w1 account = Ok hex
         ∧ String.length hex = 64%nat
         ∧ DecodeString hex = Some (be_bytes 32 (2 ^ 248 + 2 ^ 240 + 5))).
Proof.
  intros account w0 w1.
  assert (H1 : @hdwallet.PrivateKeyBytes example.hd_env w0 account
               = Ok (be_bytes 32 (2 ^ 248 + 5))) by (vm_compute; reflexivity).
  assert (H2 : length (be_bytes 32 (2 ^ 248 + 5)) = 32%nat) by apply be_bytes_length.
  assert (H3 : be_bytes 32 (2 ^ 248 + 5) !! 1%nat = Some 0) by (vm_compute; reflexivity).
  assert (H4 : @hdwallet.PrivateKeyBytes example.hd_env w1 account
               = Ok (be_bytes 32 (2 ^ 248 + 2 ^ 240 + 5))) by (vm_compute; reflexivity).
  assert (H5 : length (be_bytes 32 (2 ^ 248 + 2 ^ 240 + 5)) = 32%nat)
    by apply be_bytes_length.
  assert (H6 : be_bytes 32 (2 ^ 248 + 2 ^ 240 + 5) !! 1%nat ≠ Some 0)
    by (vm_compute; discriminate).
  split.
  - destruct (@PrivateKeyHex_drops_first_byte example.hd_env w0 account _ H1 H2)
      as [Hz _].
    destruct (Hz H3) as (hex & R1 & _ & R3 & _ & R5).
    split_and!; [exact H1|exact H2|exact H3|].
    exists hex. split_and!; [exact R1|exact R3|exact R5].
  - destruct (@PrivateKeyHex_drops_first_byte example.hd_env w1 account _ H4 H5)
      as [_ Hnz].
    destruct (Hnz H6) as (hex & R1 & _ & R3 & R4).
    split_and!; [exact H4|exact H6|].
    exists hex. split_and!; [exact R1|exact R3|exact R4].
Defined.

(** C9 on a phrase with a trailing blank and no passphrase against the
    phrase with a blank as passphrase. *)
Lemma generateSeedFromMnemonic_concat_witness :
  let m1 := (example.phrase +:+ " ")%string in
  (m1 +:+ EmptyString = example.phrase +:+ " ")
  ∧ (∀ x, length (@wallet.Sum256 example.wallet_env x) = 32%nat)
  ∧ @wallet.generateSeedFromMnemonic example.wallet_env m1 EmptyString
    = @wallet.generateSeedFromMnemonic example.wallet_env example.phrase " "
  ∧ length (@wallet.generateSeedFromMnemonic example.wallet_env m1 EmptyString) = 64%nat
  ∧ @wallet.generateSeedFromMnemonic example.wallet_env m1 EmptyString
    = example.digest (bytes_of_string (m1 +:+ EmptyString))
      ++ example.digest (example.digest (bytes_of_string (m1 +:+ EmptyString))).
Proof.
  intros m1.
  assert (H1 : m1 +:+ EmptyString = example.phrase +:+ " ") by (vm_compute; reflexivity).
  destruct (@generateSeedFromMnemonic_concat example.wallet_env m1 EmptyString
              example.phrase " " H1) as (R1 & R2 & _ & R4 & _).
  split_and!; [exact H1|exact example_digest_length|exact R1|exact R2|].
  exact (R4 example_digest_length).
Defined.

(** Two goroutines pinning two paths, their statements mixed. *)
Lemma Derive_two_goroutines :
  let c0 := @interleave.start example.hd_env (example.hd_wallet 5 [] ∅)
              [interleave.Derive_enter [1]; interleave.Derive_enter [2]] in
  (fun c => (@returned example.hd_env <$> interleave.goroutines c,
             @addresses example.hd_env (interleave.wallet (interleave.shared c))))
    <$> @interleave.run example.hd_env [0;1;0;1;0;1;0;0;0;0;0;1;1;1;1;1]%nat c0
  = Some ([true; true], [788; 793]).
Proof. vm_compute. reflexivity. Qed.

Section Race.
Import hdwallet interleave.

(** C10 fails on the code. [Unpin] takes the read lock only, so two calls
    can be between its [RLock] and [RUnlock] at once. On a wallet with three
    pinned accounts whose list and index agree, unpinning the first and the
    second from two goroutines, statement by statement in turn, ends with
    both calls returning no error, the second account still in the list,
    the third one gone from it though still in the index: the list and the
    index no longer agree. Run one after the other the two calls leave the
    third account alone, in the list and in the index. *)
Theorem Unpin_read_lock_race :
  let a := example.hd_account 788 "1" in
  let b := example.hd_account 793 "2" in
  let c0 := @start example.hd_env example.pinned3 [Unpin_enter a; Unpin_enter b] in
  let turns := [0; 1; 0; 1; 0; 1; 0; 1; 0; 1]%nat in
  @registry_ok example.hd_env example.pinned3
  ∧ @addresses example.hd_env example.pinned3 = [788; 793; 798]
  ∧ (fun c => (in_Unpin <$> goroutines c, mutex c.(shared)))
      <$> @run example.hd_env [0; 1]%nat c0
    = Some ([true; true], {| readers := 2; writer := false |})
  ∧ (fun c => returned_nil <$> goroutines c) <$> @run example.hd_env turns c0
    = Some [true; true]
  ∧ @addresses example.hd_env <$> wallet_after turns c0 = Some [793]
  ∧ (fun w => (paths w !! 793, paths w !! 798)) <$> wallet_after turns c0
    = Some (None, Some [3])
  ∧ (∀ w, wallet_after turns c0 = Some w → ¬ @registry_ok example.hd_env w)
  ∧ @addresses example.hd_env
      (@Unpin example.hd_env (@Unpin example.hd_env example.pinned3 a).1 b).1 = [798].
Proof.
  intros a b c0 turns.
  assert (H5 : @addresses example.hd_env <$> wallet_after turns c0 = Some [793])
    by (vm_compute; reflexivity).
  assert (H6 : (fun w => (@paths example.hd_env w !! 793, @paths example.hd_env w !! 798))
                 <$> wallet_after turns c0 = Some (None, Some [3]))
    by (vm_compute; reflexivity).
  split_and!.
  - exact registry_ok_pinned3.
  - vm_compute. reflexivity.
  - vm_compute. reflexivity.
  - vm_compute. reflexivity.
  - exact H5.
  - exact H6.
  - revert H5 H6. generalize (wallet_after turns c0).
    intros o H5 H6 w -> [_ Hdom]. simpl in H5, H6.
    injection H5 as H5. injection H6 as H6 _.
    assert (Hin : 793 ∈ @addresses example.hd_env w) by (rewrite H5; left).
    apply Hdom in Hin. destruct Hin as [p Hp].
    pose proof (eq_trans (eq_sym Hp) H6) as Hf. discriminate Hf.
  - vm_compute. reflexivity.
Qed.

End Race.

(** * Further properties of the two wallets and of the command line tool *)

(** ** Mnemonic validation of the simple wallet *)

Section MnemonicValidation.
Context `{!wallet.Env}.
Import wallet.

(** X1. [validateMnemonic] accepts a phrase exactly when it splits into 12,
    15, 18, 21 or 24 white-space separated fields that are all words of
    [BIP39WordList]; nothing else (order, checksum) is looked at. *)
Theorem validateMnemonic_accepts (m : string) :
  validateMnemonic m = true ↔
    length (Fields m) ∈ [12; 15; 18; 21; 24]%nat
    ∧ Forall (fun w => w ∈ BIP39WordList) (Fields m).
Proof.
  unfold validateMnemonic. cbv zeta.
  generalize (Fields m). intros ws.
  destruct (negb (length ws =? 12)%nat && negb (length ws =? 15)%nat
            && negb (length ws =? 18)%nat && negb (length ws =? 21)%nat
            && negb (length ws =? 24)%nat) eqn:Hc.
  - split; [discriminate|]. intros [Hl _]. exfalso.
    repeat (apply elem_of_cons in Hl as [Hl|Hl]; [rewrite Hl in Hc; discriminate Hc|]).
    by apply elem_of_nil in Hl.
  - rewrite forallb_forall, List.Forall_forall. split.
    + intros Hall. split.
      * repeat (apply andb_false_iff in Hc as [Hc|Hc]);
          apply negb_false_iff, Nat.eqb_eq in Hc; rewrite Hc; set_solver.
      * intros w Hw. apply bip39WordMap_dom. apply Hall in Hw.
        by apply bool_decide_eq_true in Hw.
    + intros [_ Hall] w Hw. apply bool_decide_eq_true, bip39WordMap_dom. by apply Hall.
Qed.

(** X2. [init] fills [bip39WordMap] with the position of each word of
    [BIP39WordList]; for a word listed more than once the last position
    wins. *)
Theorem bip39WordMap_index (w : string) (i : nat) :
  bip39WordMap !! w = Some i ↔
    BIP39WordList !! i = Some w ∧ ∀ j, (i < j)%nat → BIP39WordList !! j ≠ Some w.
Proof.
  unfold bip39WordMap. generalize BIP39WordList. intros l.
  revert i. induction l as [|x l IH] using rev_ind; intros i.
  - simpl. rewrite lookup_empty. split; [discriminate|]. intros [Hf _]. discriminate.
  - rewrite imap_app, fold_left_app. simpl. rewrite Nat.add_0_r.
    destruct (decide (x = w)) as [->|Hne].
    + rewrite lookup_insert_eq. split.
      * intros [= <-]. split.
        -- rewrite lookup_app_r by lia. by rewrite Nat.sub_diag.
        -- intros j Hj. rewrite lookup_ge_None_2; [done|]. rewrite length_app. simpl. lia.
      * intros [Hi Hlast]. f_equal.
        destruct (decide (i = length l)) as [->|Hil]; [done|].
        exfalso. apply lookup_lt_Some in Hi. rewrite length_app in Hi. simpl in Hi.
        apply (Hlast (length l)); [lia|].
        rewrite lookup_app_r by lia. by rewrite Nat.sub_diag.
    + rewrite lookup_insert_ne by done. rewrite IH. split.
      * intros [Hi Hlast]. split.
        -- by apply lookup_app_l_Some.
        -- intros j Hj Hw. apply lookup_app_Some in Hw as [Hw|[Hge Hw]].
           ++ by apply (Hlast j).
           ++ destruct (j - length l)%nat; simpl in Hw; [congruence|].
              by rewrite lookup_nil in Hw.
      * intros [Hi Hlast]. apply lookup_app_Some in Hi as [Hi|[Hge Hi]].
        -- split; [done|]. intros j Hj Hw. apply (Hlast j Hj). by apply lookup_app_l_Some.
        -- destruct (i - length l)%nat; simpl in Hi; [congruence|].
           by rewrite lookup_nil in Hi.
Qed.

End MnemonicValidation.

(** ** Construction of the simple wallet *)

Section SimpleWalletLife.
Context `{!wallet.Env}.
Import wallet.

Lemma newWallet_fresh h m sd cfg k :
  ∃ l, newWallet h m sd cfg (Some k) =
         ({| slices := <[l := sd]> (slices h); keys := keys h; accts := accts h |},
          Ok {| mnemonic := m; seed := Some l; masterKey := k;
                accounts := ∅; paths := ∅; isLocked := false |})
       ∧ slices h !! l = None.
Proof.
  exists (fresh (dom (slices h))). unfold newWallet. rewrite copy_make_bytes.
  split; [done|]. apply not_elem_of_dom. apply is_fresh.
Qed.

Lemma secureClear_zero (data : list Z) : secureClear data = replicate (length data) 0.
Proof. induction data as [|x data IH]; simpl; [done|]. by rewrite IH. Qed.

(** X3. [NewFromMnemonic] fails with [ErrInvalidMnemonic] exactly on the
    phrases [validateMnemonic] rejects and then, or when no master key can be
    drawn, leaves the heap alone; its [ErrInvalidSeed] exit is never taken;
    otherwise the wallet is unlocked, has no account, returns the phrase
    from [GetMnemonic] and holds the 64 seed bytes in a slice of its own. *)
Theorem NewFromMnemonic_outcomes h m cfg mk :
  let r := NewFromMnemonic h m cfg mk in
  (r.2 = Err ErrInvalidMnemonic ↔ validateMnemonic m = false)
  ∧ r.2 ≠ Err ErrInvalidSeed
  ∧ (∀ e, r.2 = Err e → r.1 = h)
  ∧ (validateMnemonic m = true → mk = None →
       r.2 = Err (ErrWrapped "failed to create master key"))
  ∧ (validateMnemonic m = true → is_Some mk →
       ∃ w l, r.2 = Ok w ∧ seed w = Some l ∧ slices h !! l = None
         ∧ length (read_slice r.1 (seed w)) = 64%nat
         ∧ (∀ l', l' ≠ l → slices r.1 !! l' = slices h !! l')
         ∧ GetMnemonic w = Ok m ∧ Status w = "Unlocked"%string ∧ Accounts w = []).
Proof.
  cbv zeta. unfold NewFromMnemonic.
  destruct (validateMnemonic m) eqn:Hv; simpl.
  2:{ by split_and!. }
  rewrite generateSeedFromMnemonic_length.
  replace (64 =? SeedLength)%nat with true by done. cbn [negb].
  destruct mk as [k|].
  - destruct (newWallet_fresh h m
                (generateSeedFromMnemonic m (Passphrase (default DefaultConfig cfg)))
                (default DefaultConfig cfg) k) as (l & -> & Hl).
    simpl. split_and!; try done.
    intros _ _. eexists _, l. split_and!; try done.
    + simpl. rewrite lookup_insert_eq. simpl. apply generateSeedFromMnemonic_length.
    + intros l' Hne. by rewrite lookup_insert_ne.
  - simpl. split_and!; try done.
Qed.

(** X4. [NewFromSeed] refuses every seed that is not 64 bytes long with
    [ErrInvalidSeed]; the wallet it builds keeps the bytes in a slice that
    did not exist before, so no slice that existed is changed by the
    construction or by a later [Close], which zeroes the wallet's copy. *)
Theorem NewFromSeed_copies_seed h sd cfg mk :
  (length sd ≠ 64%nat → NewFromSeed h sd cfg mk = (h, Err ErrInvalidSeed))
  ∧ (∀ h' w, NewFromSeed h sd cfg mk = (h', Ok w) →
       length sd = 64%nat
       ∧ read_slice h' (seed w) = sd
       ∧ read_slice (Close h' w).1.1 (seed w) = replicate 64 0
       ∧ (∀ l, is_Some (slices h !! l) →
            seed w ≠ Some l
            ∧ slices h' !! l = slices h !! l
            ∧ slices (Close h' w).1.1 !! l = slices h !! l)).
Proof.
  unfold NewFromSeed. split.
  - intros Hl. apply Nat.eqb_neq in Hl. unfold SeedLength. by rewrite Hl.
  - intros h' w. destruct (length sd =? SeedLength)%nat eqn:Hl; simpl; [|intros [=]].
    apply Nat.eqb_eq in Hl. unfold SeedLength in Hl.
    destruct mk as [k|]; [|intros [=]].
    destruct (newWallet_fresh h EmptyString sd (default DefaultConfig cfg) k)
      as (l & -> & Hfresh).
    intros [= <- <-]. unfold Close, cleanup. simpl.
    rewrite foldl_clear_slices. simpl.
    split_and!; [done| |  |].
    + by rewrite lookup_insert_eq.
    + rewrite lookup_alter_eq, lookup_insert_eq. simpl.
      by rewrite secureClear_zero, Hl.
    + intros l' [b Hb].
      assert (l' ≠ l) by congruence.
      split_and!; [congruence| |].
      * by rewrite lookup_insert_ne.
      * rewrite lookup_alter_ne by done. by rewrite lookup_insert_ne.
Qed.

End SimpleWalletLife.

(** ** Accounts of the simple wallet *)

Section SimpleWalletAccounts.
Context `{!wallet.Env}.
Import wallet.

Lemma Derive_unlocked h w index now :
  isLocked w = false →
  let k := fresh (dom (keys h)) in
  let a := fresh (dom (accts h)) in
  let key := derived_key (read_slice h (seed w)) (base_path index) in
  let address := pubkeyToAddress (key_X key) (key_Y key) in
  Derive h w index now =
    ({| slices := slices h; keys := <[k := key]> (keys h);
        accts := <[a := {| Address_ := address;
                           Path := formatDerivationPath (base_path index);
                           Index := index; PrivateKey := Some k; PublicKey := Some k;
                           CreatedAt := now |}]> (accts h) |},
     {| mnemonic := mnemonic w; seed := seed w; masterKey := masterKey w;
        accounts := <[address := a]> (accounts w);
        paths := <[address := base_path index]> (paths w);
        isLocked := false |},
     Ok a).
Proof.
  intros Hl. unfold Derive. rewrite Hl. simpl. rewrite lookup_insert_eq. reflexivity.
Qed.

Lemma Derive_Ok_unlocked h w index now h' w' a :
  Derive h w index now = (h', w', Ok a) → isLocked w = false.
Proof.
  unfold Derive. destruct (isLocked w); [intros [=]|done].
Qed.

Lemma Derive_effect h w index now h' w' a :
  Derive h w index now = (h', w', Ok a) →
  let key := derived_key (read_slice h (seed w)) (base_path index) in
  let address := pubkeyToAddress (key_X key) (key_Y key) in
  ∃ k,
    accts h !! a = None ∧ keys h !! k = None
    ∧ accts h' = <[a := {| Address_ := address;
                           Path := formatDerivationPath (base_path index);
                           Index := index; PrivateKey := Some k; PublicKey := Some k;
                           CreatedAt := now |}]> (accts h)
    ∧ keys h' = <[k := key]> (keys h)
    ∧ slices h' = slices h
    ∧ accounts w' = <[address := a]> (accounts w)
    ∧ paths w' = <[address := base_path index]> (paths w)
    ∧ seed w' = seed w ∧ isLocked w' = false
    ∧ mnemonic w' = mnemonic w ∧ masterKey w' = masterKey w.
Proof.
  intros HD. pose proof (Derive_Ok_unlocked _ _ _ _ _ _ _ HD) as Hl.
  rewrite (Derive_unlocked h w index now Hl) in HD. cbv zeta in HD.
  injection HD as <- <- <-. cbv zeta. eexists. cbn.
  split_and!; try done; apply not_elem_of_dom, is_fresh.
Qed.

Lemma cleanup_heap h w :
  ∃ h0, (cleanup h w).1 = foldl clear_account h0 (Accounts w)
        ∧ keys h0 = keys h ∧ accts h0 = accts h.
Proof.
  unfold cleanup. destruct (seed w) as [l|]; cbn [fst snd]; by eexists.
Qed.

Lemma formatDerivationPath_base (index : Z) :
  formatDerivationPath (base_path index) =
    ("m/44'/60'/0'/0/" +:+
       (if (0x80000000 <=? index)%Z then pretty (index - 0x80000000)%Z +:+ "'"
        else pretty index))%string.
Proof.
  unfold formatDerivationPath.
  change (Nat.eqb (length (base_path index)) 0%nat) with false. cbv iota.
  unfold base_path.
  change [0x8000002C; 0x8000003C; 0x80000000; 0; index]
    with ([0x8000002C; 0x8000003C; 0x80000000; 0] ++ [index]).
  rewrite fold_left_app.
  match goal with
  | |- context [fold_left ?f [0x8000002C; 0x8000003C; 0x80000000; 0] ?s] =>
      replace (fold_left f [0x8000002C; 0x8000003C; 0x80000000; 0] s)
        with "m/44'/60'/0'/0"%string by (vm_compute; reflexivity)
  end.
  cbn [fold_left]. by destruct (0x80000000 <=? index).
Qed.

Lemma pubkeyToAddress_length (X Y : Z) : length (pubkeyToAddress X Y) = 20%nat.
Proof. unfold pubkeyToAddress. by rewrite copy_length. Qed.

(** X5. On an unlocked wallet [Derive(index)] allocates a new key object and
    a new account object and records the account under its address: the
    address has 20 bytes, the recorded path is [m/44'/60'/0'/0/index], printed
    with a hardening mark when the index has its top bit set, the account
    and path maps keep their entries at every other address, and nothing
    else of the heap or of the wallet changes. *)
Theorem Derive_stores_account h w index now :
  isLocked w = false →
  let key := derived_key (read_slice h (seed w)) (DefaultRootDerivationPath ++ [index]) in
  let address := pubkeyToAddress (key_X key) (key_Y key) in
  ∃ h' w' a k,
    Derive h w index now = (h', w', Ok a)
    ∧ accts h !! a = None ∧ keys h !! k = None
    ∧ accts h' !! a =
        Some {| Address_ := address;
                Path := ("m/44'/60'/0'/0/" +:+
                          (if (0x80000000 <=? index)%Z
                           then pretty (index - 0x80000000)%Z +:+ "'"
                           else pretty index))%string;
                Index := index; PrivateKey := Some k; PublicKey := Some k;
                CreatedAt := now |}
    ∧ keys h' !! k = Some key
    ∧ length address = 20%nat
    ∧ accounts w' !! address = Some a
    ∧ paths w' !! address = Some (DefaultRootDerivationPath ++ [index])
    ∧ (∀ addr, addr ≠ address →
         accounts w' !! addr = accounts w !! addr ∧ paths w' !! addr = paths w !! addr)
    ∧ (∀ a', a' ≠ a → accts h' !! a' = accts h !! a')
    ∧ (∀ k', k' ≠ k → keys h' !! k' = keys h !! k')
    ∧ slices h' = slices h
    ∧ seed w' = seed w ∧ mnemonic w' = mnemonic w ∧ masterKey w' = masterKey w.
Proof.
  intros Hl key address.
  eexists _, _, _, _. split; [apply (Derive_unlocked h w index now Hl)|].
  simpl. split_and!.
  - apply not_elem_of_dom, is_fresh.
  - apply not_elem_of_dom, is_fresh.
  - rewrite lookup_insert_eq. by rewrite formatDerivationPath_base.
  - by rewrite lookup_insert_eq.
  - apply pubkeyToAddress_length.
  - by rewrite lookup_insert_eq.
  - by rewrite lookup_insert_eq.
  - intros addr Hne. by rewrite !lookup_insert_ne.
  - intros a' Hne. by rewrite lookup_insert_ne.
  - intros k' Hne. by rewrite lookup_insert_ne.
  - done.
  - done.
  - done.
  - done.
Qed.

(** X6. [Close] does not lock the wallet: [Derive] on a closed wallet still
    succeeds, and hashes the path after an empty seed. Every closed wallet
    therefore derives, at a given index, the same address and key, whatever
    mnemonic or seed it was built from. *)
Theorem Derive_after_Close h1 w1 h2 w2 index now1 now2 :
  isLocked w1 = false → isLocked w2 = false →
  let c1 := (Close h1 w1).1 in
  let c2 := (Close h2 w2).1 in
  let key := derived_key [] (base_path index) in
  derive_view c1.1 c1.2 index now1 = Some (pubkeyToAddress (key_X key) (key_Y key), key)
  ∧ derive_view c1.1 c1.2 index now1 = derive_view c2.1 c2.2 index now2.
Proof.
  intros L1 L2 c1 c2 key.
  assert (Hc : ∀ h w now, isLocked w = false →
            derive_view (Close h w).1.1 (Close h w).1.2 index now
            = Some (pubkeyToAddress (key_X key) (key_Y key), key)).
  { intros h w now L. unfold Close. cbn [fst snd].
    rewrite derive_view_eq by (by rewrite cleanup_wallet).
    by rewrite cleanup_wallet. }
  unfold c1, c2. by rewrite !Hc.
Qed.

(** X7. The account map has one slot per address, so deriving an index a
    second time replaces the stored account by a new object with a new key
    object. [Close] visits only the stored one: the first account keeps its
    private key pointer and that key keeps its scalar [D]. *)
Theorem Derive_again_orphans_key h w index t1 t2 h1 w1 a1 h2 w2 a2 :
  accounts w = ∅ →
  Derive h w index t1 = (h1, w1, Ok a1) →
  Derive h1 w1 index t2 = (h2, w2, Ok a2) →
  let h3 := (Close h2 w2).1.1 in
  a1 ≠ a2
  ∧ Accounts w2 = [a2]
  ∧ niled h3 a2
  ∧ ∃ account k,
      accts h3 !! a1 = Some account
      ∧ PrivateKey account = Some k
      ∧ keys h3 !! k = Some (derived_key (read_slice h (seed w)) (base_path index)).
Proof.
  intros Hempty H1 H2 h3.
  destruct (Derive_seed _ _ _ _ _ _ _ H1) as [Hseed _].
  apply Derive_effect in H1 as (k1 & F1 & G1 & A1 & K1 & _ & W1 & _).
  apply Derive_effect in H2 as (k2 & F2 & G2 & A2 & K2 & _ & W2 & _).
  rewrite Hseed in A2, K2, W2.
  set (key := derived_key (read_slice h (seed w)) (base_path index)) in *.
  set (address := pubkeyToAddress (key_X key) (key_Y key)) in *.
  assert (Ha : a1 ≠ a2).
  { intros <-. rewrite A1, lookup_insert_eq in F2. discriminate. }
  assert (Hk : k1 ≠ k2).
  { intros <-. rewrite K1, lookup_insert_eq in G2. discriminate. }
  assert (Hacc : Accounts w2 = [a2]).
  { unfold Accounts. rewrite W2, W1, Hempty, insert_insert_eq.
    rewrite insert_empty, map_to_list_singleton. done. }
  destruct (cleanup_heap h2 w2) as (h0 & Hc & Hk0 & Ha0).
  split_and!; [done|exact Hacc| |].
  - unfold h3, Close. cbn [fst snd]. rewrite Hc.
    apply foldl_clear_all_niled. rewrite Hacc. apply elem_of_cons; by left.
  - unfold h3, Close. cbn [fst snd]. rewrite Hc, Hacc.
    simpl. unfold clear_account. rewrite Ha0, A2, lookup_insert_eq. simpl.
    exists {| Address_ := address; Path := formatDerivationPath (base_path index);
              Index := index; PrivateKey := Some k1; PublicKey := Some k1;
              CreatedAt := t1 |}, k1.
    rewrite !lookup_insert_ne by done. rewrite lookup_alter_ne by done.
    rewrite Hk0, A1, K2, K1. rewrite lookup_insert_eq.
    rewrite lookup_insert_ne by done. rewrite lookup_insert_eq. done.
Qed.

End SimpleWalletAccounts.

(** ** Big-endian integers *)

Lemma SetBytes_snoc (b : list Z) (x : Z) : SetBytes (b ++ [x]) = SetBytes b * 256 + x.
Proof. unfold SetBytes. by rewrite fold_left_app. Qed.

Lemma SetBytes_be_bytes (n : nat) (x : Z) :
  SetBytes (be_bytes n x) = x mod 256 ^ Z.of_nat n.
Proof.
  revert x. induction n as [|n IH]; intros x.
  - simpl. by rewrite Z.mod_1_r.
  - cbn [be_bytes]. rewrite SetBytes_snoc, IH.
    rewrite Nat2Z.inj_succ, Z.pow_succ_r by lia.
    rewrite (Z.rem_mul_r x 256 (256 ^ Z.of_nat n)) by lia. lia.
Qed.

Lemma SetBytes_nonneg (b : list Z) : Forall is_byte b → 0 ≤ SetBytes b.
Proof.
  induction b as [|x b IH] using rev_ind; intros Hb; [done|].
  apply Forall_app in Hb as [Hb Hx]. inversion Hx as [|? ? Hx0 _]; subst.
  rewrite SetBytes_snoc. specialize (IH Hb). unfold is_byte in Hx0. lia.
Qed.

Lemma SetBytes_bound (b : list Z) :
  Forall is_byte b → SetBytes b < 256 ^ Z.of_nat (length b).
Proof.
  induction b as [|x b IH] using rev_ind; intros Hb; [done|].
  apply Forall_app in Hb as [Hb Hx]. inversion Hx as [|? ? Hx0 _]; subst.
  rewrite SetBytes_snoc, length_app. simpl.
  replace (Z.of_nat (length b + 1)) with (Z.succ (Z.of_nat (length b))) by lia.
  rewrite Z.pow_succ_r by lia. specialize (IH Hb). unfold is_byte in Hx0. lia.
Qed.

Lemma big_BitLen_bound (x : Z) : 0 ≤ x → x < 2 ^ big_BitLen x.
Proof.
  intros Hx. unfold big_BitLen. destruct (x <=? 0) eqn:Hz.
  - apply Z.leb_le in Hz. simpl. lia.
  - apply Z.leb_gt in Hz. replace (Z.log2 x + 1) with (Z.succ (Z.log2 x)) by lia.
    apply Z.log2_spec. lia.
Qed.

Lemma big_BitLen_nonneg (x : Z) : 0 ≤ big_BitLen x.
Proof.
  unfold big_BitLen. destruct (x <=? 0); [done|]. pose proof (Z.log2_nonneg x). lia.
Qed.

Lemma byte_len_bound (x : Z) : 0 ≤ x → x < 256 ^ Z.of_nat (byte_len x).
Proof.
  intros Hx. unfold byte_len. pose proof (big_BitLen_nonneg x) as Hb.
  rewrite Z2Nat.id by (apply Z.div_pos; lia).
  change 256 with (2 ^ 8). rewrite <- Z.pow_mul_r by (try apply Z.div_pos; lia).
  eapply Z.lt_le_trans; [by apply big_BitLen_bound|].
  apply Z.pow_le_mono_r; [lia|].
  pose proof (Z.div_mod (big_BitLen x + 7) 8 ltac:(lia)).
  pose proof (Z.mod_pos_bound (big_BitLen x + 7) 8 ltac:(lia)). lia.
Qed.

Lemma SetBytes_big_Bytes (x : Z) : 0 ≤ x → SetBytes (big_Bytes x) = x.
Proof.
  intros Hx. unfold big_Bytes. rewrite SetBytes_be_bytes.
  apply Z.mod_small. split; [done|]. by apply byte_len_bound.
Qed.

Lemma head_be_bytes (n : nat) (x : Z) :
  head (be_bytes (S n) x) = Some ((x / 256 ^ Z.of_nat n) mod 256).
Proof.
  revert x. induction n as [|n IH]; intros x.
  - simpl. by rewrite Z.div_1_r.
  - change (be_bytes (S (S n)) x) with (be_bytes (S n) (x / 256) ++ [x mod 256]).
    specialize (IH (x / 256)).
    destruct (be_bytes (S n) (x / 256)) as [|y l] eqn:Hb; [discriminate|].
    cbn [head app] in *. rewrite IH. f_equal.
    assert (0 < 256 ^ Z.of_nat n) by (apply Z.pow_pos_nonneg; lia).
    rewrite Z.div_div by lia.
    by rewrite Nat2Z.inj_succ, Z.pow_succ_r by lia.
Qed.

Lemma big_BitLen_lower (x : Z) : 0 < x → 2 ^ (big_BitLen x - 1) ≤ x.
Proof.
  intros Hx. unfold big_BitLen. destruct (x <=? 0) eqn:Hz; [apply Z.leb_le in Hz; lia|].
  replace (Z.log2 x + 1 - 1) with (Z.log2 x) by lia. apply Z.log2_spec. lia.
Qed.

Lemma head_big_Bytes (x : Z) : 0 ≤ x → head (big_Bytes x) ≠ Some 0.
Proof.
  intros Hx. unfold big_Bytes. fold (byte_len x).
  destruct (byte_len x) as [|n] eqn:Hn; [done|].
  rewrite head_be_bytes. intros [= Hh].
  assert (Hpos : 0 < x).
  { destruct (decide (x = 0)) as [->|]; [discriminate Hn|lia]. }
  pose proof (byte_len_bound x Hx) as Hup. rewrite Hn in Hup.
  rewrite Nat2Z.inj_succ, Z.pow_succ_r in Hup by lia.
  assert (Hlow : 256 ^ Z.of_nat n ≤ x).
  { eapply Z.le_trans; [|by apply big_BitLen_lower].
    change 256 with (2 ^ 8). rewrite <- Z.pow_mul_r by lia.
    apply Z.pow_le_mono_r; [lia|].
    unfold byte_len in Hn.
    assert (Hq : (big_BitLen x + 7) / 8 = Z.of_nat (S n)).
    { rewrite <- Hn. rewrite Z2Nat.id; [done|].
      apply Z.div_pos; [pose proof (big_BitLen_nonneg x)|]; lia. }
    pose proof (Z.div_mod (big_BitLen x + 7) 8 ltac:(lia)).
    pose proof (Z.mod_pos_bound (big_BitLen x + 7) 8 ltac:(lia)). lia. }
  assert (Hp : 0 < 256 ^ Z.of_nat n) by (apply Z.pow_pos_nonneg; lia).
  assert (1 ≤ x / 256 ^ Z.of_nat n) by (apply Z.div_le_lower_bound; lia).
  assert (x / 256 ^ Z.of_nat n < 256) by (apply Z.div_lt_upper_bound; lia).
  rewrite Z.mod_small in Hh by lia. lia.
Qed.

Section SimpleWalletKeys.
Context `{!wallet.Env}.
Import wallet.

(** X8. After [Derive], [GetPrivateKeyHex] of the new address returns the
    hexadecimal digits of [D.Bytes()], the big-endian bytes of the scalar
    without leading zero bytes: decoding the string and reading the bytes as
    a big-endian integer gives [D] back, and the string is as long as the
    scalar needs, not a fixed 64 digits. *)
Theorem GetPrivateKeyHex_round_trip h w index now h' w' a :
  (∀ x, Forall is_byte (Sum256 x)) →
  Derive h w index now = (h', w', Ok a) →
  let key := derived_key (read_slice h (seed w)) (base_path index) in
  let address := pubkeyToAddress (key_X key) (key_Y key) in
  ∃ hex bs,
    GetPrivateKeyHex h' w' address = Ok hex
    ∧ DecodeString hex = Some bs
    ∧ SetBytes bs = key_D key
    ∧ String.length hex = (2 * length bs)%nat
    ∧ head bs ≠ Some 0
    ∧ length bs = Z.to_nat ((big_BitLen (key_D key) + 7) / 8).
Proof.
  intros Hbytes HD key address.
  apply Derive_effect in HD as (k & _ & _ & HA & HK & _ & HW & _ & _ & HL & _).
  fold key in HA, HK, HW. fold address in HA, HW.
  assert (HDnn : 0 ≤ key_D key) by (apply SetBytes_nonneg, Hbytes).
  exists (EncodeToString (big_Bytes (key_D key))), (big_Bytes (key_D key)).
  split_and!.
  - unfold GetPrivateKeyHex. rewrite HW, lookup_insert_eq, HL, HA, lookup_insert_eq.
    cbn [PrivateKey]. by rewrite HK, lookup_insert_eq.
  - apply DecodeString_EncodeToString, be_bytes_is_byte.
  - by apply SetBytes_big_Bytes.
  - apply EncodeToString_length.
  - by apply head_big_Bytes.
  - apply be_bytes_length.
Qed.

Lemma stored_in_Accounts (w : SimpleWallet) (address : Address) (a : positive) :
  accounts w !! address = Some a → a ∈ Accounts w.
Proof.
  intros Hw. unfold Accounts. apply list_elem_of_fmap. exists (address, a).
  split; [done|]. by apply elem_of_map_to_list.
Qed.

(** X9. [Close] sets the private key pointer of every stored account to
    [nil] and neither removes the account nor locks the wallet, so on a
    closed wallet [GetPrivateKeyHex] of a stored address dereferences the
    [nil] pointer and panics; an address that was never derived gives
    [ErrAccountNotFound]. *)
Theorem GetPrivateKeyHex_after_Close h w address :
  isLocked w = false →
  GetPrivateKeyHex (Close h w).1.1 (Close h w).1.2 address =
    match accounts w !! address with
    | Some _ => Err Panic
    | None => Err ErrAccountNotFound
    end.
Proof.
  intros Hl. unfold Close. cbn [fst snd]. unfold GetPrivateKeyHex.
  rewrite cleanup_wallet. cbn [accounts isLocked]. rewrite Hl.
  destruct (accounts w !! address) as [a|] eqn:Hw; [|done].
  apply stored_in_Accounts in Hw.
  destruct (cleanup_heap h w) as (h0 & -> & _ & _).
  pose proof (foldl_clear_all_niled h0 _ _ Hw) as Hn. unfold niled in Hn.
  destruct (accts (foldl clear_account h0 (Accounts w)) !! a) as [account|]; [|done].
  by rewrite (Hn account eq_refl).
Qed.

Lemma clear_account_PublicKey h b a :
  PublicKey <$> accts (clear_account h b) !! a = PublicKey <$> accts h !! a.
Proof.
  unfold clear_account. destruct (accts h !! b) as [account|] eqn:Hb; [|done].
  destruct (PrivateKey account); [|done]. simpl.
  destruct (decide (a = b)) as [->|Hne].
  - by rewrite lookup_insert_eq, Hb.
  - by rewrite lookup_insert_ne.
Qed.

Lemma foldl_clear_PublicKey h l a :
  PublicKey <$> accts (foldl clear_account h l) !! a = PublicKey <$> accts h !! a.
Proof.
  revert h. induction l as [|b l IH]; intros h; [done|].
  simpl. rewrite IH. apply clear_account_PublicKey.
Qed.

Lemma GetPublicKeyHex_frame h1 w1 h2 w2 address :
  accounts w1 = accounts w2 →
  (∀ a, PublicKey <$> accts h1 !! a = PublicKey <$> accts h2 !! a) →
  (∀ k, (fun obj => (key_X obj, key_Y obj)) <$> keys h1 !! k
        = (fun obj => (key_X obj, key_Y obj)) <$> keys h2 !! k) →
  GetPublicKeyHex h1 w1 address = GetPublicKeyHex h2 w2 address.
Proof.
  intros Hw Ha Hk. unfold GetPublicKeyHex. rewrite Hw.
  destruct (accounts w2 !! address) as [a|]; [|done].
  specialize (Ha a).
  destruct (accts h1 !! a) as [acc1|], (accts h2 !! a) as [acc2|];
    simpl in Ha; try discriminate; [|done].
  injection Ha as ->.
  destruct (PublicKey acc2) as [k|]; [|done].
  specialize (Hk k).
  destruct (keys h1 !! k) as [k1|], (keys h2 !! k) as [k2|];
    simpl in Hk; try discriminate; [|done].
  injection Hk as -> ->. done.
Qed.

(** X10. [Close] clears only the secret scalar: [GetPublicKeyHex] gives the
    same answer on the closed wallet as before. When it returns a string,
    this has 128 digits and decodes to the coordinates [X] and [Y] on 32
    bytes each, the byte [0x04] of the point encoding being cut off. *)
Theorem GetPublicKeyHex_survives_Close h w address :
  GetPublicKeyHex (Close h w).1.1 (Close h w).1.2 address = GetPublicKeyHex h w address
  ∧ (∀ hex, GetPublicKeyHex h w address = Ok hex →
       String.length hex = 128%nat
       ∧ ∃ a account k key,
           accounts w !! address = Some a ∧ accts h !! a = Some account
           ∧ PublicKey account = Some k ∧ keys h !! k = Some key
           ∧ DecodeString hex = Some (be_bytes 32 (key_X key) ++ be_bytes 32 (key_Y key))).
Proof.
  split.
  - unfold Close. cbn [fst snd]. apply GetPublicKeyHex_frame.
    + by rewrite cleanup_wallet.
    + intros a. destruct (cleanup_heap h w) as (h0 & -> & _ & <-).
      apply foldl_clear_PublicKey.
    + intros k. destruct (cleanup_heap h w) as (h0 & -> & <- & _).
      apply foldl_clear_keys_frame.
  - intros hex. unfold GetPublicKeyHex.
    destruct (accounts w !! address) as [a|] eqn:Hw; [|intros [=]].
    destruct (accts h !! a) as [account|] eqn:Ha; [|intros [=]].
    destruct (PublicKey account) as [k|] eqn:Hk; [|intros [=]].
    destruct (keys h !! k) as [key|] eqn:Hkey; [|intros [=]].
    cbv zeta.
    set (s := EncodeToString (drop 1 (Marshal (key_X key) (key_Y key)))).
    assert (Hs : String.length s = 128%nat
                 ∧ DecodeString s
                   = Some (be_bytes 32 (key_X key) ++ be_bytes 32 (key_Y key))).
    { unfold s.
      change (drop 1 (Marshal (key_X key) (key_Y key)))
        with (be_bytes 32 (key_X key) ++ be_bytes 32 (key_Y key)).
      split.
      - rewrite EncodeToString_length, length_app, !be_bytes_length. reflexivity.
      - apply DecodeString_EncodeToString. apply Forall_app.
        split; apply be_bytes_is_byte. }
    clearbody s. intros Heq. assert (Hhex : hex = s) by congruence. subst hex.
    split; [apply Hs|]. exists a, account, k, key.
    split; [reflexivity|]. split; [exact Ha|]. split; [exact Hk|].
    split; [exact Hkey|]. apply Hs.
Qed.

Lemma run_call_fields (hw : Heap * SimpleWallet) (c : call) :
  mnemonic (run_call hw c).2 = mnemonic hw.2
  ∧ masterKey (run_call hw c).2 = masterKey hw.2
  ∧ isLocked (run_call hw c).2 = isLocked hw.2.
Proof.
  destruct c as [index now|]; cbn [run_call].
  - unfold Derive. by destruct (isLocked hw.2) eqn:Hl.
  - unfold Close. cbn [fst snd]. by rewrite cleanup_wallet.
Qed.

Lemma run_calls_fields (hw : Heap * SimpleWallet) (cs : list call) :
  mnemonic (foldl run_call hw cs).2 = mnemonic hw.2
  ∧ masterKey (foldl run_call hw cs).2 = masterKey hw.2
  ∧ isLocked (foldl run_call hw cs).2 = isLocked hw.2.
Proof.
  revert hw. induction cs as [|c cs IH]; intros hw; [done|].
  simpl. destruct (IH (run_call hw c)) as (-> & -> & ->). apply run_call_fields.
Qed.

(** X11. No call locks a wallet and [Close] clears neither the mnemonic nor
    the master key: after any sequence of [Derive] and [Close] calls on a
    wallet built by [NewFromMnemonic], [GetMnemonic] still returns the
    phrase, the status is [Unlocked], the master key is the one drawn at
    construction, and [Derive] returns an account. *)
Theorem Close_keeps_mnemonic h m cfg k h' w (cs : list call) :
  NewFromMnemonic h m cfg (Some k) = (h', Ok w) →
  let hw := foldl run_call (h', w) cs in
  GetMnemonic hw.2 = Ok m
  ∧ Status hw.2 = "Unlocked"%string
  ∧ masterKey hw.2 = k
  ∧ ∀ index now, ∃ a, (Derive hw.1 hw.2 index now).2 = Ok a.
Proof.
  intros Hnew hw.
  destruct (run_calls_fields (h', w) cs) as (Hm & Hk & Hl). fold hw in Hm, Hk, Hl.
  cbn [snd] in Hm, Hk, Hl.
  apply NewFromMnemonic_seed in Hnew as Hw. destruct Hw as (_ & _ & _ & Hl0 & Hm0).
  assert (Hk0 : masterKey w = k).
  { unfold NewFromMnemonic in Hnew.
    destruct (validateMnemonic m); simpl in Hnew; [|discriminate].
    rewrite generateSeedFromMnemonic_length in Hnew. simpl in Hnew.
    unfold newWallet in Hnew. by injection Hnew as <- <-. }
  unfold GetMnemonic, Status. rewrite Hl, Hl0, Hm, Hm0, Hk, Hk0.
  split_and!; try done.
  intros index now. eexists.
  rewrite (Derive_unlocked hw.1 hw.2 index now) by congruence. reflexivity.
Qed.

(** X12. When a read of the random source fails, [GenerateMnemonic] returns
    the wrapped error of that read and no phrase, whatever the earlier reads
    gave. *)
Theorem GenerateMnemonic_rand_failure (entropyBits : Z) (rnd : nat → option (Z * Z))
    (n i : nat) :
  length BIP39WordList = 2048%nat →
  wordCount_of entropyBits = Some n →
  (i < n)%nat → rnd i = None →
  GenerateMnemonic entropyBits rnd = Err (ErrWrapped "failed to generate random bytes").
Proof.
  intros Hlen Hwc Hi Hrnd.
  assert (Hgen : ∀ n i0, (i0 ≤ i < i0 + n)%nat →
            gen_words rnd i0 n = Err (ErrWrapped "failed to generate random bytes")).
  { clear n Hwc Hi. induction n as [|n IH]; intros i0 Hr; [lia|].
    cbn [gen_words]. destruct (decide (i0 = i)) as [->|Hne].
    - by rewrite Hrnd.
    - destruct (rnd i0) as [[b0 b1]|] eqn:Hr0; [|done].
      destruct (pick_word_ok b0 b1 Hlen) as (wd & -> & _). simpl.
      rewrite IH by lia. done. }
  unfold GenerateMnemonic.
  assert (Hbits : entropyBits ∈ [128; 160; 192; 224; 256]).
  { unfold wordCount_of in Hwc.
    repeat (match type of Hwc with
            | match ?x with _ => _ end = _ => destruct x; try discriminate
            end); set_solver. }
  destruct (wordCount_of_valid entropyBits Hbits) as [_ ->].
  rewrite Hwc. rewrite Hgen by lia. done.
Qed.

End SimpleWalletKeys.

(** ** Paths and addresses of the simple wallet *)

Lemma string_length_app (a b : string) :
  String.length (a +:+ b) = (String.length a + String.length b)%nat.
Proof.
  induction a as [|c a IH]; [done|].
  rewrite string_app_cons. cbn [String.length]. by rewrite IH.
Qed.

Section SimpleWalletPaths.
Context `{!wallet.Env}.
Import wallet.

Lemma pathBytes_be_bytes (c : Z) : pathBytes c = be_bytes 4 c.
Proof.
  unfold pathBytes, to_byte. rewrite !Z.shiftr_div_pow2 by lia.
  cbn [be_bytes app].
  rewrite !Z.div_div by lia. reflexivity.
Qed.

Lemma pathBytes_inj (c1 c2 : Z) :
  uint32 c1 → uint32 c2 → pathBytes c1 = pathBytes c2 → c1 = c2.
Proof.
  unfold uint32. intros H1 H2 Heq. rewrite !pathBytes_be_bytes in Heq.
  apply (f_equal SetBytes) in Heq. rewrite !SetBytes_be_bytes in Heq.
  change (256 ^ Z.of_nat 4) with (2 ^ 32) in Heq.
  by rewrite !Z.mod_small in Heq by done.
Qed.

(** X13. [derivePrivateKey] hashes the seed followed by four big-endian
    bytes per path component, so for one seed two different paths of
    [uint32] components never give the same hash input. *)
Theorem pathBytes_injective (seedBytes : list Z) (p1 p2 : DerivationPath) :
  Forall uint32 p1 → Forall uint32 p2 →
  seedBytes ++ flat_map pathBytes p1 = seedBytes ++ flat_map pathBytes p2 →
  p1 = p2.
Proof.
  intros H1 H2 Heq. apply app_inv_head in Heq.
  revert p2 H2 Heq. induction H1 as [|c1 p1 Hc1 _ IH]; intros p2 H2 Heq.
  - destruct p2 as [|c2 p2]; [done|]. discriminate Heq.
  - destruct H2 as [|c2 p2 Hc2 H2]; [discriminate Heq|].
    cbn [flat_map] in Heq.
    apply app_inj_1 in Heq as [Hc Hp]; [|done].
    f_equal; [by apply pathBytes_inj|by apply IH].
Qed.

Lemma format_length (p : DerivationPath) (acc : string) :
  Nat.le (Nat.add (String.length acc) (length p))
    (String.length
       (fold_left
          (fun result component =>
             if 0x80000000 <=? component
             then result +:+ "/" +:+ pretty (component - 0x80000000) +:+ "'"
             else result +:+ "/" +:+ pretty component)
          p acc)).
Proof.
  revert acc. induction p as [|c p IH]; intros acc; [simpl; lia|].
  cbn [fold_left length]. etransitivity; [|apply IH].
  destruct (0x80000000 <=? c); rewrite !string_length_app; simpl; lia.
Qed.

Lemma formatDerivationPath_not_root (p : DerivationPath) :
  p ≠ [] → formatDerivationPath p ≠ "m"%string ∧ formatDerivationPath p ≠ EmptyString.
Proof.
  intros Hp. unfold formatDerivationPath.
  destruct p as [|c p]; [done|]. cbn [length Nat.eqb].
  pose proof (format_length (c :: p) "m") as Hlen.
  cbn [length String.length] in Hlen.
  split; intros Heq; rewrite Heq in Hlen; simpl in Hlen; lia.
Qed.

(** X14. [ParseDerivationPath] never fails and only ever returns the empty
    path or [m/44'/60'/0'/0/0]: it reads nothing of its argument beyond
    whether it is ["m"] or empty. Parsing the string [formatDerivationPath]
    printed gives the path back only for those two paths; the index of
    every other derived account is lost. [StrictParseDerivationPath]
    therefore never panics. *)
Theorem ParseDerivationPath_forgets_index (p : DerivationPath) :
  ParseDerivationPath (formatDerivationPath p)
    = Ok (if bool_decide (p = []) then [] else DefaultBaseDerivationPath)
  ∧ (ParseDerivationPath (formatDerivationPath p) = Ok p
     ↔ p = [] ∨ p = DefaultBaseDerivationPath)
  ∧ (∀ s, ∃ q, ParseDerivationPath s = Ok q ∧ StrictParseDerivationPath s = Ok q
              ∧ (q = [] ∨ q = DefaultBaseDerivationPath)).
Proof.
  assert (H1 : ParseDerivationPath (formatDerivationPath p)
               = Ok (if bool_decide (p = []) then [] else DefaultBaseDerivationPath)).
  { destruct (decide (p = [])) as [->|Hp]; [done|].
    rewrite bool_decide_eq_false_2 by done.
    destruct (formatDerivationPath_not_root p Hp) as [Hm He].
    unfold ParseDerivationPath.
    by rewrite !bool_decide_eq_false_2 by done. }
  split_and!.
  - exact H1.
  - rewrite H1. destruct (decide (p = [])) as [->|Hp].
    + split; [by left|done].
    + rewrite bool_decide_eq_false_2 by done. split.
      * intros [= <-]. by right.
      * intros [?| ->]; done.
  - intros s. unfold StrictParseDerivationPath, ParseDerivationPath.
    destruct (bool_decide (s = "m"%string) || bool_decide (s = EmptyString));
      eexists; split_and!; try reflexivity; [by left|by right].
Qed.

Lemma copy_is_byte (dst src : list Z) :
  Forall is_byte dst → Forall is_byte src → Forall is_byte (copy dst src).
Proof.
  intros Hd Hs. unfold copy. apply Forall_app. split.
  - by apply Forall_take.
  - by apply Forall_drop.
Qed.

Lemma EncodeToString_inj (a b : list Z) :
  Forall is_byte a → Forall is_byte b → EncodeToString a = EncodeToString b → a = b.
Proof.
  intros Ha Hb Heq. apply (f_equal DecodeString) in Heq.
  rewrite !DecodeString_EncodeToString in Heq by done. congruence.
Qed.

(** X15. [Address.Hex] of an address of bytes is ["0x"] followed by two
    digits per byte: the address of a derived account prints as 42
    characters, the digits decode to the address, and two addresses with the
    same string are equal. *)
Theorem Hex_round_trip (a : Address) :
  Forall is_byte a →
  String.length (Hex a) = (2 + 2 * length a)%nat
  ∧ DecodeString (drop_string 2 (Hex a)) = Some a
  ∧ (∀ b, Forall is_byte b → Hex a = Hex b → a = b)
  ∧ ((∀ x, Forall is_byte (Sum256 x)) →
     ∀ X Y, Forall is_byte (pubkeyToAddress X Y)
            ∧ String.length (Hex (pubkeyToAddress X Y)) = 42%nat).
Proof.
  intros Ha. unfold Hex.
  change ("0x" +:+ EncodeToString a)
    with (String "0" (String "x" (EncodeToString a))).
  split_and!.
  - cbn [String.length]. by rewrite EncodeToString_length.
  - cbn [drop_string]. by apply DecodeString_EncodeToString.
  - intros b Hb Heq.
    change ("0x" +:+ EncodeToString b)
      with (String "0" (String "x" (EncodeToString b))) in Heq.
    injection Heq as Heq. by apply EncodeToString_inj.
  - intros Hbytes X Y.
    assert (Hb : Forall is_byte (pubkeyToAddress X Y)).
    { unfold pubkeyToAddress. apply copy_is_byte.
      - unfold make_bytes. apply Forall_replicate. unfold is_byte. lia.
      - apply Forall_drop, Hbytes. }
    split; [exact Hb|].
    change ("0x" +:+ EncodeToString (pubkeyToAddress X Y))
      with (String "0" (String "x" (EncodeToString (pubkeyToAddress X Y)))).
    cbn [String.length]. rewrite EncodeToString_length, pubkeyToAddress_length. done.
Qed.

End SimpleWalletPaths.

(** ** Registry, signer and key accessors of [hdwallet] *)

Section HDWalletRegistry.
Context `{!hdwallet.Env}.
Import hdwallet.

Lemma paths_ok_masterKey (w w' : Wallet) :
  masterKey w' = masterKey w →
  (∀ a p, paths w' !! a = Some p → deriveAddress w p = Ok a) → paths_ok w'.
Proof.
  intros Hm Hp a p Hap. rewrite (deriveAddress_masterKey w' w) by done. by apply Hp.
Qed.

Lemma Derive_paths_ok w path pin : paths_ok w → paths_ok (Derive w path pin).1.
Proof.
  intros Hok. apply (paths_ok_masterKey w); [apply Derive_masterKey|].
  unfold Derive. destruct (deriveAddress w path) as [address|] eqn:Ha; [|apply Hok].
  destruct pin; cbn [negb]; [|apply Hok].
  destruct (paths w !! address) eqn:Hp; [apply Hok|].
  cbn [fst set_registry paths]. intros a p Hap.
  apply lookup_insert_Some in Hap as [[<- <-]|[_ Hap]]; [done|by apply Hok].
Qed.

Lemma Unpin_paths_ok w account : paths_ok w → paths_ok (Unpin w account).1.
Proof.
  intros Hok. apply (paths_ok_masterKey w); [apply Unpin_masterKey|].
  unfold Unpin. destruct (unpin_index (accounts w) account); [|apply Hok].
  cbn [fst set_registry paths]. intros a p Hap.
  apply lookup_delete_Some in Hap as [_ Hap]. by apply Hok.
Qed.

Lemma registry_ok_length w : registry_ok w → length (accounts w) = size (paths w).
Proof.
  intros [Hnd Hdom]. rewrite <- size_dom. unfold size, set_size. simpl.
  rewrite <- (length_fmap Address_). apply Permutation_length.
  apply NoDup_Permutation; [done|apply NoDup_elements|].
  intros a. unfold addresses in Hdom. rewrite Hdom, elem_of_elements, elem_of_dom. done.
Qed.

Section Ops.
Hypothesis String_inj : ∀ a b : Address, Address_String a = Address_String b → a = b.

Lemma run_op_inv (w : Wallet) (o : op) :
  registry_ok w ∧ paths_ok w →
  registry_ok (run_op w o) ∧ paths_ok (run_op w o).
Proof.
  intros [Hr Hp]. destruct o as [path pin|account|passphrase|]; cbn [run_op].
  - split; [by apply Derive_ok|by apply Derive_paths_ok].
  - split; [by apply Unpin_ok|by apply Unpin_paths_ok].
  - done.
  - done.
Qed.

Lemma run_ops_inv (w : Wallet) (ops : list op) :
  registry_ok w ∧ paths_ok w →
  registry_ok (foldl run_op w ops) ∧ paths_ok (foldl run_op w ops).
Proof.
  revert w. induction ops as [|o ops IH]; intros w Hw; [done|].
  simpl. apply IH. by apply run_op_inv.
Qed.

End Ops.

Lemma run_op_fields (w : Wallet) (o : op) :
  masterKey (run_op w o) = masterKey w ∧ seed (run_op w o) = seed w
  ∧ mnemonic (run_op w o) = mnemonic w ∧ url (run_op w o) = url w.
Proof.
  destruct o as [path pin|account|passphrase|]; cbn [run_op]; [| |done|done].
  - unfold Derive. destruct (deriveAddress w path); [|done].
    destruct pin; [|done]. cbn [negb]. by destruct (paths w !! a).
  - unfold Unpin. by destruct (unpin_index (accounts w) account).
Qed.

Lemma run_ops_fields (w : Wallet) (ops : list op) :
  masterKey (foldl run_op w ops) = masterKey w ∧ seed (foldl run_op w ops) = seed w
  ∧ mnemonic (foldl run_op w ops) = mnemonic w ∧ url (foldl run_op w ops) = url w.
Proof.
  revert w. induction ops as [|o ops IH]; intros w; [done|].
  simpl. destruct (IH (run_op w o)) as (-> & -> & -> & ->). apply run_op_fields.
Qed.

Lemma paths_ok_empty (w : Wallet) : paths w = ∅ → paths_ok w.
Proof. intros Hp a p. by rewrite Hp, lookup_empty. Qed.

Lemma constructed_empty (w0 : Wallet) :
  (∃ sd, NewFromSeed sd = Ok w0) ∨ (∃ m, NewFromMnemonic m = Ok w0) →
  accounts w0 = [] ∧ paths w0 = ∅.
Proof.
  intros [[sd Hn]|[m Hn]].
  - apply NewFromSeed_new in Hn. unfold newWallet in Hn.
    destruct (NewMaster sd); simpl in Hn; [|discriminate]. by injection Hn as <-.
  - apply NewFromMnemonic_new in Hn as (sd & w1 & _ & Hn & _ & -> & ->).
    unfold newWallet in Hn.
    destruct (NewMaster sd); simpl in Hn; [|discriminate]. by injection Hn as <-.
Qed.

(** X16. Whatever sequence of [Derive], [Unpin], [Open] and [Close] calls is
    made on a wallet built by [NewFromSeed] or [NewFromMnemonic], the
    accounts list holds each pinned address once and exactly the addresses of
    the path index, every recorded path derives the address it is recorded
    under, [Accounts] is as long as the index is large, [Contains] agrees
    with the list, and master key, seed, mnemonic and URL are those of the
    construction. *)
Theorem registry_invariant (w0 : Wallet) (ops : list op) :
  (∀ a b : Address, Address_String a = Address_String b → a = b) →
  (∃ sd, NewFromSeed sd = Ok w0) ∨ (∃ m, NewFromMnemonic m = Ok w0) →
  let w := foldl run_op w0 ops in
  registry_ok w
  ∧ paths_ok w
  ∧ length (Accounts w) = size (paths w)
  ∧ (∀ account, Contains w account = true ↔ Address_ account ∈ Address_ <$> Accounts w)
  ∧ masterKey w = masterKey w0 ∧ seed w = seed w0
  ∧ mnemonic w = mnemonic w0 ∧ url w = url w0.
Proof.
  intros Hinj Hnew w.
  destruct (constructed_empty w0 Hnew) as [Ha Hp].
  destruct (run_ops_inv Hinj w0 ops) as [Hr Hpo].
  { split; [by apply registry_ok_empty|by apply paths_ok_empty]. }
  fold w in Hr, Hpo.
  destruct (run_ops_fields w0 ops) as (F1 & F2 & F3 & F4). fold w in F1, F2, F3, F4.
  split_and!; try done.
  - by apply registry_ok_length.
  - intros account. unfold Contains, Accounts.
    rewrite bool_decide_eq_true. destruct Hr as [_ Hdom]. by rewrite <- Hdom.
Qed.

Lemma unpin_index_last (l : list Account) (account : Account) :
  (∀ a b : Address, Address_String a = Address_String b → a = b) →
  Address_ account ∉ Address_ <$> l →
  unpin_index (l ++ [account]) account = Some (length l).
Proof.
  intros Hinj. induction l as [|acct l IH]; intros Hnot.
  - simpl. by rewrite bool_decide_eq_true_2.
  - rewrite fmap_cons in Hnot. apply not_elem_of_cons in Hnot as [Hne Hnot].
    cbn [app unpin_index]. rewrite bool_decide_eq_false_2.
    + rewrite IH by done. done.
    + intros Heq. apply Hinj in Heq. congruence.
Qed.

(** X17. Pinning an address that is not pinned and unpinning the returned
    account gives back the wallet exactly as it was, list order included;
    in between the account is contained, and after the [Unpin] signing with
    it fails with [ErrUnknownAccount]. *)
Theorem Derive_then_Unpin (w : Wallet) (path : DerivationPath) (account : Account) :
  (∀ a b : Address, Address_String a = Address_String b → a = b) →
  registry_ok w →
  (Derive w path true).2 = Ok account →
  Contains w account = false →
  let w1 := (Derive w path true).1 in
  Contains w1 account = true
  ∧ Accounts w1 = Accounts w ++ [account]
  ∧ Unpin w1 account = (w, None)
  ∧ ∀ hash, SignHash (Unpin w1 account).1 account hash = Err ErrUnknownAccount.
Proof.
  intros Hinj [Hnd Hdom] HD Hc w1. unfold w1. clear w1.
  unfold Contains in Hc. apply bool_decide_eq_false in Hc.
  unfold Derive in *. destruct (deriveAddress w path) as [address|]; [|discriminate].
  cbn [negb snd] in HD. 
  assert (Hacc : account = {| Address_ := address;
                              URL_ := {| Scheme := EmptyString;
                                         Path_ := DerivationPath_String path |} |}).
  { destruct (paths w !! address); simpl in HD; congruence. }
  cbn [negb]. rewrite <- Hacc. rewrite Hacc in Hc. cbn [Address_] in Hc.
  destruct (paths w !! address) as [p|] eqn:Hp; [exfalso; apply Hc; by eexists|].
  cbn [fst].
  assert (Hnot : Address_ account ∉ Address_ <$> accounts w).
  { rewrite Hacc. cbn [Address_]. intros Hin. apply Hdom in Hin.
    rewrite Hp in Hin. by destruct Hin. }
  assert (HU : Unpin (set_registry w (accounts w ++ [account]) (<[address:=path]> (paths w)))
                 account = (w, None)).
  { unfold Unpin. cbn [accounts paths set_registry].
    rewrite unpin_index_last by done.
    rewrite take_app_length. rewrite drop_app_ge by lia.
    replace (S (length (accounts w)) - length (accounts w))%nat with 1%nat by lia.
    cbn [drop]. rewrite app_nil_r.
    rewrite Hacc. cbn [Address_]. rewrite delete_insert_id by done.
    f_equal. by destruct w. }
  split_and!.
  - unfold Contains. cbn [paths set_registry]. apply bool_decide_eq_true.
    rewrite Hacc. cbn [Address_]. rewrite lookup_insert_eq. by eexists.
  - done.
  - exact HU.
  - intros hash. rewrite HU. cbn [fst]. unfold SignHash.
    rewrite Hacc. cbn [Address_]. by rewrite Hp.
Qed.

Lemma deriveAddress_key (w : Wallet) (path : DerivationPath) (a : Address) :
  deriveAddress w path = Ok a →
  ∃ D, derivePrivateKey w path = Ok D ∧ PubkeyToAddress (Public D) = a.
Proof.
  unfold deriveAddress, derivePublicKey.
  destruct (derivePrivateKey w path) as [D|]; simpl; [|discriminate].
  intros [= <-]. by exists D.
Qed.

(** X18. [SignHash] reads the address of the account and nothing else of
    it: an address that is not pinned gives [ErrUnknownAccount], and on a
    wallet whose recorded paths derive their addresses a pinned one is signed
    for with the private key whose public key hashes to that address,
    whatever URL the account carries. *)
Theorem SignHash_uses_pinned_key (w : Wallet) (account : Account) (hash : list Z) :
  paths_ok w →
  (Contains w account = false → SignHash w account hash = Err ErrUnknownAccount)
  ∧ (Contains w account = true →
       ∃ path D,
         paths w !! Address_ account = Some path
         ∧ derivePrivateKey w path = Ok D
         ∧ PubkeyToAddress (Public D) = Address_ account
         ∧ SignHash w account hash = Sign hash D)
  ∧ (∀ u, SignHash w {| Address_ := Address_ account; URL_ := u |} hash
          = SignHash w account hash).
Proof.
  intros Hok. unfold Contains, SignHash. split_and!.
  - intros Hc. apply bool_decide_eq_false in Hc.
    destruct (paths w !! Address_ account) eqn:Hp; [|done].
    exfalso. apply Hc. by eexists.
  - intros Hc. apply bool_decide_eq_true in Hc. destruct Hc as [path Hp].
    rewrite Hp. destruct (deriveAddress_key w path _ (Hok _ _ Hp)) as (D & HD & HA).
    exists path, D. rewrite HD. done.
  - done.
Qed.

(** X19. The key accessors take the path from the account's URL and look
    at no registry: when the parser reads back the string [Derive] printed,
    [PrivateKey], [PublicKey], [Address] and [Path] of the account [Derive]
    returned give the key of the derived path, its public key, the
    account's own address and the printed path, pinned or not; and an
    unpinned [Derive] leaves the wallet as it is. *)
Theorem accessors_follow_Derive (w : Wallet) (path : DerivationPath) (pin : bool)
    (w' : Wallet) (account : Account) :
  accounts_ParseDerivationPath (DerivationPath_String path) = Ok path →
  Derive w path pin = (w', Ok account) →
  ∃ D,
    derivePrivateKey w path = Ok D
    ∧ PrivateKey w' account = Ok D
    ∧ PrivateKeyBytes w' account = Ok (FromECDSA D)
    ∧ PublicKey w' account = Ok (Public D)
    ∧ Address_of w' account = Ok (Address_ account)
    ∧ Path w' account = Ok (DerivationPath_String path)
    ∧ ParseDerivationPath (Path_ (URL_ account)) = Ok path
    ∧ (pin = false → w' = w).
Proof.
  intros Hparse HD.
  assert (Hm : masterKey w' = masterKey w).
  { pose proof (Derive_masterKey w path pin) as Hm. by rewrite HD in Hm. }
  assert (Hk : ∀ p, derivePrivateKey w' p = derivePrivateKey w p).
  { intros p. by apply derivePrivateKey_masterKey. }
  unfold Derive in HD. destruct (deriveAddress w path) as [address|] eqn:Ha; [|by inversion HD].
  destruct (deriveAddress_key w path address Ha) as (D & HDk & HAd).
  assert (Hacc : account = {| Address_ := address;
                              URL_ := {| Scheme := EmptyString;
                                         Path_ := DerivationPath_String path |} |}
                 ∧ (pin = false → w' = w)).
  { destruct pin; cbn [negb] in HD.
    - destruct (paths w !! address); by inversion HD.
    - by inversion HD. }
  destruct Hacc as [-> Hpin].
  exists D. unfold PrivateKeyBytes, Address_of, PublicKey, PrivateKey, Path,
    ParseDerivationPath, derivePublicKey.
  cbn [URL_ Path_ Address_]. rewrite Hparse. cbn [mbind result_bind].
  rewrite Hk, HDk. cbn [mbind result_bind]. rewrite HAd. done.
Qed.

(** X20. [PublicKeyHex] passes on the error of [PublicKey]; otherwise it
    returns 128 digits, the coordinates [X] and [Y] on 32 bytes each: the
    four characters it cuts are the [0x] prefix and the digits of the byte
    [0x04], and for coordinates below [2^256] the two halves read back as
    [X] and [Y]. *)
Theorem PublicKeyHex_spec (w : Wallet) (account : Account) :
  match PublicKey w account with
  | Err e => PublicKeyHex w account = Err e
  | Ok (X, Y) =>
      ∃ hex, PublicKeyHex w account = Ok hex
        ∧ hex = EncodeToString (be_bytes 32 X ++ be_bytes 32 Y)
        ∧ String.length hex = 128%nat
        ∧ DecodeString hex = Some (be_bytes 32 X ++ be_bytes 32 Y)
        ∧ (0 ≤ X < 2 ^ 256 → SetBytes (be_bytes 32 X) = X)
        ∧ (0 ≤ Y < 2 ^ 256 → SetBytes (be_bytes 32 Y) = Y)
  end.
Proof.
  unfold PublicKeyHex, PublicKeyBytes.
  destruct (PublicKey w account) as [[X Y]|e]; [|done].
  cbn [mbind result_bind]. unfold FromECDSAPub, hexutil_Encode. cbn [fst snd].
  set (s := EncodeToString (be_bytes 32 X ++ be_bytes 32 Y)).
  exists s. split_and!.
  - f_equal.
  - done.
  - unfold s. by rewrite EncodeToString_length, length_app, !be_bytes_length.
  - apply DecodeString_EncodeToString, Forall_app. split; apply be_bytes_is_byte.
  - intros HX. rewrite SetBytes_be_bytes. by apply Z.mod_small.
  - intros HY. rewrite SetBytes_be_bytes. by apply Z.mod_small.
Qed.

End HDWalletRegistry.

Section HDWalletConstruction.
Context `{!hdwallet.Env}.
Import hdwallet.

(** X21. [NewFromMnemonic] refuses the empty phrase and then the phrases the
    library calls invalid, before any seed is computed. The wallet it
    returns holds the phrase, the seed the library derives from the phrase
    with the empty passphrase, the master key of that seed, and no account;
    but for the stored phrase it is the wallet [NewFromSeed] builds from that
    seed. [NewFromSeed] refuses the empty seed, and a new wallet signs for
    no account. *)
Theorem NewFromMnemonic_is_NewFromSeed (m : string) :
  (m = EmptyString → NewFromMnemonic m = Err ErrMnemonicEmpty)
  ∧ (m ≠ EmptyString → IsMnemonicValid m = false →
       NewFromMnemonic m = Err ErrMnemonicInvalid)
  ∧ (∀ w, NewFromMnemonic m = Ok w →
       m ≠ EmptyString ∧ IsMnemonicValid m = true
       ∧ mnemonic w = m
       ∧ NewSeedWithErrorChecking m EmptyString = Ok (seed w)
       ∧ NewMaster (seed w) = Ok (masterKey w)
       ∧ accounts w = [] ∧ paths w = ∅
       ∧ (seed w ≠ [] →
            NewFromSeed (seed w) =
              Ok {| mnemonic := EmptyString; masterKey := masterKey w; seed := seed w;
                    url := url w; paths := paths w; accounts := accounts w |}))
  ∧ NewFromSeed [] = Err ErrSeedEmpty
  ∧ (∀ sd w, NewFromSeed sd = Ok w →
       sd ≠ [] ∧ seed w = sd ∧ mnemonic w = EmptyString
       ∧ NewMaster sd = Ok (masterKey w)
       ∧ accounts w = [] ∧ paths w = ∅
       ∧ ∀ account hash, SignHash w account hash = Err ErrUnknownAccount).
Proof.
  split_and!.
  - intros ->. done.
  - intros Hne Hv. unfold NewFromMnemonic.
    rewrite bool_decide_eq_false_2 by done. by rewrite Hv.
  - intros w. unfold NewFromMnemonic, NewSeedFromMnemonic.
    destruct (decide (m = EmptyString)) as [->|Hne]; [done|].
    rewrite !bool_decide_eq_false_2 by done.
    destruct (IsMnemonicValid m) eqn:Hv; cbn [negb]; [|done].
    destruct (NewSeedWithErrorChecking m EmptyString) as [sd|] eqn:Hsd;
      cbn [mbind result_bind]; [|done].
    unfold newWallet. destruct (NewMaster sd) as [mk|] eqn:Hmk;
      cbn [mbind result_bind]; [|done].
    intros [= <-]. cbn [mnemonic seed masterKey accounts paths url].
    split_and!; try done.
    intros Hsdne. unfold NewFromSeed, newWallet.
    destruct sd as [|b sd]; [done|]. cbn [length Nat.eqb].
    by rewrite Hmk.
  - done.
  - intros sd w. unfold NewFromSeed.
    destruct sd as [|b sd]; [done|]. cbn [length Nat.eqb].
    unfold newWallet. destruct (NewMaster (b :: sd)) as [mk|] eqn:Hmk;
      cbn [mbind result_bind]; [|done].
    intros [= <-]. cbn [mnemonic seed masterKey accounts paths url].
    split_and!; try done.
Qed.

End HDWalletConstruction.

Section ConcurrentDerive.
Context `{!hdwallet.Env}.
Import hdwallet interleave.

(** X22. Goroutines that all call [Derive] with [pin = true] on one wallet,
    their statements interleaved in any order: once all have returned, the
    list and the index agree, each call has returned the account of its
    path (or the error of its derivation), each derived address is listed
    once, and nothing else was added. Started on an empty registry with
    paths of pairwise different addresses, the list holds exactly those
    addresses, one account per call. *)
Theorem Derive_concurrent (w : Wallet) (ps : list DerivationPath)
    (schedule : list nat) (c : Config) :
  registry_ok w →
  run schedule (start w (Derive_enter <$> ps)) = Some c →
  Forall (fun g => returned g = true) (goroutines c) →
  registry_ok (wallet (shared c))
  ∧ length (goroutines c) = length ps
  ∧ (∀ i p, ps !! i = Some p →
       match deriveAddress w p with
       | Ok a => goroutines c !! i = Some (Returned None (Some (account_of p a)))
                 ∧ entries (wallet (shared c)) a = 1%nat
       | Err err => goroutines c !! i = Some (Returned (Some err) None)
       end)
  ∧ (∀ x, x ∈ addresses (wallet (shared c)) →
       x ∈ addresses w ∨ ∃ p, p ∈ ps ∧ deriveAddress w p = Ok x)
  ∧ (∀ addrs, accounts w = [] → paths w = ∅ →
       Forall2 (fun p a => deriveAddress w p = Ok a) ps addrs → NoDup addrs →
       addresses (wallet (shared c)) ≡ₚ addrs
       ∧ length (accounts (wallet (shared c))) = length ps).
Proof.
  intros Hok Hrun Hret.
  destruct (Derive_goroutines w ps schedule c Hok Hrun Hret) as (R1 & R2 & R3 & R4).
  split_and!; [exact R1|exact R2|exact R3|exact R4|].
  intros addrs Ha Hp HF Hnd.
  exact (Derive_goroutines_distinct w ps addrs schedule c Ha Hp HF Hnd Hrun Hret).
Qed.

(** X23. At every point of every interleaving of goroutines that call
    [Derive] with [pin = true]: at most one goroutine is between [Lock] and
    [Unlock], and then none is between [RLock] and [RUnlock]; the mutex
    counts its readers; no goroutine has panicked; and the list and the
    index agree whenever no goroutine stands between appending its account
    and recording its path. *)
Theorem Derive_lock_discipline (w : Wallet) (ps : list DerivationPath)
    (schedule : list nat) (c : Config) :
  registry_ok w →
  run schedule (start w (Derive_enter <$> ps)) = Some c →
  (count writing (goroutines c) ≤ 1)%nat
  ∧ (count writing (goroutines c) = 1%nat → count reading (goroutines c) = 0%nat)
  ∧ readers (mutex (shared c)) = count reading (goroutines c)
  ∧ (∀ i g, goroutines c !! i = Some g → g ≠ Crashed)
  ∧ (count mid_update (goroutines c) = 0%nat → registry_ok (wallet (shared c))).
Proof.
  intros Hok Hrun.
  pose proof (inv_run _ _ _ (inv_start w ps Hok) Hrun) as [Honly Hrd Hwr Hex Hreg _].
  split_and!.
  - rewrite Hwr. destruct (writer (mutex (shared c))); lia.
  - intros H1. apply Hex. rewrite Hwr in H1.
    destruct (writer (mutex (shared c))); [done|discriminate].
  - exact Hrd.
  - intros i g Hg ->. by apply Honly in Hg.
  - exact Hreg.
Qed.

(** X24. A call of [Unpin], or of [Derive] with [pin = true], that runs
    alone goes through its statements without ever waiting for the lock
    ([Derive] gives up the read lock before it asks for the write lock),
    returns what the sequential function returns, leaves the wallet that
    function leaves, and leaves the mutex free. *)
Theorem lone_call_completes (w : Wallet) :
  (∀ account, ∃ n,
     run (replicate n 0%nat) (start w [Unpin_enter account])
     = Some (start (Unpin w account).1 [Returned (Unpin w account).2 None]))
  ∧ (∀ path, ∃ n,
       run (replicate n 0%nat) (start w [Derive_enter path])
       = Some (start (Derive w path true).1
                 [match (Derive w path true).2 with
                  | Ok account => Returned None (Some account)
                  | Err err => Returned (Some err) None
                  end])).
Proof.
  split; [apply Unpin_alone|apply Derive_alone].
Qed.

End ConcurrentDerive.

(** ** The commands of [skms] *)

Section CommandLine.
Context `{!wallet.Env} `{!skms.Env}.
Import wallet skms.

Lemma NewFromMnemonic_valid h m cfg k :
  validateMnemonic m = true →
  ∃ l, NewFromMnemonic h m cfg (Some k) =
         ({| slices := <[l := generateSeedFromMnemonic m
                                (Passphrase (default DefaultConfig cfg))]> (slices h);
             keys := keys h; accts := accts h |},
          Ok {| mnemonic := m; seed := Some l; masterKey := k;
                accounts := ∅; paths := ∅; isLocked := false |})
       ∧ slices h !! l = None.
Proof.
  intros Hv. unfold NewFromMnemonic. rewrite Hv. cbn [negb].
  rewrite generateSeedFromMnemonic_length.
  replace (64 =? SeedLength)%nat with true by done. cbn [negb].
  apply newWallet_fresh.
Qed.

Lemma GetPrivateKeyHex_Derive h w index now h' w' a :
  Derive h w index now = (h', w', Ok a) →
  let key := derived_key (read_slice h (seed w)) (base_path index) in
  GetPrivateKeyHex h' w' (pubkeyToAddress (key_X key) (key_Y key))
  = Ok (EncodeToString (big_Bytes (key_D key))).
Proof.
  intros HD key.
  apply Derive_effect in HD as (k & _ & _ & HA & HK & _ & HW & _ & _ & HL & _).
  fold key in HA, HK, HW.
  unfold GetPrivateKeyHex. rewrite HW, lookup_insert_eq, HL, HA, lookup_insert_eq.
  cbn [PrivateKey]. by rewrite HK, lookup_insert_eq.
Qed.

Lemma GetPublicKeyHex_Derive h w index now h' w' a :
  Derive h w index now = (h', w', Ok a) →
  let key := derived_key (read_slice h (seed w)) (base_path index) in
  GetPublicKeyHex h' w' (pubkeyToAddress (key_X key) (key_Y key))
  = Ok (EncodeToString (be_bytes 32 (key_X key) ++ be_bytes 32 (key_Y key))).
Proof.
  intros HD key.
  apply Derive_effect in HD as (k & _ & _ & HA & HK & _ & HW & _).
  fold key in HA, HK, HW.
  unfold GetPublicKeyHex. rewrite HW, lookup_insert_eq, HA, lookup_insert_eq.
  cbn [PublicKey]. by rewrite HK, lookup_insert_eq.
Qed.

Lemma deriveAccount_valid h mnemonic indexStr rest index k now :
  ParseUint indexStr = Some index →
  validateMnemonic mnemonic = true →
  let key := derived_key (generateSeedFromMnemonic mnemonic EmptyString)
               (base_path (to_uint32 index)) in
  ∃ h' l kl,
    deriveAccount h (mnemonic :: indexStr :: rest) (Some k) now =
      (h', Ok {| AccountIndex := to_uint32 index;
                 DerivationPath_ := formatDerivationPath (base_path (to_uint32 index));
                 EthereumAddress := Hex (pubkeyToAddress (key_X key) (key_Y key));
                 PrivateKey_ := ("0x" +:+ EncodeToString (big_Bytes (key_D key)))%string;
                 PublicKey_ :=
                   ("0x" +:+ EncodeToString
                               (be_bytes 32 (key_X key) ++ be_bytes 32 (key_Y key)))%string
              |})
    ∧ slices h !! l = None
    ∧ slices h' !! l = Some (replicate 64 0)
    ∧ (∀ l', l' ≠ l → slices h' !! l' = slices h !! l')
    ∧ keys h !! kl = None
    ∧ keys h' !! kl = Some {| key_X := key_X key; key_Y := key_Y key; key_D := 0 |}.
Proof.
  intros Hp Hv. remember (to_uint32 index) as idx eqn:Hidx. intros key.
  destruct (NewFromMnemonic_valid h mnemonic (Some DefaultConfig) k Hv)
    as (l & HN & Hl).
  change (Passphrase (default DefaultConfig (Some DefaultConfig))) with EmptyString in HN.
  set (sd := generateSeedFromMnemonic mnemonic EmptyString) in *.
  set (h0 := {| slices := <[l := sd]> (slices h); keys := keys h; accts := accts h |}) in *.
  set (w0 := {| mnemonic := mnemonic; seed := Some l; masterKey := k;
                accounts := ∅; paths := ∅; isLocked := false |}) in *.
  assert (Hrs : read_slice h0 (seed w0) = sd).
  { unfold h0, w0. cbn [seed read_slice slices]. by rewrite lookup_insert_eq. }
  destruct (Derive h0 w0 idx now) as [[h1 w1] r] eqn:HD.
  pose proof HD as HD0. pose proof HD as HD'.
  rewrite (Derive_unlocked h0 w0 idx now eq_refl) in HD'.
  cbv zeta in HD'. rewrite Hrs in HD'. fold key in HD'.
  assert (Hr : ∃ a, r = Ok a) by (injection HD' as _ _ <-; by eexists).
  destruct Hr as [a ->].
  pose proof (GetPrivateKeyHex_Derive _ _ _ _ _ _ _ HD) as HG. cbv zeta in HG.
  pose proof (GetPublicKeyHex_Derive _ _ _ _ _ _ _ HD) as HP. cbv zeta in HP.
  rewrite Hrs in HG, HP. fold key in HG, HP.
  apply Derive_effect in HD as (kl & _ & Hkl & HA & HK & HS & HW & _ & Hseed & _).
  rewrite Hrs in HA, HK, HW. fold key in HA, HK, HW.
  destruct (cleanup_heap h1 w1) as (hc & Hc & Hkc & Hac).
  assert (Hacc : Accounts w1 = [a]).
  { unfold Accounts. rewrite HW. unfold w0. cbn [accounts].
    rewrite insert_empty, map_to_list_singleton. done. }
  exists (Close h1 w1).1.1, l, kl.
  split_and!.
  - unfold deriveAccount. rewrite Hp, HN. rewrite <- Hidx, HD0.
    rewrite HA, lookup_insert_eq. cbn [Address_ Index Path].
    rewrite HG, HP. done.
  - exact Hl.
  - unfold Close. cbn [fst snd]. unfold cleanup. rewrite Hseed.
    unfold w0 at 1. cbn [seed fst snd]. rewrite foldl_clear_slices. cbn [slices].
    rewrite lookup_alter_eq, HS. unfold h0. cbn [slices].
    rewrite lookup_insert_eq. cbn [fmap option_fmap option_map].
    rewrite secureClear_zero. unfold sd. by rewrite generateSeedFromMnemonic_length.
  - intros l' Hne. unfold Close. cbn [fst snd]. unfold cleanup. rewrite Hseed.
    unfold w0 at 1. cbn [seed fst snd]. rewrite foldl_clear_slices. cbn [slices].
    rewrite lookup_alter_ne by done. rewrite HS. unfold h0. cbn [slices].
    by rewrite lookup_insert_ne.
  - exact Hkl.
  - unfold Close. cbn [fst snd]. rewrite Hc, Hacc. cbn [foldl].
    unfold clear_account. rewrite Hac, HA, lookup_insert_eq. cbn [PrivateKey keys].
    rewrite lookup_alter_eq, Hkc, HK, lookup_insert_eq. done.
Qed.

(** X25. [deriveAccount] on a phrase [validateMnemonic] accepts and an
    index the parser reads: it prints the index, the path
    [m/44'/60'/0'/0/index], the address, the digits of [D.Bytes()] and the
    digits of the public point, all of them determined by the phrase and
    the index alone (not by the master key drawn, the time or the heap); and
    when it returns, the deferred [Close] has zeroed the seed slice and the
    scalar of the derived key, both allocated by the command. With fewer
    than two arguments, an index the parser refuses or a phrase
    [validateMnemonic] rejects, it returns an error and allocates nothing. *)
Theorem deriveAccount_report h mnemonic indexStr rest mk now :
  (∀ args, (length args < 2)%nat → ∃ e, deriveAccount h args mk now = (h, Err e))
  ∧ (ParseUint indexStr = None →
       deriveAccount h (mnemonic :: indexStr :: rest) mk now
       = (h, Err (ErrWrapped "invalid account index")))
  ∧ (∀ index, ParseUint indexStr = Some index → validateMnemonic mnemonic = false →
       deriveAccount h (mnemonic :: indexStr :: rest) mk now
       = (h, Err (ErrWrapped "failed to create wallet")))
  ∧ (∀ index k,
       ParseUint indexStr = Some index → 0 ≤ index < 2 ^ 32 →
       validateMnemonic mnemonic = true → mk = Some k →
       let key := derived_key (generateSeedFromMnemonic mnemonic EmptyString)
                    (base_path index) in
       ∃ h' l kl,
         deriveAccount h (mnemonic :: indexStr :: rest) mk now =
           (h', Ok {| AccountIndex := index;
                      DerivationPath_ :=
                        ("m/44'/60'/0'/0/" +:+
                           (if (0x80000000 <=? index)%Z
                            then pretty (index - 0x80000000)%Z +:+ "'"
                            else pretty index))%string;
                      EthereumAddress := Hex (pubkeyToAddress (key_X key) (key_Y key));
                      PrivateKey_ := ("0x" +:+ EncodeToString (big_Bytes (key_D key)))%string;
                      PublicKey_ :=
                        ("0x" +:+ EncodeToString
                                    (be_bytes 32 (key_X key) ++ be_bytes 32 (key_Y key)))%string
                   |})
         ∧ slices h !! l = None
         ∧ slices h' !! l = Some (replicate 64 0)
         ∧ (∀ l', l' ≠ l → slices h' !! l' = slices h !! l')
         ∧ keys h !! kl = None
         ∧ keys h' !! kl
           = Some {| key_X := key_X key; key_Y := key_Y key; key_D := 0 |}).
Proof.
  split_and!.
  - intros args Hlen. destruct args as [|a1 [|a2 args]]; simpl in Hlen; try lia;
      by eexists.
  - intros Hp. unfold deriveAccount. by rewrite Hp.
  - intros index Hp Hv. unfold deriveAccount, NewFromMnemonic. by rewrite Hp, Hv.
  - intros index k Hp Hidx Hv -> key.
    pose proof (deriveAccount_valid h mnemonic indexStr rest index k now Hp Hv) as Hd.
    cbv zeta in Hd. unfold to_uint32 in Hd. rewrite Z.mod_small in Hd by done.
    rewrite formatDerivationPath_base in Hd. exact Hd.
Qed.

Lemma pick_word_in (rd : option (Z * Z)) (w : string) :
  pick_word rd = Ok w → w ∈ BIP39WordList.
Proof.
  unfold pick_word. destruct rd as [[b0 b1]|]; [|discriminate].
  cbv zeta.
  destruct (BIP39WordList !! Z.to_nat (Z.lor (Z.shiftl b0 8 mod 65536) b1 mod 2048))
    as [w'|] eqn:Hw; [|discriminate].
  intros [= <-]. by eapply list_elem_of_lookup_2.
Qed.

Lemma gen_words_in (rnd : nat → option (Z * Z)) (i n : nat) (ws : list string) :
  gen_words rnd i n = Ok ws →
  length ws = n ∧ Forall (fun w => w ∈ BIP39WordList) ws.
Proof.
  revert i ws. induction n as [|n IH]; intros i ws.
  - simpl. intros [= <-]. by split.
  - cbn [gen_words]. destruct (pick_word (rnd i)) as [w|] eqn:Hw;
      cbn [mbind result_bind]; [|discriminate].
    destruct (gen_words rnd (S i) n) as [ws'|] eqn:Hws;
      cbn [mbind result_bind]; [|discriminate].
    intros [= <-]. destruct (IH _ _ Hws) as [Hl Hf]. split; [simpl; by rewrite Hl|].
    constructor; [by eapply pick_word_in|done].
Qed.

Lemma gen_words_error (rnd : nat → option (Z * Z)) (i n : nat) (e : error) :
  gen_words rnd i n = Err e →
  e = Panic ∨ (e = ErrWrapped "failed to generate random bytes" ∧ ∃ j, rnd j = None).
Proof.
  revert i. induction n as [|n IH]; intros i; [discriminate|].
  cbn [gen_words]. destruct (pick_word (rnd i)) as [w|e'] eqn:Hw;
    cbn [mbind result_bind].
  - destruct (gen_words rnd (S i) n) as [ws'|e''] eqn:Hws;
      cbn [mbind result_bind]; [discriminate|].
    intros [= <-]. by eapply IH.
  - intros [= <-]. unfold pick_word in Hw.
    destruct (rnd i) as [[b0 b1]|] eqn:Hr.
    + cbv zeta in Hw. destruct (BIP39WordList !! _); [discriminate|].
      injection Hw as <-. by left.
    + injection Hw as <-. right. split; [done|by exists i].
Qed.

Lemma GenerateMnemonic_Ok (bits : Z) (rnd : nat → option (Z * Z)) (phrase : string) :
  Forall is_word BIP39WordList →
  GenerateMnemonic bits rnd = Ok phrase → validateMnemonic phrase = true.
Proof.
  intros Hdict. unfold GenerateMnemonic.
  destruct ((bits <? MinEntropyBits) || (bits >? MaxEntropyBits)
            || negb (Z.rem bits 32 =? 0)) eqn:Hg; [discriminate|].
  apply entropy_guard in Hg.
  destruct (wordCount_of_valid bits Hg) as [Hwc _]. rewrite Hwc.
  destruct (gen_words rnd 0 (Z.to_nat (bits / 32 * 3))) as [ws|] eqn:Hws;
    cbn [mbind result_bind]; [|discriminate].
  intros [= <-]. destruct (gen_words_in _ _ _ _ Hws) as [Hl Hin].
  apply validateMnemonic_Join.
  - rewrite List.Forall_forall in *. intros w Hw. apply Hdict.
    apply list_elem_of_In. apply Hin in Hw. done.
  - done.
  - rewrite Hl. clear -Hg.
    repeat (apply elem_of_cons in Hg as [->|Hg]; [set_solver|]).
    by apply elem_of_nil in Hg.
Qed.

(** X26. [generateMnemonic] generates with 128 bits when it has no
    argument; it refuses a size that is not 128, 160, 192, 224 or 256 by its
    own message, so the [ErrInvalidEntropy] of [wallet.GenerateMnemonic] is
    never what it returns, and its "failed to generate mnemonic" comes from a
    failed read of the random source only. With a word list of lower-case
    words, a phrase it prints is accepted by [validateMnemonic], hence
    [deriveAccount] on that phrase returns a report for every index the
    parser reads. *)
Theorem generateMnemonic_then_deriveAccount (args : list string)
    (rnd : nat → option (Z * Z)) :
  (args = [] →
     generateMnemonic args rnd =
       match GenerateMnemonic 128 rnd with
       | Ok mnemonic => Ok mnemonic
       | Err Panic => Err Panic
       | Err _ => Err (ErrWrapped "failed to generate mnemonic")
       end)
  ∧ (∀ arg rest bits, args = arg :: rest → Atoi arg = Some bits →
       bits ∉ [128; 160; 192; 224; 256] →
       generateMnemonic args rnd
       = Err (ErrWrapped "entropy bits must be 128, 160, 192, 224, or 256"))
  ∧ (∀ e, generateMnemonic args rnd = Err e → e = Panic ∨ ∃ msg, e = ErrWrapped msg)
  ∧ (generateMnemonic args rnd = Err (ErrWrapped "failed to generate mnemonic") →
       ∃ j, rnd j = None)
  ∧ (∀ phrase, Forall is_word BIP39WordList → generateMnemonic args rnd = Ok phrase →
       validateMnemonic phrase = true
       ∧ ∀ h indexStr index k now, ParseUint indexStr = Some index →
           ∃ h' report,
             deriveAccount h [phrase; indexStr] (Some k) now = (h', Ok report)
             ∧ AccountIndex report = to_uint32 index).
Proof.
  assert (Hgen : ∀ bits,
            bits ∈ [128; 160; 192; 224; 256] →
            let r := match GenerateMnemonic bits rnd with
                     | Ok mnemonic => Ok mnemonic
                     | Err Panic => Err Panic
                     | Err _ => Err (ErrWrapped "failed to generate mnemonic")
                     end in
            (∀ e, r = Err e → e = Panic ∨ ∃ msg, e = ErrWrapped msg)
            ∧ (r = Err (ErrWrapped "failed to generate mnemonic") → ∃ j, rnd j = None)
            ∧ (∀ phrase, r = Ok phrase → GenerateMnemonic bits rnd = Ok phrase)).
  { intros bits Hbits r. unfold r.
    destruct (GenerateMnemonic bits rnd) as [m|e] eqn:HG.
    - split_and!; [discriminate|discriminate|done].
    - assert (He : e = Panic
                   ∨ (e = ErrWrapped "failed to generate random bytes"
                      ∧ ∃ j, rnd j = None)).
      { unfold GenerateMnemonic in HG.
        destruct (wordCount_of_valid bits Hbits) as [Hwc Hg]. rewrite Hg, Hwc in HG.
        destruct (gen_words rnd 0 (Z.to_nat (bits / 32 * 3))) as [ws|e'] eqn:Hws;
          cbn [mbind result_bind] in HG; [discriminate|].
        injection HG as <-. by eapply gen_words_error. }
      destruct He as [->|[-> Hj]].
      + split_and!; [intros e [= <-]; by left|discriminate|discriminate].
      + split_and!; [intros e [= <-]; right; by eexists|done|discriminate]. }
  assert (H128 : 128 ∈ [128; 160; 192; 224; 256]) by left.
  assert (Hcheck : ∀ bits,
            (negb (bits =? 128) && negb (bits =? 160) && negb (bits =? 192)
             && negb (bits =? 224) && negb (bits =? 256)) = false
            ↔ bits ∈ [128; 160; 192; 224; 256]).
  { intros bits. split.
    - intros Hc. repeat (apply andb_false_iff in Hc as [Hc|Hc]);
        apply negb_false_iff, Z.eqb_eq in Hc; subst; repeat first [by left | right].
    - intros Hin. repeat (apply elem_of_cons in Hin as [->|Hin]; [done|]).
      by apply elem_of_nil in Hin. }
  assert (Hall : (∀ e, generateMnemonic args rnd = Err e →
                       e = Panic ∨ ∃ msg, e = ErrWrapped msg)
                 ∧ (generateMnemonic args rnd
                    = Err (ErrWrapped "failed to generate mnemonic") → ∃ j, rnd j = None)
                 ∧ (∀ phrase, generateMnemonic args rnd = Ok phrase →
                      ∃ bits, GenerateMnemonic bits rnd = Ok phrase)).
  { unfold generateMnemonic. cbv zeta. destruct args as [|arg rest].
    - destruct (Hgen 128 H128) as (G1 & G2 & G3).
      split_and!; [exact G1|exact G2|]. intros phrase Hp. exists 128. by apply G3.
    - destruct (Atoi arg) as [bits|].
      2:{ split_and!; [intros e [= <-]; right; by eexists|discriminate|discriminate]. }
      destruct (negb (bits =? 128) && negb (bits =? 160) && negb (bits =? 192)
                && negb (bits =? 224) && negb (bits =? 256)) eqn:Hc.
      { split_and!; [intros e [= <-]; right; by eexists|discriminate|discriminate]. }
      apply Hcheck in Hc. destruct (Hgen bits Hc) as (G1 & G2 & G3).
      split_and!; [exact G1|exact G2|]. intros phrase Hp. exists bits. by apply G3. }
  destruct Hall as (A1 & A2 & A3).
  split_and!.
  - intros ->. reflexivity.
  - intros arg rest bits -> Ha Hbits. unfold generateMnemonic. rewrite Ha.
    destruct (negb (bits =? 128) && negb (bits =? 160) && negb (bits =? 192)
              && negb (bits =? 224) && negb (bits =? 256)) eqn:Hc; [done|].
    apply Hcheck in Hc. done.
  - exact A1.
  - exact A2.
  - intros phrase Hdict Hp. destruct (A3 phrase Hp) as [bits HG].
    pose proof (GenerateMnemonic_Ok bits rnd phrase Hdict HG) as Hv.
    split; [exact Hv|].
    intros h indexStr index k now Hparse.
    destruct (deriveAccount_valid h phrase indexStr [] index k now Hparse Hv)
      as (h' & l & kl & Hd & _).
    eexists _, _. split; [exact Hd|reflexivity].
Qed.

End CommandLine.

(** * The further properties on the example instance *)

Lemma example_digest_bytes (x : list Z) : Forall is_byte (example.digest x).
Proof. apply be_bytes_is_byte. Qed.

Lemma example_pretty_inj (a b : Z) : pretty a = pretty b → a = b.
Proof. apply (inj pretty). Qed.

Lemma paths_ok_pinned3 : @paths_ok example.hd_env example.pinned3.
Proof.
  unfold example.pinned3. cbn [foldl].
  do 3 apply (@Derive_paths_ok example.hd_env). by apply paths_ok_empty.
Qed.

(** C4 on the second of three pinned accounts, and on an address that was
    never pinned. *)
Lemma SignTx_outcomes_witness :
  let w := example.pinned3 in
  let account := example.hd_account 793 "2" in
  let tx : @hdwallet.Transaction example.hd_env := (0, None) in
  let signedTx : @hdwallet.Transaction example.hd_env := (0, Some 158) in
  @paths_ok example.hd_env w
  ∧ (∀ path privateKey,
       @hdwallet.paths example.hd_env w !! 793 = Some path →
       @hdwallet.derivePrivateKey example.hd_env w path = Ok privateKey →
       ∃ stx sender,
         @hdwallet.types_SignTx example.hd_env tx privateKey = Ok stx
         ∧ @hdwallet.AsMessage_From example.hd_env stx = Ok sender)
  ∧ @hdwallet.paths example.hd_env w !! 793 = Some [2]
  ∧ ((∃ stx, @hdwallet.SignTx example.hd_env w account tx None = Ok stx
             ∧ @hdwallet.AsMessage_From example.hd_env stx = Ok 793)
     ∨ (∃ sender, sender ≠ 793
          ∧ @hdwallet.SignTx example.hd_env w account tx None
            = Err (hdwallet.ErrWrongSender (pretty 793) (pretty sender))))
  ∧ @hdwallet.SignTx example.hd_env w account tx None = Ok signedTx
  ∧ @hdwallet.AsMessage_From example.hd_env signedTx = Ok 793
  ∧ @hdwallet.paths example.hd_env w !! 1 = None
  ∧ @hdwallet.SignTx example.hd_env w (example.hd_account 1 "9") tx None
    = Err hdwallet.ErrUnknownAccount.
Proof.
  intros w account tx signedTx.
  assert (Hlib : ∀ path privateKey,
            @hdwallet.paths example.hd_env w !! 793 = Some path →
            @hdwallet.derivePrivateKey example.hd_env w path = Ok privateKey →
            ∃ stx sender,
              @hdwallet.types_SignTx example.hd_env tx privateKey = Ok stx
              ∧ @hdwallet.AsMessage_From example.hd_env stx = Ok sender).
  { intros path privateKey _ _.
    exists (0, Some privateKey), (example.address_of_key privateKey). by split. }
  assert (H1 : @hdwallet.paths example.hd_env w !! 793 = Some [2])
    by (vm_compute; reflexivity).
  assert (H2 : @hdwallet.SignTx example.hd_env w account tx None = Ok signedTx)
    by (vm_compute; reflexivity).
  assert (H0 : @hdwallet.paths example.hd_env w !! 1 = None) by (vm_compute; reflexivity).
  destruct (@SignTx_outcomes example.hd_env w account tx None) as (_ & Hd & Hr & _).
  destruct (Hr signedTx H2) as [_ R2].
  destruct (@SignTx_outcomes example.hd_env w (example.hd_account 1 "9") tx None)
    as (Hu & _).
  split; [exact paths_ok_pinned3|]. split; [exact Hlib|]. split; [exact H1|].
  split; [exact (Hd paths_ok_pinned3 Hlib (ex_intro _ [2] H1))|].
  split; [exact H2|]. split; [exact R2|]. split; [exact H0|exact (Hu H0)].
Defined.

(** X3 on the example phrase and on a phrase of one word. *)
Lemma NewFromMnemonic_outcomes_witness :
  let r := @wallet.NewFromMnemonic example.wallet_env wallet.empty_heap example.phrase
             None (Some example.keyA) in
  @wallet.validateMnemonic example.wallet_env example.phrase = true
  ∧ (∃ w l, r.2 = Ok w ∧ wallet.seed w = Some l
        ∧ length (wallet.read_slice r.1 (wallet.seed w)) = 64%nat
        ∧ wallet.GetMnemonic w = Ok example.phrase)
  ∧ @wallet.validateMnemonic example.wallet_env "aaa" = false
  ∧ (@wallet.NewFromMnemonic example.wallet_env wallet.empty_heap "aaa" None
       (Some example.keyA)).2 = Err wallet.ErrInvalidMnemonic.
Proof.
  intros r.
  assert (Hv : @wallet.validateMnemonic example.wallet_env example.phrase = true)
    by (vm_compute; reflexivity).
  assert (Hn : @wallet.validateMnemonic example.wallet_env "aaa" = false)
    by (vm_compute; reflexivity).
  destruct (@NewFromMnemonic_outcomes example.wallet_env wallet.empty_heap example.phrase
              None (Some example.keyA)) as (_ & _ & _ & _ & Hok).
  destruct (Hok Hv (ex_intro _ example.keyA eq_refl))
    as (w & l & R1 & R2 & _ & R4 & _ & R6 & _).
  destruct (@NewFromMnemonic_outcomes example.wallet_env wallet.empty_heap "aaa"
              None (Some example.keyA)) as (Hbad & _).
  split_and!; [exact Hv| |exact Hn|].
  - exists w, l. split_and!; [exact R1|exact R2|exact R4|exact R6].
  - apply Hbad. exact Hn.
Defined.

(** X4 on a seed of 64 bytes and on one of 3 bytes. *)
Lemma NewFromSeed_copies_seed_witness :
  let sd := replicate 64 7 in
  let h' := {| wallet.slices := {[ 1%positive := sd ]}; wallet.keys := ∅;
               wallet.accts := ∅ |} in
  let w := {| wallet.mnemonic := EmptyString; wallet.seed := Some 1%positive;
              wallet.masterKey := example.keyA; wallet.accounts := ∅;
              wallet.paths := ∅; wallet.isLocked := false |} in
  wallet.NewFromSeed wallet.empty_heap sd None (Some example.keyA)
    = (h', Ok w)
  ∧ wallet.read_slice h' (wallet.seed w) = sd
  ∧ wallet.read_slice (wallet.Close h' w).1.1 (wallet.seed w) = replicate 64 0
  ∧ length [1; 2; 3] ≠ 64%nat
  ∧ wallet.NewFromSeed wallet.empty_heap [1; 2; 3] None
      (Some example.keyA) = (wallet.empty_heap, Err wallet.ErrInvalidSeed).
Proof.
  intros sd h' w.
  assert (H1 : wallet.NewFromSeed wallet.empty_heap sd None
                 (Some example.keyA) = (h', Ok w)) by (vm_compute; reflexivity).
  assert (H2 : length [1; 2; 3] ≠ 64%nat) by discriminate.
  destruct (NewFromSeed_copies_seed wallet.empty_heap sd None
              (Some example.keyA)) as (_ & Hok).
  destruct (Hok h' w H1) as (_ & R2 & R3 & _).
  destruct (NewFromSeed_copies_seed wallet.empty_heap [1; 2; 3] None
              (Some example.keyA)) as (Hbad & _).
  split_and!; [exact H1|exact R2|exact R3|exact H2|exact (Hbad H2)].
Defined.

(** X5 on index 7 of the example wallet. *)
Lemma Derive_stores_account_witness :
  let h := example.heap0 in
  let w := example.simple_wallet example.keyA in
  wallet.isLocked w = false
  ∧ ∃ h' w' a account,
      @wallet.Derive example.wallet_env h w 7 1000 = (h', w', Ok a)
      ∧ wallet.accts h' !! a = Some account
      ∧ wallet.Index account = 7
      ∧ wallet.Path account = "m/44'/60'/0'/0/7"%string
      ∧ length (wallet.Address_ account) = 20%nat
      ∧ wallet.accounts w' !! wallet.Address_ account = Some a.
Proof.
  intros h w. split; [reflexivity|].
  destruct (@Derive_stores_account example.wallet_env h w 7 1000 eq_refl)
    as (h' & w' & a & k & HD & _ & _ & Ha & _ & Hlen & Hw & _).
  exists h', w', a. eexists.
  split_and!; [exact HD|exact Ha|reflexivity|vm_compute; reflexivity|exact Hlen|exact Hw].
Defined.

(** X6 on two closed wallets with different seeds. *)
Lemma Derive_after_Close_witness :
  let c1 := (wallet.Close example.heap0 (example.simple_wallet example.keyA)).1 in
  let c2 := (wallet.Close example.heap1 example.wallet1).1 in
  wallet.isLocked (example.simple_wallet example.keyA) = false
  ∧ wallet.isLocked example.wallet1 = false
  ∧ wallet.read_slice example.heap0 (wallet.seed (example.simple_wallet example.keyA))
    ≠ wallet.read_slice example.heap1 (wallet.seed example.wallet1)
  ∧ is_Some (@derive_view example.wallet_env c1.1 c1.2 3 1000)
  ∧ @derive_view example.wallet_env c1.1 c1.2 3 1000
    = @derive_view example.wallet_env c2.1 c2.2 3 2000.
Proof.
  intros c1 c2.
  assert (Hne : wallet.read_slice example.heap0
                  (wallet.seed (example.simple_wallet example.keyA))
                ≠ wallet.read_slice example.heap1 (wallet.seed example.wallet1)).
  { intros Heq. apply (f_equal length) in Heq. vm_compute in Heq. discriminate Heq. }
  destruct (@Derive_after_Close example.wallet_env example.heap0
              (example.simple_wallet example.keyA) example.heap1 example.wallet1
              3 1000 2000 eq_refl eq_refl) as [R1 R2].
  split_and!; [reflexivity|reflexivity|exact Hne| |exact R2].
  unfold c1. rewrite R1. by eexists.
Defined.

(** X7 on index 7 of the example wallet, derived twice. *)
Lemma Derive_again_orphans_key_witness :
  let h := example.heap0 in
  let w := example.simple_wallet example.keyA in
  wallet.accounts w = ∅
  ∧ ∃ h1 w1 a1 h2 w2 a2,
      @wallet.Derive example.wallet_env h w 7 1000 = (h1, w1, Ok a1)
      ∧ @wallet.Derive example.wallet_env h1 w1 7 2000 = (h2, w2, Ok a2)
      ∧ a1 ≠ a2
      ∧ wallet.Accounts w2 = [a2]
      ∧ ∃ account k,
          wallet.accts (wallet.Close h2 w2).1.1 !! a1 = Some account
          ∧ wallet.PrivateKey account = Some k
          ∧ wallet.keys (wallet.Close h2 w2).1.1 !! k
            = Some (@wallet.derived_key example.wallet_env
                      (wallet.read_slice h (wallet.seed w)) (@base_path 7)).
Proof.
  intros h w. split; [reflexivity|].
  pose proof (@Derive_unlocked example.wallet_env h w 7 1000 eq_refl) as H1.
  cbv zeta in H1.
  match type of H1 with
  | _ = (?h1, ?w1, _) =>
      pose proof (@Derive_unlocked example.wallet_env h1 w1 7 2000 eq_refl) as H2
  end.
  cbv zeta in H2.
  assert (H0 : wallet.accounts w = ∅) by reflexivity.
  destruct (@Derive_again_orphans_key example.wallet_env h w 7 1000 2000 _ _ _ _ _ _
              H0 H1 H2) as (R1 & R2 & _ & R4).
  eexists _, _, _, _, _, _.
  split_and!; [exact H1|exact H2|exact R1|exact R2|exact R4].
Defined.

(** X8 on index 7 of the example wallet. *)
Lemma GetPrivateKeyHex_round_trip_witness :
  let h := example.heap0 in
  let w := example.simple_wallet example.keyA in
  let key := @wallet.derived_key example.wallet_env
               (wallet.read_slice h (wallet.seed w)) (@base_path 7) in
  (∀ x, Forall is_byte (@wallet.Sum256 example.wallet_env x))
  ∧ ∃ h' w' a hex bs,
      @wallet.Derive example.wallet_env h w 7 1000 = (h', w', Ok a)
      ∧ @wallet.GetPrivateKeyHex h' w'
          (@wallet.pubkeyToAddress example.wallet_env (wallet.key_X key) (wallet.key_Y key))
        = Ok hex
      ∧ DecodeString hex = Some bs
      ∧ SetBytes bs = wallet.key_D key.
Proof.
  intros h w key. split; [exact example_digest_bytes|].
  pose proof (@Derive_unlocked example.wallet_env h w 7 1000 eq_refl) as H1.
  cbv zeta in H1.
  destruct (@GetPrivateKeyHex_round_trip example.wallet_env _ _ _ _ _ _ _
              example_digest_bytes H1) as (hex & bs & R1 & R2 & R3 & _).
  eexists _, _, _, hex, bs.
  split_and!; [exact H1|exact R1|exact R2|exact R3].
Defined.

(** X9 on the stored address of a wallet with one account, and on another
    address. *)
Lemma GetPrivateKeyHex_after_Close_witness :
  let c := (wallet.Close example.heap1 example.wallet1).1 in
  wallet.isLocked example.wallet1 = false
  ∧ wallet.accounts example.wallet1 !! [9; 9] = Some 1%positive
  ∧ wallet.GetPrivateKeyHex c.1 c.2 [9; 9] = Err wallet.Panic
  ∧ wallet.accounts example.wallet1 !! [1; 1] = None
  ∧ wallet.GetPrivateKeyHex c.1 c.2 [1; 1] = Err wallet.ErrAccountNotFound.
Proof.
  intros c.
  assert (H1 : wallet.accounts example.wallet1 !! [9; 9] = Some 1%positive)
    by (vm_compute; reflexivity).
  assert (H2 : wallet.accounts example.wallet1 !! [1; 1] = None)
    by (vm_compute; reflexivity).
  pose proof (GetPrivateKeyHex_after_Close example.heap1 example.wallet1 [9; 9] eq_refl)
    as R1.
  pose proof (GetPrivateKeyHex_after_Close example.heap1 example.wallet1 [1; 1] eq_refl)
    as R2.
  rewrite H1 in R1. rewrite H2 in R2.
  split_and!; [reflexivity|exact H1|exact R1|exact H2|exact R2].
Defined.

(** X10 on the stored address of a wallet with one account. *)
Lemma GetPublicKeyHex_survives_Close_witness :
  let c := (wallet.Close example.heap1 example.wallet1).1 in
  let hex := EncodeToString (be_bytes 32 5 ++ be_bytes 32 6) in
  wallet.GetPublicKeyHex example.heap1 example.wallet1 [9; 9] = Ok hex
  ∧ wallet.GetPublicKeyHex c.1 c.2 [9; 9] = Ok hex
  ∧ String.length hex = 128%nat.
Proof.
  intros c hex.
  assert (H1 : wallet.GetPublicKeyHex example.heap1 example.wallet1 [9; 9] = Ok hex)
    by (vm_compute; reflexivity).
  destruct (GetPublicKeyHex_survives_Close example.heap1 example.wallet1 [9; 9])
    as [R1 R2].
  destruct (R2 hex H1) as [R3 _].
  split_and!; [exact H1| |exact R3].
  unfold c. rewrite R1. exact H1.
Defined.

(** X11 on the example wallet, closed between two derivations. *)
Lemma Close_keeps_mnemonic_witness :
  let cs := [Call_Derive 0 1000; Call_Close; Call_Derive 1 2000] in
  let hw := foldl (@run_call example.wallet_env)
              (example.heap0, example.simple_wallet example.keyA) cs in
  @wallet.NewFromMnemonic example.wallet_env wallet.empty_heap example.phrase
    None (Some example.keyA)
  = (example.heap0, Ok (example.simple_wallet example.keyA))
  ∧ wallet.GetMnemonic hw.2 = Ok example.phrase
  ∧ wallet.Status hw.2 = "Unlocked"%string
  ∧ wallet.seed hw.2 = None.
Proof.
  intros cs hw.
  assert (EA : @wallet.NewFromMnemonic example.wallet_env wallet.empty_heap example.phrase
                 None (Some example.keyA)
               = (example.heap0, Ok (example.simple_wallet example.keyA)))
    by (vm_compute; reflexivity).
  destruct (@Close_keeps_mnemonic example.wallet_env _ _ _ _ _ _ cs EA)
    as (R1 & R2 & _).
  split_and!; [exact EA|exact R1|exact R2|reflexivity].
Defined.

(** X12 on a random source whose fourth read fails. *)
Lemma GenerateMnemonic_rand_failure_witness :
  let rnd := fun i : nat => if (i =? 3)%nat then None else example.rnd i in
  length example.words = 2048%nat
  ∧ @wallet.wordCount_of 128 = Some 12%nat
  ∧ (3 < 12)%nat
  ∧ rnd 3%nat = None
  ∧ @wallet.GenerateMnemonic example.wallet_env 128 rnd
    = Err (wallet.ErrWrapped "failed to generate random bytes").
Proof.
  intros rnd.
  assert (H1 : length example.words = 2048%nat) by (vm_compute; reflexivity).
  assert (H3 : (3 < 12)%nat) by lia.
  split_and!; [exact H1|reflexivity|exact H3|reflexivity|].
  exact (@GenerateMnemonic_rand_failure example.wallet_env 128 rnd 12 3 H1 eq_refl H3
           eq_refl).
Defined.

(** X13 on two paths of two components. *)
Lemma pathBytes_injective_witness :
  let p1 := [0x8000002C; 7] in
  let p2 := [2 ^ 31 + 44; 3 + 4] in
  Forall uint32 p1 ∧ Forall uint32 p2
  ∧ [1; 2] ++ flat_map wallet.pathBytes p1 = [1; 2] ++ flat_map wallet.pathBytes p2
  ∧ p1 = p2.
Proof.
  intros p1 p2.
  assert (H1 : Forall uint32 p1) by (repeat constructor; unfold uint32; lia).
  assert (H2 : Forall uint32 p2) by (repeat constructor; unfold uint32; lia).
  assert (H3 : [1; 2] ++ flat_map wallet.pathBytes p1
               = [1; 2] ++ flat_map wallet.pathBytes p2) by reflexivity.
  split_and!; [exact H1|exact H2|exact H3|].
  exact (@pathBytes_injective [1; 2] p1 p2 H1 H2 H3).
Defined.

(** X15 on an address of three bytes. *)
Lemma Hex_round_trip_witness :
  Forall is_byte [0; 255; 16]
  ∧ wallet.Hex [0; 255; 16] = "0x00ff10"%string
  ∧ DecodeString (drop_string 2 (wallet.Hex [0; 255; 16])) = Some [0; 255; 16]
  ∧ (∀ x, Forall is_byte (@wallet.Sum256 example.wallet_env x))
  ∧ String.length (wallet.Hex (@wallet.pubkeyToAddress example.wallet_env 1 2)) = 42%nat.
Proof.
  assert (H1 : Forall is_byte [0; 255; 16]) by (repeat constructor; unfold is_byte; lia).
  destruct (@Hex_round_trip example.wallet_env [0; 255; 16] H1) as (_ & R2 & _ & R4).
  destruct (R4 example_digest_bytes 1 2) as [_ R5].
  split_and!; [exact H1|reflexivity|exact R2|exact example_digest_bytes|exact R5].
Defined.

(** X16 on a wallet built from a seed of 16 bytes, after pinning,
    deriving, unpinning and closing. *)
Lemma registry_invariant_witness :
  let sd := [1; 2; 3; 4; 5; 6; 7; 8; 9; 10; 11; 12; 13; 14; 15; 16] in
  let w0 := example.hd_wallet (SetBytes sd mod 2 ^ 256) [] ∅ in
  let ops := [@Op_Derive example.hd_env [1] true; @Op_Derive example.hd_env [2] false;
              @Op_Unpin example.hd_env (example.hd_account 1 "9");
              @Op_Close example.hd_env; @Op_Derive example.hd_env [3] true] in
  let w := foldl (@run_op example.hd_env) w0 ops in
  (∀ a b : Z, pretty a = pretty b → a = b)
  ∧ @hdwallet.NewFromSeed example.hd_env sd = Ok w0
  ∧ @registry_ok example.hd_env w
  ∧ @paths_ok example.hd_env w
  ∧ length (@hdwallet.Accounts example.hd_env w) = size (@hdwallet.paths example.hd_env w)
  ∧ @hdwallet.seed example.hd_env w = sd.
Proof.
  intros sd w0 ops w.
  assert (H1 : @hdwallet.NewFromSeed example.hd_env sd = Ok w0) by reflexivity.
  destruct (@registry_invariant example.hd_env w0 ops example_pretty_inj
              (or_introl (ex_intro _ sd H1))) as (R1 & R2 & R3 & _ & _ & R6 & _).
  split_and!; [exact example_pretty_inj|exact H1|exact R1|exact R2|exact R3|exact R6].
Defined.

(** X17 on the path [[1]] of the wallet of master key 5. *)
Lemma Derive_then_Unpin_witness :
  let w := example.hd_wallet 5 [] ∅ in
  let account := example.hd_account 788 "1" in
  let w1 := (@hdwallet.Derive example.hd_env w [1] true).1 in
  (∀ a b : Z, pretty a = pretty b → a = b)
  ∧ @registry_ok example.hd_env w
  ∧ (@hdwallet.Derive example.hd_env w [1] true).2 = Ok account
  ∧ @hdwallet.Contains example.hd_env w account = false
  ∧ @hdwallet.Contains example.hd_env w1 account = true
  ∧ @hdwallet.Unpin example.hd_env w1 account = (w, None).
Proof.
  intros w account w1.
  assert (H1 : @registry_ok example.hd_env w) by (by apply registry_ok_empty).
  assert (H2 : (@hdwallet.Derive example.hd_env w [1] true).2 = Ok account)
    by reflexivity.
  assert (H3 : @hdwallet.Contains example.hd_env w account = false)
    by (vm_compute; reflexivity).
  destruct (@Derive_then_Unpin example.hd_env w [1] account example_pretty_inj H1 H2 H3)
    as (R1 & _ & R3 & _).
  split_and!; [exact example_pretty_inj|exact H1|exact H2|exact H3|exact R1|exact R3].
Defined.

(** X18 on the second of three pinned accounts. *)
Lemma SignHash_uses_pinned_key_witness :
  let w := example.pinned3 in
  let account := example.hd_account 793 "2" in
  let hash := replicate 32 1 in
  @paths_ok example.hd_env w
  ∧ @hdwallet.Contains example.hd_env w account = true
  ∧ ∃ path D,
      @hdwallet.paths example.hd_env w !! 793 = Some path
      ∧ @hdwallet.derivePrivateKey example.hd_env w path = Ok D
      ∧ example.address_of_key D = 793
      ∧ @hdwallet.SignHash example.hd_env w account hash
        = @hdwallet.Sign example.hd_env hash D.
Proof.
  intros w account hash.
  assert (Hc : @hdwallet.Contains example.hd_env w account = true)
    by (vm_compute; reflexivity).
  destruct (@SignHash_uses_pinned_key example.hd_env w account hash paths_ok_pinned3)
    as (_ & Hp & _).
  destruct (Hp Hc) as (path & D & R1 & R2 & R3 & R4).
  split_and!; [exact paths_ok_pinned3|exact Hc|].
  exists path, D. split_and!; [exact R1|exact R2|exact R3|exact R4].
Defined.

(** X19 on the path [[1]] of the wallet of master key 5, not pinned. *)
Lemma accessors_follow_Derive_witness :
  let w := example.hd_wallet 5 [] ∅ in
  let account := example.hd_account 788 "1" in
  @hdwallet.accounts_ParseDerivationPath example.hd_env
    (@hdwallet.DerivationPath_String example.hd_env [1]) = Ok [1]
  ∧ @hdwallet.Derive example.hd_env w [1] false = (w, Ok account)
  ∧ @hdwallet.Contains example.hd_env w account = false
  ∧ @hdwallet.PrivateKey example.hd_env w account
    = @hdwallet.derivePrivateKey example.hd_env w [1]
  ∧ @hdwallet.Address_of example.hd_env w account = Ok 788.
Proof.
  intros w account.
  assert (H1 : @hdwallet.accounts_ParseDerivationPath example.hd_env
                 (@hdwallet.DerivationPath_String example.hd_env [1]) = Ok [1])
    by reflexivity.
  assert (H2 : @hdwallet.Derive example.hd_env w [1] false = (w, Ok account))
    by reflexivity.
  assert (H3 : @hdwallet.Contains example.hd_env w account = false)
    by (vm_compute; reflexivity).
  destruct (@accessors_follow_Derive example.hd_env w [1] false w account H1 H2)
    as (D & R1 & R2 & _ & _ & R5 & _).
  split_and!; [exact H1|exact H2|exact H3| |exact R5].
  rewrite R1. exact R2.
Defined.

(** X21 on a phrase of the example instance and on the empty phrase. *)
Lemma NewFromMnemonic_is_NewFromSeed_witness :
  let sd := example.digest (bytes_of_string "abc") ++ example.digest (bytes_of_string "") in
  let w : @hdwallet.Wallet example.hd_env :=
    {| hdwallet.mnemonic := "abc";
       hdwallet.masterKey := (SetBytes sd mod 2 ^ 256) : @hdwallet.ExtendedKey example.hd_env;
       hdwallet.seed := sd;
       hdwallet.url := {| hdwallet.Scheme := EmptyString; hdwallet.Path_ := EmptyString |};
       hdwallet.paths := ∅; hdwallet.accounts := [] |} in
  @hdwallet.NewFromMnemonic example.hd_env "abc" = Ok w
  ∧ @hdwallet.NewSeedWithErrorChecking example.hd_env "abc" EmptyString = Ok sd
  ∧ @hdwallet.NewMaster example.hd_env sd = Ok (SetBytes sd mod 2 ^ 256)
  ∧ @hdwallet.NewFromMnemonic example.hd_env EmptyString = Err hdwallet.ErrMnemonicEmpty.
Proof.
  intros sd w.
  assert (Hn : @hdwallet.NewFromMnemonic example.hd_env "abc" = Ok w) by reflexivity.
  destruct (@NewFromMnemonic_is_NewFromSeed example.hd_env "abc")
    as (_ & _ & Hok & _).
  destruct (Hok w Hn) as (_ & _ & _ & R4 & R5 & _).
  destruct (@NewFromMnemonic_is_NewFromSeed example.hd_env EmptyString) as (He & _).
  split_and!; [exact Hn|exact R4|exact R5|exact (He eq_refl)].
Defined.

Section ConcurrentWitness.
Import hdwallet interleave.

Lemma returned_all `{!hdwallet.Env} (gs : list Goroutine) (n : nat) :
  returned <$> gs = replicate n true → Forall (fun g => returned g = true) gs.
Proof.
  revert n. induction gs as [|g gs IH]; intros n Hr; [constructor|].
  destruct n as [|n]; [discriminate Hr|]. simpl in Hr. injection Hr as Hg Hr.
  constructor; [exact Hg|by apply (IH n)].
Qed.


(** X22 on two goroutines pinning two paths, their statements mixed. *)
Lemma Derive_concurrent_witness :
  let w := example.hd_wallet 5 [] ∅ in
  let schedule := [0; 1; 0; 1; 0; 1; 0; 0; 0; 0; 0; 1; 1; 1; 1; 1]%nat in
  @registry_ok example.hd_env w
  ∧ match @run example.hd_env schedule (start w (Derive_enter <$> [[1]; [2]])) with
    | Some c =>
        Forall (fun g => @returned example.hd_env g = true) (goroutines c)
        ∧ @registry_ok example.hd_env (wallet (shared c))
        ∧ @addresses example.hd_env (wallet (shared c)) ≡ₚ [788; 793]
        ∧ length (accounts (wallet (shared c))) = 2%nat
    | None => False
    end.
Proof.
  intros w schedule.
  assert (Hok : @registry_ok example.hd_env w) by (by apply registry_ok_empty).
  split; [exact Hok|].
  assert (F : (fun c => @returned example.hd_env <$> goroutines c)
                <$> @run example.hd_env schedule (start w (Derive_enter <$> [[1]; [2]]))
              = Some (replicate 2 true)) by (vm_compute; reflexivity).
  assert (D1 : @deriveAddress example.hd_env w [1] = Ok 788) by (vm_compute; reflexivity).
  assert (D2 : @deriveAddress example.hd_env w [2] = Ok 793) by (vm_compute; reflexivity).
  assert (Hnd : NoDup [788; 793]).
  { apply list.NoDup_cons. split; [|apply NoDup_singleton].
    intros Hin. apply list_elem_of_singleton in Hin. discriminate Hin. }
  destruct (@run example.hd_env schedule (start w (Derive_enter <$> [[1]; [2]])))
    as [c|] eqn:Hrun; [|discriminate F].
  cbn [fmap option_fmap option_map] in F. injection F as F.
  pose proof (returned_all (goroutines c) 2 F) as Hret.
  destruct (@Derive_concurrent example.hd_env w [[1]; [2]] schedule c Hok Hrun Hret)
    as (R1 & _ & _ & _ & R5).
  assert (HF : Forall2 (fun p a => @deriveAddress example.hd_env w p = Ok a)
                 [[1]; [2]] [788; 793]).
  { constructor; [exact D1|]. constructor; [exact D2|]. constructor. }
  destruct (R5 [788; 793] eq_refl eq_refl HF Hnd) as [R6 R7].
  split_and!; [exact Hret|exact R1|exact R6|exact R7].
Defined.

(** X23 at the point where the first of two goroutines holds the write
    lock. *)
Lemma Derive_lock_discipline_witness :
  let w := example.hd_wallet 5 [] ∅ in
  let schedule := [0; 1; 0; 1; 0; 1; 0]%nat in
  @registry_ok example.hd_env w
  ∧ match @run example.hd_env schedule (start w (Derive_enter <$> [[1]; [2]])) with
    | Some c =>
        @count example.hd_env writing (goroutines c) = 1%nat
        ∧ @count example.hd_env reading (goroutines c) = 0%nat
        ∧ readers (mutex (shared c)) = 0%nat
    | None => False
    end.
Proof.
  intros w schedule.
  assert (Hok : @registry_ok example.hd_env w) by (by apply registry_ok_empty).
  split; [exact Hok|].
  assert (F : (fun c => @count example.hd_env writing (goroutines c))
                <$> @run example.hd_env schedule (start w (Derive_enter <$> [[1]; [2]]))
              = Some 1%nat) by (vm_compute; reflexivity).
  destruct (@run example.hd_env schedule (start w (Derive_enter <$> [[1]; [2]])))
    as [c|] eqn:Hrun; [|discriminate F].
  cbn [fmap option_fmap option_map] in F. injection F as F.
  destruct (@Derive_lock_discipline example.hd_env w [[1]; [2]] schedule c Hok Hrun)
    as (_ & R2 & R3 & _).
  split_and!; [exact F|exact (R2 F)|].
  rewrite R3. exact (R2 F).
Defined.

End ConcurrentWitness.

(** X25 on the example phrase and the index 7. *)
Lemma deriveAccount_report_witness :
  @skms.ParseUint example.skms_env "7" = Some 7
  ∧ 0 ≤ 7 < 2 ^ 32
  ∧ @wallet.validateMnemonic example.wallet_env example.phrase = true
  ∧ ∃ h' report,
      @skms.deriveAccount example.wallet_env example.skms_env wallet.empty_heap
        [example.phrase; "7"] (Some example.keyA) 1000 = (h', Ok report)
      ∧ skms.AccountIndex report = 7
      ∧ skms.DerivationPath_ report = "m/44'/60'/0'/0/7"%string
      ∧ String.length (skms.PublicKey_ report) = 130%nat.
Proof.
  assert (H1 : @skms.ParseUint example.skms_env "7" = Some 7) by reflexivity.
  assert (H2 : 0 ≤ 7 < 2 ^ 32) by lia.
  assert (H3 : @wallet.validateMnemonic example.wallet_env example.phrase = true)
    by (vm_compute; reflexivity).
  destruct (@deriveAccount_report example.wallet_env example.skms_env wallet.empty_heap
              example.phrase "7" [] (Some example.keyA) 1000) as (_ & _ & _ & Hok).
  destruct (Hok 7 example.keyA H1 H2 H3 eq_refl) as (h' & l & kl & Hd & _).
  split; [exact H1|]. split; [exact H2|]. split; [exact H3|].
  eexists _, _. split; [exact Hd|]. cbn [skms.AccountIndex skms.DerivationPath_ skms.PublicKey_].
  split; [reflexivity|]. split; [vm_compute; reflexivity|].
  rewrite string_length_app, EncodeToString_length, length_app, !be_bytes_length.
  reflexivity.
Defined.

(** X26 on 128 bits from the example random source, then index 3. *)
Lemma generateMnemonic_then_deriveAccount_witness :
  Forall is_word (@wallet.BIP39WordList example.wallet_env)
  ∧ @skms.ParseUint example.skms_env "3" = Some 3
  ∧ match @skms.generateMnemonic example.wallet_env example.skms_env ["128"] example.rnd with
    | Ok phrase =>
        @wallet.validateMnemonic example.wallet_env phrase = true
        ∧ ∃ h' report,
            @skms.deriveAccount example.wallet_env example.skms_env wallet.empty_heap
              [phrase; "3"] (Some example.keyA) 0 = (h', Ok report)
    | Err _ => False
    end.
Proof.
  assert (H1 : @skms.ParseUint example.skms_env "3" = Some 3) by reflexivity.
  split; [exact example_words|]. split; [exact H1|].
  destruct (@skms.generateMnemonic example.wallet_env example.skms_env ["128"] example.rnd)
    as [phrase|e] eqn:Hg.
  - destruct (@generateMnemonic_then_deriveAccount example.wallet_env example.skms_env
                ["128"] example.rnd) as (_ & _ & _ & _ & Hok).
    destruct (Hok phrase example_words Hg) as [Hv Hd].
    split; [exact Hv|].
    destruct (Hd wallet.empty_heap "3" 3 example.keyA 0 H1) as (h' & report & R & _).
    by exists h', report.
  - vm_compute in Hg. discriminate Hg.
Defined.
